(** * Internship scraper: table parser, filter and sheet writer

    A shallow embedding of [src/sources/github.js] (both revisions of the
    file: the HTML-table parser and the Markdown-pipe parser) and of
    [src/sheets.js], followed by the properties proved about them.

    JavaScript strings are sequences of UTF-16 code units; they are
    modelled as [list Z].  The regular expressions of the source are
    written as terms of a small regex syntax and run by a backtracking
    matcher that follows the ECMAScript matching order (leftmost start,
    greedy or lazy quantifiers, alternatives left to right). *)

From Stdlib Require Import String.
From Stdlib Require Import List ZArith Bool Lia Ascii Arith PeanoNat.
Import ListNotations.

Set Implicit Arguments.

(** ** JavaScript strings *)

Module JS.

Definition jsstring := list Z.

(** An ASCII literal as code units. *)
Definition str (s : String.string) : jsstring :=
  map (fun a => Z.of_N (N_of_ascii a)) (String.list_ascii_of_string s).
Arguments str s%_string_scope.

Fixpoint eqb (a b : jsstring) : bool :=
  match a, b with
  | [], [] => true
  | x :: a', y :: b' => Z.eqb x y && eqb a' b'
  | _, _ => false
  end.

(** JavaScript truthiness of a string: only the empty string is falsy. *)
Definition truthy (s : jsstring) : bool :=
  match s with [] => false | _ :: _ => true end.

(** [s.startsWith(p)] *)
Fixpoint startsWith (s p : jsstring) {struct p} : bool :=
  match p, s with
  | [], _ => true
  | x :: p', y :: s' => Z.eqb x y && startsWith s' p'
  | _ :: _, [] => false
  end.

(** [s.includes(needle)] *)
Fixpoint includes (s needle : jsstring) : bool :=
  startsWith s needle ||
  match s with
  | [] => false
  | _ :: s' => includes s' needle
  end.

(** White space and line terminators: the class [\s] and the code units
    removed by [trim]. *)
Definition isSpace (c : Z) : bool :=
  ((9 <=? c) && (c <=? 13) || (c =? 32) || (c =? 160) || (c =? 5760)
   || (8192 <=? c) && (c <=? 8202) || (c =? 8232) || (c =? 8233)
   || (c =? 8239) || (c =? 8287) || (c =? 12288) || (c =? 65279))%Z.

Fixpoint trimStart (s : jsstring) : jsstring :=
  match s with
  | c :: s' => if isSpace c then trimStart s' else s
  | [] => []
  end.

Definition trimEnd (s : jsstring) : jsstring := rev (trimStart (rev s)).

(** [s.trim()] *)
Definition trim (s : jsstring) : jsstring := trimEnd (trimStart s).

(** [s.split(sep)] for a string separator.  The list returned is never
    empty; its head is the piece being read.  [skip] counts the code
    units of a separator still to be passed over. *)
Fixpoint splitGo (sep : jsstring) (skip : nat) (rest : jsstring)
  : list jsstring :=
  match rest with
  | [] => [[]]
  | c :: t =>
      match skip with
      | S k => splitGo sep k t
      | O =>
          if startsWith rest sep
          then [] :: splitGo sep (length sep - 1) t
          else match splitGo sep 0 t with
               | p :: ps => (c :: p) :: ps
               | [] => [[c]]
               end
      end
  end.

Definition split (s sep : jsstring) : list jsstring :=
  match sep with
  | [] => map (fun c => [c]) s
  | _ :: _ => splitGo sep 0 s
  end.

(** [a.join(sep)] *)
Fixpoint join (a : list jsstring) (sep : jsstring) : jsstring :=
  match a with
  | [] => []
  | [x] => x
  | x :: a' => x ++ sep ++ join a' sep
  end.

(** [a || b] on strings that may be [undefined]. *)
Definition or_else (a b : option jsstring) : option jsstring :=
  match a with
  | Some (_ :: _) => a
  | _ => b
  end.

End JS.

Import JS.

(** ** Regular expressions *)

Module Regex.

(** The fragment of the pattern language the source uses.  Quantifiers are
    only applied to single-character classes there, so [Star] takes a
    class; [x+] is [x] followed by [x*] and [x?] is [x|()]. *)
Inductive regex : Type :=
| Eps : regex
| Bol : regex                                  (* ^ *)
| Chr : (Z -> bool) -> regex                   (* one code unit of a class *)
| Star : (Z -> bool) -> bool -> regex          (* class*, greedy or lazy *)
| Seq : regex -> regex -> regex
| Alt : regex -> regex -> regex
| Grp : nat -> regex -> regex.                 (* capture group number n *)

Definition greedy := true.
Definition lazy := false.

Definition Plus (p : Z -> bool) (g : bool) : regex := Seq (Chr p) (Star p g).
Definition Opt (r : regex) : regex := Alt r Eps.

(** Character classes. *)
Definition anyChar (_ : Z) : bool := true.        (* [\s\S] *)
Definition space : Z -> bool := isSpace.          (* \s *)
Definition digit (c : Z) : bool := ((48 <=? c) && (c <=? 57))%Z.   (* \d *)
Definition isChar (x : Z) (c : Z) : bool := (c =? x)%Z.
Definition isNot (x : Z) (c : Z) : bool := negb (c =? x)%Z.   (* [^x] *)
Definition oneOf (xs : list Z) (c : Z) : bool := existsb (Z.eqb c) xs.

(** Upper-casing of an ASCII letter.  Under the [i] flag (without [u]) a
    pattern character and an input code unit match when their
    canonical (upper-cased) forms agree, and a code unit outside ASCII
    never canonicalises to an ASCII one; so an ASCII pattern letter
    matches exactly its two ASCII case forms. *)
Definition upper (c : Z) : Z :=
  if ((97 <=? c) && (c <=? 122))%Z then (c - 32)%Z else c.
Definition isCI (x : Z) (c : Z) : bool := (upper c =? upper x)%Z.

Fixpoint seqs (rs : list regex) : regex :=
  match rs with
  | [] => Eps
  | [r] => r
  | r :: rs' => Seq r (seqs rs')
  end.

(** A literal, case-sensitive and case-insensitive. *)
Definition lit (s : jsstring) : regex := seqs (map (fun x => Chr (isChar x)) s).
Definition litI (s : jsstring) : regex := seqs (map (fun x => Chr (isCI x)) s).

Definition captures := list (nat * jsstring).

Section Matcher.
Variable A : Type.

(** Continuations receive the position reached, the rest of the input
    and the captures so far. *)
Definition cont := nat -> jsstring -> captures -> option A.

Fixpoint star (p : Z -> bool) (g : bool) (pos : nat) (rest : jsstring)
         (caps : captures) (k : cont) {struct rest} : option A :=
  match rest with
  | c :: t =>
      if p c then
        if g then
          match star p g (S pos) t caps k with
          | Some a => Some a
          | None => k pos rest caps
          end
        else
          match k pos rest caps with
          | Some a => Some a
          | None => star p g (S pos) t caps k
          end
      else k pos rest caps
  | [] => k pos rest caps
  end.

Fixpoint run (r : regex) (pos : nat) (rest : jsstring) (caps : captures)
         (k : cont) {struct r} : option A :=
  match r with
  | Eps => k pos rest caps
  | Bol => match pos with O => k pos rest caps | S _ => None end
  | Chr p =>
      match rest with
      | c :: t => if p c then k (S pos) t caps else None
      | [] => None
      end
  | Star p g => star p g pos rest caps k
  | Seq a b =>
      run a pos rest caps (fun pos' rest' caps' => run b pos' rest' caps' k)
  | Alt a b =>
      match run a pos rest caps k with
      | Some x => Some x
      | None => run b pos rest caps k
      end
  | Grp n a =>
      run a pos rest caps
          (fun pos' rest' caps' =>
             k pos' rest' ((n, firstn (pos' - pos) rest) :: caps'))
  end.
End Matcher.

(** A successful match: where it ends, its text, and its groups. *)
Record result : Type := mkResult {
  m_end : nat;
  m_text : jsstring;
  m_caps : captures
}.

(** The match of [r] that starts exactly at [pos], if any. *)
Definition execAt (r : regex) (pos : nat) (rest : jsstring) : option result :=
  run r pos rest []
      (fun pos' _ caps => Some (mkResult pos' (firstn (pos' - pos) rest) caps)).

Fixpoint lookup (n : nat) (caps : captures) : option jsstring :=
  match caps with
  | [] => None
  | (i, s) :: caps' => if Nat.eqb i n then Some s else lookup n caps'
  end.

(** [m[n]]; every group of the source's patterns takes part in every
    match, so the [undefined] case does not arise. *)
Definition group (n : nat) (m : result) : jsstring :=
  match lookup n (m_caps m) with Some s => s | None => [] end.

(** [s.match(r)] and [r.exec(s)] for a pattern without the [g] flag: the
    leftmost match. *)
Fixpoint search (r : regex) (pos : nat) (rest : jsstring) : option result :=
  match execAt r pos rest with
  | Some m => Some m
  | None =>
      match rest with
      | [] => None
      | _ :: t => search r (S pos) t
      end
  end.

Definition exec (r : regex) (s : jsstring) : option result := search r 0 s.

(** All matches of a pattern with the [g] flag, left to right and without
    overlap ([s.matchAll(r)], [s.match(r)], a [while (r.exec(s))] loop).
    After a match the scan resumes at its end, and one code unit later
    when the match is empty. *)
Fixpoint scanGo (r : regex) (pos skip : nat) (rest : jsstring)
  : list result :=
  match rest with
  | [] =>
      match skip with
      | O => match execAt r pos [] with Some m => [m] | None => [] end
      | S _ => []
      end
  | _ :: t =>
      match skip with
      | S k => scanGo r (S pos) k t
      | O =>
          match execAt r pos rest with
          | Some m => m :: scanGo r (S pos) (m_end m - pos - 1) t
          | None => scanGo r (S pos) 0 t
          end
      end
  end.

Definition matchAll (r : regex) (s : jsstring) : list result := scanGo r 0 0 s.

(** [s.replace(r, f)] for a pattern with the [g] flag; [f] builds the
    replacement from the match (a constant, or group 1 for ["$1"]). *)
Fixpoint replaceGo (r : regex) (f : result -> jsstring) (pos skip : nat)
         (rest : jsstring) : jsstring :=
  match rest with
  | [] =>
      match skip with
      | O => match execAt r pos [] with Some m => f m | None => [] end
      | S _ => []
      end
  | c :: t =>
      match skip with
      | S k => replaceGo r f (S pos) k t
      | O =>
          match execAt r pos rest with
          | Some m =>
              f m ++
              (if Nat.eqb (m_end m) pos
               then c :: replaceGo r f (S pos) 0 t
               else replaceGo r f (S pos) (m_end m - pos - 1) t)
          | None => c :: replaceGo r f (S pos) 0 t
          end
      end
  end.

Definition replaceAll (r : regex) (f : result -> jsstring) (s : jsstring)
  : jsstring := replaceGo r f 0 0 s.

(** [s.split(r)] for a pattern that cannot match the empty string (both
    separator patterns of the source are such): an empty match is
    passed over. *)
Fixpoint splitReGo (r : regex) (pos skip : nat) (rest : jsstring)
  : list jsstring :=
  match rest with
  | [] => [[]]
  | c :: t =>
      match skip with
      | S k => splitReGo r (S pos) k t
      | O =>
          let keep :=
            match splitReGo r (S pos) 0 t with
            | p :: ps => (c :: p) :: ps
            | [] => [[c]]
            end in
          match execAt r pos rest with
          | Some m =>
              if Nat.eqb (m_end m) pos then keep
              else [] :: splitReGo r (S pos) (m_end m - pos - 1) t
          | None => keep
          end
      end
  end.

Definition splitRe (r : regex) (s : jsstring) : list jsstring :=
  splitReGo r 0 0 s.

End Regex.

Import Regex.

(** ** The job record and the glyphs of the listing *)

Record JobRecord : Type := mkJob {
  company : jsstring;
  role : jsstring;
  location : jsstring;
  link : jsstring;
  datePosted : jsstring;
  source : jsstring
}.

(** A character literal as a code unit. *)
Definition ch (a : ascii) : Z := Z.of_N (N_of_ascii a).
Arguments ch a%_char_scope.

Definition NL : Z := 10.
Definition DQUOTE : Z := 34.

(** U+21B3, the continuation marker. *)
Definition ARROW : jsstring := [0x21B3%Z].
(** U+1F512, the closed-application lock (a surrogate pair). *)
Definition LOCK : jsstring := [0xD83D%Z; 0xDD12%Z].
(** U+1F6C2 and the pair U+1F1FA U+1F1F8, the decorative glyphs. *)
Definition PASSPORT : jsstring := [0xD83D%Z; 0xDEC2%Z].
Definition FLAG_US : jsstring := [0xD83C%Z; 0xDDFA%Z; 0xD83C%Z; 0xDDF8%Z].

Definition optList (A : Type) (o : option A) : list A :=
  match o with Some a => [a] | None => [] end.

Definition isSome (A : Type) (o : option A) : bool :=
  match o with Some _ => true | None => false end.

(** ** [github.js], the revision that reads the HTML table *)

Module Html.

(** [/<[^>]*>/g] *)
Definition tagRegex : regex :=
  seqs [lit (str "<"); Star (isNot (ch ">")) greedy; lit (str ">")].

Definition cleanText (text : jsstring) : jsstring :=
  trim
    (replaceAll (Plus space greedy) (fun _ => str " ")
    (replaceAll (lit (str "&nbsp;")) (fun _ => str " ")
    (replaceAll (lit (str "&gt;")) (fun _ => str ">")
    (replaceAll (lit (str "&lt;")) (fun _ => str "<")
    (replaceAll (lit (str "&amp;")) (fun _ => str "&")
    (replaceAll tagRegex (fun _ => [])
       text)))))).

(** [/<a[^>]*>([^<]+)<\/a>/i] *)
Definition anchorTextRegex : regex :=
  seqs [litI (str "<a"); Star (isNot (ch ">")) greedy; litI (str ">");
        Grp 1 (Plus (isNot (ch "<")) greedy); litI (str "</a>")].

(** [/<strong[^>]*>[\s\S]*?<a[^>]*>([^<]+)<\/a>[\s\S]*?<\/strong>/i] *)
Definition strongRegex : regex :=
  seqs [litI (str "<strong"); Star (isNot (ch ">")) greedy; litI (str ">");
        Star anyChar lazy;
        litI (str "<a"); Star (isNot (ch ">")) greedy; litI (str ">");
        Grp 1 (Plus (isNot (ch "<")) greedy); litI (str "</a>");
        Star anyChar lazy; litI (str "</strong>")].

Definition extractCompanyName (cellContent : jsstring) : jsstring :=
  if eqb (trim cellContent) ARROW then ARROW
  else
    match exec anchorTextRegex cellContent with
    | Some linkMatch => cleanText (group 1 linkMatch)
    | None =>
        match exec strongRegex cellContent with
        | Some strongMatch => cleanText (group 1 strongMatch)
        | None => cleanText cellContent
        end
    end.

(** [/<details>[\s\S]*?<summary>[\s\S]*?<strong>(\d+\s+locations)<\/strong>[\s\S]*?<\/summary>([\s\S]*?)<\/details>/i] *)
Definition detailsRegex : regex :=
  seqs [litI (str "<details>"); Star anyChar lazy; litI (str "<summary>");
        Star anyChar lazy; litI (str "<strong>");
        Grp 1 (seqs [Plus digit greedy; Plus space greedy;
                     litI (str "locations")]);
        litI (str "</strong>"); Star anyChar lazy; litI (str "</summary>");
        Grp 2 (Star anyChar lazy); litI (str "</details>")].

(** [/<\/br>|<br\s*\/?>|\n/i] *)
Definition breakRegex : regex :=
  Alt (litI (str "</br>"))
      (Alt (seqs [litI (str "<br"); Star space greedy;
                  Opt (Chr (isCI (ch "/"))); litI (str ">")])
           (Chr (isCI NL))).

Definition locationsOf (text : jsstring) : jsstring :=
  join (filter (fun loc => 0 <? length loc)
               (map cleanText (splitRe breakRegex text)))
       (str ", ").

Definition extractLocation (cellContent : jsstring) : jsstring :=
  match exec detailsRegex cellContent with
  | Some detailsMatch => locationsOf (group 2 detailsMatch)
  | None => locationsOf cellContent
  end.

(** [/<a\s+href=Q([^Q]+)Q/gi], where Q is the double quote (and the same
    pattern with [i] alone) *)
Definition hrefRegex : regex :=
  seqs [litI (str "<a"); Plus space greedy; litI (str "href=" ++ [DQUOTE]);
        Grp 1 (Plus (isNot DQUOTE) greedy); litI [DQUOTE]].

(** The [for] loop over the matches, with its early [return]. *)
Fixpoint firstDirect (linkMatches : list result) : option jsstring :=
  match linkMatches with
  | [] => None
  | m :: rest =>
      let href := group 1 m in
      if negb (includes href (str "simplify.jobs"))
      then Some (hd [] (split href (str "?utm_source")))
      else firstDirect rest
  end.

Definition extractApplicationLink (cellContent : jsstring) : jsstring :=
  match firstDirect (matchAll hrefRegex cellContent) with
  | Some href => href
  | None =>
      match exec hrefRegex cellContent with
      | Some anyLink => group 1 anyLink
      | None => []
      end
  end.

(** [/<tr>\s*([\s\S]*?)\s*<\/tr>/gi] *)
Definition rowRegex : regex :=
  seqs [litI (str "<tr>"); Star space greedy; Grp 1 (Star anyChar lazy);
        Star space greedy; litI (str "</tr>")].

(** [/<td>([\s\S]*?)<\/td>/gi] *)
Definition cellRegex : regex :=
  seqs [litI (str "<td>"); Grp 1 (Star anyChar lazy); litI (str "</td>")].

(** The [while] loop that collects the trimmed cells of a row. *)
Definition cellsOf (row : jsstring) : list jsstring :=
  map (fun m => trim (group 1 m)) (matchAll cellRegex row).

(** One turn of the row loop: the record pushed, if any, and the value of
    [lastCompany] afterwards. *)
Definition processRow (row lastCompany : jsstring)
  : option JobRecord * jsstring :=
  if includes row (str "<th>") then (None, lastCompany)
  else
    let cells := cellsOf row in
    if length cells <? 4 then (None, lastCompany)
    else
      let companyCell := nth 0 cells [] in
      let roleCell := nth 1 cells [] in
      let locationCell := nth 2 cells [] in
      let applicationCell := nth 3 cells [] in
      let datePostedCell := nth_error cells 4 in
      let extracted := extractCompanyName companyCell in
      let continuation := eqb extracted ARROW || eqb extracted [] in
      let company := if continuation then lastCompany else extracted in
      let lastCompany' := if continuation then lastCompany else extracted in
      let role := cleanText roleCell in
      let location := extractLocation locationCell in
      let link := extractApplicationLink applicationCell in
      let datePosted :=
        match datePostedCell with
        | Some d => if truthy d then cleanText d else []
        | None => []
        end in
      if negb (truthy company) || negb (truthy role) || negb (truthy link)
         || eqb link LOCK
      then (None, lastCompany')
      else (Some (mkJob company role location link datePosted (str "GitHub")),
            lastCompany').

Fixpoint rowsLoop (rows : list jsstring) (lastCompany : jsstring)
  : list JobRecord :=
  match rows with
  | [] => []
  | row :: rest =>
      let (pushed, lastCompany') := processRow row lastCompany in
      optList pushed ++ rowsLoop rest lastCompany'
  end.

(** [markdown.match(rowRegex) || []] *)
Definition rowsOf (markdown : jsstring) : list jsstring :=
  map m_text (matchAll rowRegex markdown).

Definition parseMarkdownTable (markdown : jsstring) : list JobRecord :=
  rowsLoop (rowsOf markdown) [].

End Html.

(** ** [github.js], the revision that reads the Markdown table *)

Module Md.

(** [/<[^>]*>/g] *)
Definition tagRegex : regex :=
  seqs [lit (str "<"); Star (isNot (ch ">")) greedy; lit (str ">")].

(** [/\[([^\]]+)\]\([^)]+\)/] *)
Definition mdLinkRegex : regex :=
  seqs [lit (str "["); Grp 1 (Plus (isNot (ch "]")) greedy); lit (str "](");
        Plus (isNot (ch ")")) greedy; lit (str ")")].

(** [/\[([^\]]+)\]\(([^)]+)\)/] *)
Definition mdLinkUrlRegex : regex :=
  seqs [lit (str "["); Grp 1 (Plus (isNot (ch "]")) greedy); lit (str "](");
        Grp 2 (Plus (isNot (ch ")")) greedy); lit (str ")")].

(** [/\*\*([^*]+)\*\*/g] *)
Definition boldRegex : regex :=
  seqs [lit (str "**"); Grp 1 (Plus (isNot (ch "*")) greedy); lit (str "**")].

(** The alternation of the two decorative glyphs. *)
Definition glyphRegex : regex := Alt (lit PASSPORT) (lit FLAG_US).

Definition cleanText (text : jsstring) : jsstring :=
  trim
    (replaceAll (Plus space greedy) (fun _ => str " ")
    (replaceAll glyphRegex (fun _ => [])
    (replaceAll (lit (str "&apos;")) (fun _ => str "'")
    (replaceAll (lit (str "&nbsp;")) (fun _ => str " ")
    (replaceAll (lit (str "&gt;")) (fun _ => str ">")
    (replaceAll (lit (str "&lt;")) (fun _ => str "<")
    (replaceAll (lit (str "&amp;")) (fun _ => str "&")
    (replaceAll boldRegex (group 1)
    (replaceAll mdLinkRegex (group 1)
    (replaceAll tagRegex (fun _ => [])
       text)))))))))).

(** [/<a[^>]*>([^<]+)<\/a>/i] *)
Definition anchorTextRegex : regex :=
  seqs [litI (str "<a"); Star (isNot (ch ">")) greedy; litI (str ">");
        Grp 1 (Plus (isNot (ch "<")) greedy); litI (str "</a>")].

Definition extractCompanyName (cellContent : jsstring) : jsstring :=
  if eqb (trim cellContent) ARROW then ARROW
  else
    match exec anchorTextRegex cellContent with
    | Some linkMatch => cleanText (group 1 linkMatch)
    | None =>
        match exec mdLinkRegex cellContent with
        | Some mdLinkMatch => cleanText (group 1 mdLinkMatch)
        | None => cleanText cellContent
        end
    end.

(** [/<details>[\s\S]*?<summary>[\s\S]*?\*\*(\d+\s+locations)\*\*[\s\S]*?<\/summary>([\s\S]*?)<\/details>/i] *)
Definition detailsRegex : regex :=
  seqs [litI (str "<details>"); Star anyChar lazy; litI (str "<summary>");
        Star anyChar lazy; litI (str "**");
        Grp 1 (seqs [Plus digit greedy; Plus space greedy;
                     litI (str "locations")]);
        litI (str "**"); Star anyChar lazy; litI (str "</summary>");
        Grp 2 (Star anyChar lazy); litI (str "</details>")].

(** [/<\/br>|<br\s*\/?>|\n/i] *)
Definition breakRegex : regex :=
  Alt (litI (str "</br>"))
      (Alt (seqs [litI (str "<br"); Star space greedy;
                  Opt (Chr (isCI (ch "/"))); litI (str ">")])
           (Chr (isCI NL))).

Definition locationsOf (text : jsstring) : jsstring :=
  join (filter (fun loc => 0 <? length loc)
               (map cleanText (splitRe breakRegex text)))
       (str ", ").

Definition extractLocation (cellContent : jsstring) : jsstring :=
  match exec detailsRegex cellContent with
  | Some detailsMatch => locationsOf (group 2 detailsMatch)
  | None => locationsOf cellContent
  end.

(** [/<a\s+href=Q([^Q]+)Q/i], where Q is the double quote *)
Definition hrefRegex : regex :=
  seqs [litI (str "<a"); Plus space greedy; litI (str "href=" ++ [DQUOTE]);
        Grp 1 (Plus (isNot DQUOTE) greedy); litI [DQUOTE]].

Definition extractApplicationLink (cellContent : jsstring) : jsstring :=
  if includes cellContent LOCK then LOCK
  else
    match exec hrefRegex cellContent with
    | Some hrefMatch => hd [] (split (group 1 hrefMatch) (str "?utm_source"))
    | None =>
        match exec mdLinkUrlRegex cellContent with
        | Some mdLinkMatch =>
            hd [] (split (group 2 mdLinkMatch) (str "?utm_source"))
        | None => []
        end
    end.

(** [/^\|\s*[-:]+\s*\|/] *)
Definition separatorRegex : regex :=
  seqs [Bol; lit (str "|"); Star space greedy;
        Plus (oneOf [ch "-"; ch ":"]) greedy; Star space greedy;
        lit (str "|")].

(** [line.split("|").map(trim).filter(nonempty)] *)
Definition cellsOf (line : jsstring) : list jsstring :=
  filter (fun cell => 0 <? length cell) (map trim (split line (str "|"))).

(** One turn of the line loop: either the loop goes on, with the new
    values of [inTable] and [lastCompany] and the record pushed if any, or
    it is left by [break]. *)
Inductive turn : Type :=
| Continue (inTable : bool) (lastCompany : jsstring)
           (pushed : option JobRecord)
| Break.

Definition processLine (inTable : bool) (lastCompany line : jsstring)
  : turn :=
  if includes line (str "| Company") && includes line (str "| Role")
  then Continue true lastCompany None
  else if isSome (exec separatorRegex line)
  then Continue inTable lastCompany None
  else if inTable && negb (startsWith line (str "|"))
  then Break
  else if negb inTable || negb (startsWith line (str "|"))
  then Continue inTable lastCompany None
  else
    let cells := cellsOf line in
    if length cells <? 4 then Continue inTable lastCompany None
    else
      let companyCell := nth 0 cells [] in
      let roleCell := nth 1 cells [] in
      let locationCell := nth 2 cells [] in
      let applicationCell := nth 3 cells [] in
      let datePostedCell := nth_error cells 4 in
      let extracted := extractCompanyName companyCell in
      let continuation := eqb extracted ARROW || eqb extracted [] in
      let company := if continuation then lastCompany else extracted in
      let lastCompany' := if continuation then lastCompany else extracted in
      let role := cleanText roleCell in
      let location := extractLocation locationCell in
      let link := extractApplicationLink applicationCell in
      let datePosted :=
        match datePostedCell with
        | Some d => if truthy d then cleanText d else []
        | None => []
        end in
      if negb (truthy company) || negb (truthy role) || negb (truthy link)
         || eqb link LOCK || includes applicationCell LOCK
      then Continue inTable lastCompany' None
      else Continue inTable lastCompany'
             (Some (mkJob company role location link datePosted
                          (str "GitHub"))).

Fixpoint linesLoop (lines : list jsstring) (inTable : bool)
         (lastCompany : jsstring) : list JobRecord :=
  match lines with
  | [] => []
  | line :: rest =>
      match processLine inTable lastCompany line with
      | Continue inTable' lastCompany' pushed =>
          optList pushed ++ linesLoop rest inTable' lastCompany'
      | Break => []
      end
  end.

Definition parseMarkdownTable (markdown : jsstring) : list JobRecord :=
  linesLoop (split markdown [NL]) false [].

End Md.

(** ** The filter (the same text in both revisions of [github.js]) *)

Module Filter.

Definition ALLOWED_LOCATIONS : list jsstring :=
  [str "New York"; str "San Francisco"; str "Boston"; str "Houston";
   str "Remote"].

Definition ROLE_KEYWORDS : list jsstring := [str "Software"; str "Engineer"].

(** Lower-casing of an ASCII string. *)
Definition lowerAscii (c : Z) : Z :=
  if ((65 <=? c) && (c <=? 90))%Z then (c + 32)%Z else c.

Definition isAscii (c : Z) : bool := ((0 <=? c) && (c <? 128))%Z.

Section WithLowerCase.
(** [String.prototype.toLowerCase] follows the Unicode case tables of
    the runtime; it is kept abstract.  What is used of it is stated
    where needed: on a string of ASCII code units it lower-cases the
    letters A to Z and leaves the rest. *)
Variable toLowerCase : jsstring -> jsstring.

Definition roleMatches (internship : JobRecord) : bool :=
  existsb (fun keyword =>
             includes (toLowerCase (role internship)) (toLowerCase keyword))
          ROLE_KEYWORDS.

Definition locationMatches (internship : JobRecord) : bool :=
  existsb (fun loc =>
             includes (toLowerCase (location internship)) (toLowerCase loc))
          ALLOWED_LOCATIONS.

Definition filterInternships (internships : list JobRecord)
  : list JobRecord :=
  filter (fun internship =>
            roleMatches internship && locationMatches internship)
         internships.
End WithLowerCase.

End Filter.

(** ** [sheets.js] *)

Module Sheets.

(** A row of the sheet: the cell under each header.  [row.get(h)] is
    [undefined] when the row has no cell under [h]. *)
Definition Row := list (jsstring * jsstring).

Fixpoint get (row : Row) (header : jsstring) : option jsstring :=
  match row with
  | [] => None
  | (h, v) :: row' => if eqb h header then Some v else get row' header
  end.

(** The spreadsheet service as the writer meets it, through the library
    [google-spreadsheet].  [reachable]: [doc.loadInfo()] succeeds with
    the configured credentials.  The first tab is a header row and the
    data rows below it; [headerRow] and [rows] give the texts of their
    cells by column, and a cell holds the text written to it.
    [readFails]: the request made by [getRows] is refused.
    [writeFails]: the request made by [addRows] is refused, [Some n]
    when this happens after the first [n] rows of the batch have been
    written, [None] when the request succeeds. *)
Record Sheet : Type := mkSheet {
  reachable : bool;
  headerRow : list jsstring;
  rows : list (list jsstring);
  readFails : bool;
  writeFails : option nat
}.

(** The header values the library works with: the cells of the first
    row, trimmed. *)
Definition headerValues (sheet : Sheet) : list jsstring :=
  map trim (headerRow sheet).

Fixpoint noDuplicate (headers : list jsstring) : bool :=
  match headers with
  | [] => true
  | h :: rest => negb (existsb (eqb h) rest) && noDuplicate rest
  end.

(** The library refuses a header row whose cells are all blank, and one
    in which a header that is not blank occurs twice. *)
Definition headerRowOk (headers : list jsstring) : bool :=
  existsb truthy headers && noDuplicate (filter truthy headers).

(** The service returns the cells of a row up to the last one that is
    not empty. *)
Fixpoint dropTrailingEmpty (cells : list jsstring) : list jsstring :=
  match cells with
  | [] => []
  | c :: rest =>
      match dropTrailingEmpty rest with
      | [] => if truthy c then [c] else []
      | rest' => c :: rest'
      end
  end.

(** A data row as a row object: [row.get(h)] is the cell in the column
    of the first header equal to [h]. *)
Definition rowOf (headers cells : list jsstring) : Row :=
  combine headers (dropTrailingEmpty cells).

(** [sheet.getRows()]: the header row is loaded first; [None] stands for
    an exception. *)
Definition getRows (sheet : Sheet) : option (list Row) :=
  if readFails sheet then None
  else if headerRowOk (headerValues sheet)
       then Some (map (rowOf (headerValues sheet)) (rows sheet))
       else None.

(** The cells written for a row object: under each header the value of
    the property of that name, nothing where the object has none. *)
Definition cellsFor (headers : list jsstring) (row : Row) : list jsstring :=
  map (fun h => match get row h with Some v => v | None => [] end) headers.

(** [sheet.addRows(rowsToAdd)], once the header row is loaded: whether
    it returns, and the sheet afterwards. *)
Definition addRows (rowsToAdd : list Row) (sheet : Sheet) : bool * Sheet :=
  let written := map (cellsFor (headerValues sheet)) rowsToAdd in
  match writeFails sheet with
  | None =>
      (true,
       mkSheet (reachable sheet) (headerRow sheet) (rows sheet ++ written)
               (readFails sheet) (writeFails sheet))
  | Some n =>
      (false,
       mkSheet (reachable sheet) (headerRow sheet)
               (rows sheet ++ firstn n written)
               (readFails sheet) (writeFails sheet))
  end.

(** The calls made to the service. *)
Inductive call : Type :=
| LoadInfo
| GetRows
| AddRows (rowsToAdd : list Row).

Inductive outcome : Type :=
| Returned (added duplicates : nat)
| Thrown.

(** [new Set()], [add] and [has]. *)
Definition has (s : list jsstring) (x : jsstring) : bool :=
  existsb (eqb x) s.

Definition add (s : list jsstring) (x : jsstring) : list jsstring :=
  if has s x then s else s ++ [x].

(** The link read from an existing row. *)
Definition rowLink (row : Row) : option jsstring :=
  or_else
    (or_else
       (or_else
          (or_else (get row (str "Application Link")) (get row (str "Link")))
          (get row (str "link")))
       (get row (str "URL")))
    (get row (str "url")).

Fixpoint collectLinks (existingRows : list Row) (existingLinks : list jsstring)
  : list jsstring :=
  match existingRows with
  | [] => existingLinks
  | row :: rest =>
      match rowLink row with
      | Some (c :: l) => collectLinks rest (add existingLinks (c :: l))
      | _ => collectLinks rest existingLinks
      end
  end.

Definition existingLinksOf (existingRows : list Row) : list jsstring :=
  collectLinks existingRows [].

(** The date part of an ISO timestamp. *)
Definition isoDate (timestamp : jsstring) : jsstring :=
  hd [] (split timestamp (str "T")).

Definition toRow (dateAdded : jsstring) (job : JobRecord) : Row :=
  [(str "Company", company job);
   (str "Role", role job);
   (str "Location", location job);
   (str "Application Link", link job);
   (str "Date Posted", if truthy (datePosted job) then datePosted job else []);
   (str "Source", source job);
   (str "Date Added", dateAdded)].

(** [newJobs.map(...)]; [clock i] is the timestamp [new Date().toISOString()]
    gives when the row of index [i] is built. *)
Fixpoint rowsFrom (clock : nat -> jsstring) (i : nat) (newJobs : list JobRecord)
  : list Row :=
  match newJobs with
  | [] => []
  | job :: rest => toRow (isoDate (clock i)) job :: rowsFrom clock (S i) rest
  end.

(** [addToSheet]: the value returned or the exception (every exception
    is caught, logged and thrown again), the sheet afterwards, and the
    calls made to the service in order.  [None] stands for a missing
    ([null] or [undefined]) argument. *)
Definition addToSheet (clock : nat -> jsstring)
           (jobsArray : option (list JobRecord)) (sheet : Sheet)
  : outcome * Sheet * list call :=
  match jobsArray with
  | None | Some [] => (Returned 0 0, sheet, [])
  | Some jobs =>
      if negb (reachable sheet) then (Thrown, sheet, [LoadInfo])
      else
        match getRows sheet with
        | None => (Thrown, sheet, [LoadInfo; GetRows])
        | Some existingRows =>
            let existingLinks := existingLinksOf existingRows in
            let newJobs :=
              filter (fun job => negb (has existingLinks (link job))) jobs in
            let duplicateCount := length jobs - length newJobs in
            if length newJobs =? 0
            then (Returned 0 duplicateCount, sheet, [LoadInfo; GetRows])
            else
              let rowsToAdd := rowsFrom clock 0 newJobs in
              match addRows rowsToAdd sheet with
              | (true, sheet') =>
                  (Returned (length newJobs) duplicateCount, sheet',
                   [LoadInfo; GetRows; AddRows rowsToAdd])
              | (false, sheet') =>
                  (Thrown, sheet', [LoadInfo; GetRows; AddRows rowsToAdd])
              end
        end
  end.

End Sheets.

(** ** Specification-level notions *)

Module Spec.

(** [needle] occurs in [s] as a run of consecutive code units. *)
Definition occursIn (needle s : jsstring) : Prop :=
  exists pre post, s = pre ++ needle ++ post.

(** A company cell that stands for the company of an earlier row. *)
Definition isContinuation (c : jsstring) : bool := eqb c ARROW || eqb c [].



(** The value of [lastCompany] after the row loop of the HTML revision
    has gone through [rows]. *)
Fixpoint htmlLastCompany (rows : list jsstring) (lastCompany : jsstring)
  : jsstring :=
  match rows with
  | [] => lastCompany
  | row :: rest =>
      htmlLastCompany rest (snd (Html.processRow row lastCompany))
  end.

(** The rows of the HTML table that are read as postings: not a header
    row, and at least four cells. *)
Definition htmlIsDataRow (row : jsstring) : bool :=
  negb (includes row (str "<th>")) && (4 <=? length (Html.cellsOf row)).

Definition htmlCompanyOf (row : jsstring) : jsstring :=
  Html.extractCompanyName (nth 0 (Html.cellsOf row) []).


(** The lines of the Markdown document: the header line opens the table,
    separator lines and lines outside the table are passed over, the
    first line of the table that does not begin with a bar ends it, and a
    row of the table is read as a posting when it has at least four
    cells. *)
Inductive lineKind : Type :=
| Header
| Skipped
| Posting (cells : list jsstring)
| TableEnd.

Definition mdIsHeader (line : jsstring) : bool :=
  includes line (str "| Company") && includes line (str "| Role").

Definition mdClassify (inTable : bool) (line : jsstring) : lineKind :=
  if mdIsHeader line then Header
  else if isSome (exec Md.separatorRegex line) then Skipped
  else if inTable && negb (startsWith line (str "|")) then TableEnd
  else if negb inTable || negb (startsWith line (str "|")) then Skipped
  else if length (Md.cellsOf line) <? 4 then Skipped
  else Posting (Md.cellsOf line).

Definition mdCompanyOf (cells : list jsstring) : jsstring :=
  Md.extractCompanyName (nth 0 cells []).


(** The record pushed in a turn of the line loop. *)
Definition pushedOf (t : Md.turn) : option JobRecord :=
  match t with
  | Md.Continue _ _ pushed => pushed
  | Md.Break => None
  end.

(** The state of the line loop after [lines], when it has not been left. *)
Fixpoint mdStateAfter (lines : list jsstring) (inTable : bool)
         (lastCompany : jsstring) : option (bool * jsstring) :=
  match lines with
  | [] => Some (inTable, lastCompany)
  | line :: rest =>
      match Md.processLine inTable lastCompany line with
      | Md.Continue inTable' lastCompany' _ =>
          mdStateAfter rest inTable' lastCompany'
      | Md.Break => None
      end
  end.

(** The first element satisfying [p], as an option. *)
Fixpoint firstWhere (A : Type) (p : A -> bool) (l : list A) : option A :=
  match l with
  | [] => None
  | x :: l' => if p x then Some x else firstWhere p l'
  end.

(** The text before the first occurrence of [sep]; all of [s] when [sep]
    does not occur. *)
Fixpoint beforeFirst (sep s : jsstring) : jsstring :=
  if startsWith s sep then []
  else match s with
       | [] => []
       | c :: t => c :: beforeFirst sep t
       end.

Definition AGGREGATOR : jsstring := str "simplify.jobs".
Definition TRACKING : jsstring := str "?utm_source".

(** Link choice as the specification words it: the first link that does
    not point at the aggregator, else the aggregator link, in both cases
    cut at the tracking parameter. *)
Definition preferDirect (hrefs : list jsstring) : jsstring :=
  match firstWhere (fun h => negb (includes h AGGREGATOR)) hrefs with
  | Some h => beforeFirst TRACKING h
  | None => beforeFirst TRACKING (hd [] hrefs)
  end.

(** The links of an application cell, in the order of their occurrence:
    the [href]s of its anchors (either revision), and the targets of its
    Markdown links. *)
Definition htmlHrefs (cell : jsstring) : list jsstring :=
  map (group 1) (matchAll Html.hrefRegex cell).

Definition mdAnchorHrefs (cell : jsstring) : list jsstring :=
  map (group 1) (matchAll Md.hrefRegex cell).

Definition mdLinkUrls (cell : jsstring) : list jsstring :=
  map (group 2) (matchAll Md.mdLinkUrlRegex cell).

Definition isDirect (href : jsstring) : bool :=
  negb (includes href AGGREGATOR).

(** The column names under which an existing row may hold its link. *)
Definition ALIASES : list jsstring :=
  [str "Application Link"; str "Link"; str "link"; str "URL"; str "url"].

(** The existing-link value as the specification words it: the value
    under the first alias the row has, whatever that value is. *)
Fixpoint firstPresent (row : Sheets.Row) (aliases : list jsstring)
  : option jsstring :=
  match aliases with
  | [] => None
  | a :: rest =>
      match Sheets.get row a with
      | Some v => Some v
      | None => firstPresent row rest
      end
  end.

Definition firstAliasPresent (row : Sheets.Row) : option jsstring :=
  firstPresent row ALIASES.

(** The value under the first alias whose cell is a non-empty string. *)
Fixpoint firstNonEmpty (row : Sheets.Row) (aliases : list jsstring)
  : option jsstring :=
  match aliases with
  | [] => None
  | a :: rest =>
      match Sheets.get row a with
      | Some (c :: l) => Some (c :: l)
      | _ => firstNonEmpty row rest
      end
  end.

Definition firstAliasNonEmpty (row : Sheets.Row) : option jsstring :=
  firstNonEmpty row ALIASES.

(** [l'] is [l] with some elements left out, the others in order. *)
Inductive subsequence (A : Type) : list A -> list A -> Prop :=
| sub_nil : subsequence [] []
| sub_drop : forall x l' l, subsequence l' l -> subsequence l' (x :: l)
| sub_keep : forall x l' l, subsequence l' l -> subsequence (x :: l') (x :: l).

(** [text] contains one of [keys], letter case set aside by the given
    lower-casing. *)
Definition matchesAny (toLowerCase : jsstring -> jsstring)
           (keys : list jsstring) (text : jsstring) : Prop :=
  exists key, In key keys /\ occursIn (toLowerCase key) (toLowerCase text).

(** A record passes the filter. *)
Definition passes (toLowerCase : jsstring -> jsstring) (r : JobRecord)
  : Prop :=
  matchesAny toLowerCase Filter.ROLE_KEYWORDS (role r)
  /\ matchesAny toLowerCase Filter.ALLOWED_LOCATIONS (location r).

(** What an existing row contributes to the set of existing links. *)
Definition contributes (row : Sheets.Row) (x : jsstring) : Prop :=
  Sheets.rowLink row = Some x /\ x <> [].

(** A clock for the examples. *)
Definition noon (_ : nat) : jsstring := str "2026-06-01T12:00:00.000Z".

(** One space for each run of white space.  [inRun] tells that the code
    unit before was white space. *)
Fixpoint collapse (inRun : bool) (s : jsstring) : jsstring :=
  match s with
  | [] => []
  | c :: t =>
      if isSpace c
      then if inRun then collapse true t else 32%Z :: collapse true t
      else c :: collapse false t
  end.

(** The structural form of: every white-space code unit is a space and
    is not followed by white space. *)
Fixpoint singleSpaced (s : jsstring) : Prop :=
  match s with
  | [] => True
  | c :: t =>
      (isSpace c = true ->
       c = 32%Z /\ match t with [] => True | d :: _ => isSpace d = false end)
      /\ singleSpaced t
  end.

(** White space is normalised: the only white-space code unit is the
    space, no two white-space code units are adjacent, and there is none
    at either end. *)
Definition normalised (s : jsstring) : Prop :=
  (forall c, In c s -> isSpace c = true -> c = 32%Z)
  /\ (forall a c d b,
        s = a ++ c :: d :: b -> isSpace c = true -> isSpace d = false)
  /\ (forall c t, s = c :: t -> isSpace c = false)
  /\ (forall t c, s = t ++ [c] -> isSpace c = false).

(** The length of the longest prefix made of code units of a class. *)
Fixpoint runLength (p : Z -> bool) (s : jsstring) : nat :=
  match s with
  | c :: t => if p c then S (runLength p t) else 0
  | [] => 0
  end.

Definition LT : Z := ch "<".
Definition GT : Z := ch ">".

(** Tag removal: each [<] that has a [>] somewhere after it is dropped
    together with everything up to the nearest such [>].  [inTag] tells
    that a tag is being passed over. *)
Fixpoint stripGo (inTag : bool) (s : jsstring) : jsstring :=
  match s with
  | [] => []
  | c :: t =>
      if inTag then
        if (c =? GT)%Z then stripGo false t else stripGo true t
      else if (c =? LT)%Z && existsb (Z.eqb GT) t then stripGo true t
      else c :: stripGo false t
  end.

Definition stripTags (s : jsstring) : jsstring := stripGo false s.

(** Replacement of every occurrence of a non-empty string, found left to
    right without overlap.  [skip] counts the code units of an
    occurrence still to be passed over. *)
Fixpoint replaceStrGo (from to : jsstring) (skip : nat) (s : jsstring)
  : jsstring :=
  match s with
  | [] => []
  | c :: t =>
      match skip with
      | S k => replaceStrGo from to k t
      | O =>
          if startsWith s from
          then to ++ replaceStrGo from to (length from - 1) t
          else c :: replaceStrGo from to 0 t
      end
  end.

Definition replaceStr (from to s : jsstring) : jsstring :=
  replaceStrGo from to 0 s.

(** Removal of the two decorative glyphs, in one pass from left to
    right. *)
Fixpoint dropGlyphsGo (skip : nat) (s : jsstring) : jsstring :=
  match s with
  | [] => []
  | c :: t =>
      match skip with
      | S k => dropGlyphsGo k t
      | O =>
          if startsWith s PASSPORT
          then dropGlyphsGo (length PASSPORT - 1) t
          else if startsWith s FLAG_US
          then dropGlyphsGo (length FLAG_US - 1) t
          else c :: dropGlyphsGo 0 t
      end
  end.

Definition dropGlyphs (s : jsstring) : jsstring := dropGlyphsGo 0 s.

End Spec.

(** ** Sample rows *)

Module Sample.

Definition anchor (href text : jsstring) : jsstring :=
  str "<a href=" ++ [DQUOTE] ++ href ++ [DQUOTE] ++ str ">" ++ text
  ++ str "</a>".

Definition tr (cells : list jsstring) : jsstring :=
  str "<tr>"
  ++ concat (map (fun c => str "<td>" ++ c ++ str "</td>") cells)
  ++ str "</tr>".

Definition acmeRow : jsstring :=
  tr [str "<strong>" ++ anchor (str "https://acme.co") (str "Acme")
      ++ str "</strong>";
      str "Software Engineer Intern"; str "Remote";
      anchor (str "https://acme.co/apply?utm_source=x") (str "Apply");
      str "Jun 1"].

Definition continuationRow : jsstring :=
  tr [ARROW; str "Data Intern"; str "Boston";
      anchor (str "https://acme.co/data") (str "Apply"); str "Jun 2"].

Definition shortRow : jsstring := tr [str "Bolt"; str "Intern"].

Definition closedRow : jsstring :=
  tr [str "Bolt"; str "Intern"; str "Remote"; LOCK; str "Jun 3"].

Definition bar (cells : list jsstring) : jsstring :=
  str "|" ++ concat (map (fun c => str " " ++ c ++ str " |") cells).

Definition headerLine : jsstring :=
  bar [str "Company"; str "Role"; str "Location"; str "Application/Link";
       str "Date Posted"].

Definition acmeLine : jsstring :=
  bar [str "[Acme](https://acme.co/apply?utm_source=x)";
       str "Software Engineer Intern"; str "Remote";
       str "[Apply](https://acme.co/apply?utm_source=x)"; str "Jun 1"].

Definition continuationLine : jsstring :=
  bar [ARROW; str "Data Intern"; str "Boston";
       str "[Apply](https://acme.co/data)"; str "Jun 2"].

Definition shortLine : jsstring := bar [str "Bolt"; str "Intern"].

Definition closedLine : jsstring :=
  bar [str "Bolt"; str "Intern"; str "Remote"; LOCK; str "Jun 3"].

(** A table with a short row between a posting and its continuation. *)
Definition htmlTable : jsstring :=
  str "<table>" ++ acmeRow ++ [NL] ++ shortRow ++ [NL] ++ continuationRow
  ++ str "</table>".

Definition mdTable : jsstring :=
  join [headerLine; acmeLine; shortLine; continuationLine] [NL].

End Sample.

(** ** Further notions used in the statements *)

Module More.

(** No code unit of [s] is one of [xs]. *)
Definition lacks (xs : list Z) (s : jsstring) : bool :=
  forallb (fun c => negb (existsb (Z.eqb c) xs)) s.

(** The structural form of normalised white space: single spaces only,
    and none at either end (0 is not white space, so the empty string
    qualifies). *)
Definition tidy (s : jsstring) : Prop :=
  Spec.singleSpaced s
  /\ isSpace (hd 0%Z s) = false
  /\ isSpace (last s 0%Z) = false.

(** The date cell of a record, from the fifth cell of a row if any. *)
Definition htmlDateOf (cells : list jsstring) : jsstring :=
  match nth_error cells 4 with
  | Some d => if truthy d then Html.cleanText d else []
  | None => []
  end.

Definition mdDateOf (cells : list jsstring) : jsstring :=
  match nth_error cells 4 with
  | Some d => if truthy d then Md.cleanText d else []
  | None => []
  end.

Definition AMP : Z := ch "&".
Definition BAR : Z := ch "|".

(** The code units that start markup for [cleanText]: a tag or an entity
    in the HTML revision; in the Markdown revision also a link, bold
    text, and the first halves of the decorative glyphs. *)
Definition htmlMarkup : list Z := [Spec.LT; AMP].
Definition mdMarkup : list Z :=
  [Spec.LT; AMP; ch "["; ch "*"; 0xD83D%Z; 0xD83C%Z].

(** The line-break tag that separates the locations of a cell. *)
Definition BR : jsstring := str "</br>".

(** The keywords and locations of the filter in lower case. *)
Definition keywordsLower : list jsstring := [str "software"; str "engineer"].
Definition locationsLower : list jsstring :=
  [str "new york"; str "san francisco"; str "boston"; str "houston";
   str "remote"].

(** [text], lower-cased as ASCII, contains one of [keys]. *)
Definition containsAny (keys : list jsstring) (text : jsstring) : Prop :=
  exists key, In key keys
              /\ Spec.occursIn key (map Filter.lowerAscii text).

(** A Markdown link [[text](url)]. *)
Definition mdLinkCell (text url : jsstring) : jsstring :=
  str "[" ++ text ++ str "](" ++ url ++ str ")".

(** The columns that the writer fills, and sheets with these columns or
    with others. *)
Definition COLUMNS : list jsstring :=
  [str "Company"; str "Role"; str "Location"; str "Application Link";
   str "Date Posted"; str "Source"; str "Date Added"].

Definition sheetWith (headers : list jsstring) (rows : list (list jsstring))
  : Sheets.Sheet :=
  Sheets.mkSheet true headers rows false None.

(** The jobs of an argument of [addToSheet]. *)
Definition jobsOf (jobsArray : option (list JobRecord)) : list JobRecord :=
  match jobsArray with Some jobs => jobs | None => [] end.

End More.

(** * Properties *)

(** ** Strings *)

Lemma eqb_eq (a b : jsstring) : eqb a b = true <-> a = b.
Proof.
  revert b; induction a as [|x a IH]; intros [|y b]; simpl;
    try (split; congruence).
  rewrite andb_true_iff, Z.eqb_eq, IH. split.
  - intros [-> ->]; reflexivity.
  - intros E; injection E; auto.
Qed.

Lemma eqb_refl (a : jsstring) : eqb a a = true.
Proof. apply eqb_eq; reflexivity. Qed.

Lemma eqb_neq (a b : jsstring) : eqb a b = false <-> a <> b.
Proof.
  split.
  - intros E H. apply eqb_eq in H. congruence.
  - intros H. destruct (eqb a b) eqn:E; [apply eqb_eq in E; contradiction|reflexivity].
Qed.

Lemma truthy_nonempty (s : jsstring) : truthy s = true <-> s <> [].
Proof. destruct s; simpl; split; congruence. Qed.

Lemma startsWith_spec (s p : jsstring) :
  startsWith s p = true <-> exists t, s = p ++ t.
Proof.
  revert s; induction p as [|x p IH]; intros s; simpl.
  - split; [intros _; exists s; reflexivity | reflexivity].
  - destruct s as [|y s].
    + split; [discriminate | intros [t H]; discriminate].
    + rewrite andb_true_iff, Z.eqb_eq, IH. split.
      * intros [-> [t ->]]. exists t; reflexivity.
      * intros [t H]. injection H as -> ->. split; [reflexivity | exists t; reflexivity].
Qed.

Lemma includes_spec (s needle : jsstring) :
  includes s needle = true <-> Spec.occursIn needle s.
Proof.
  unfold Spec.occursIn. induction s as [|c s IH].
  - simpl. rewrite orb_false_r, startsWith_spec. split.
    + intros [t H]. exists [], t. exact H.
    + intros [pre [post H]]. destruct pre; [|discriminate].
      exists post. exact H.
  - cbn [includes]. rewrite orb_true_iff, startsWith_spec, IH. split.
    + intros [[t H] | [pre [post H]]].
      * exists [], t. exact H.
      * exists (c :: pre), post. rewrite H. reflexivity.
    + intros [pre [post H]]. destruct pre as [|d pre].
      * left. exists post. exact H.
      * right. injection H as _ H. exists pre, post. exact H.
Qed.

(** ** The sheet writer *)

Section SheetFacts.
Import Sheets Spec.

Lemma has_In (s : list jsstring) (x : jsstring) : has s x = true <-> In x s.
Proof.
  unfold has. rewrite existsb_exists. split.
  - intros [y [Hy E]]. apply eqb_eq in E. subst; exact Hy.
  - intros H. exists x. split; [exact H | apply eqb_refl].
Qed.

Lemma In_add (s : list jsstring) (x y : jsstring) :
  In x (add s y) <-> In x s \/ x = y.
Proof.
  unfold add. destruct (has s y) eqn:E.
  - apply has_In in E. split; [auto | intros [H | ->]; assumption].
  - rewrite in_app_iff. simpl. intuition.
Qed.

Lemma In_collectLinks (existingRows : list Row) (acc : list jsstring)
      (x : jsstring) :
  In x (collectLinks existingRows acc) <->
  In x acc \/ exists row, In row existingRows /\ contributes row x.
Proof.
  revert acc. induction existingRows as [|row rest IH]; intros acc; simpl.
  - split; [auto | intros [H | [row [[] _]]]; exact H].
  - destruct (rowLink row) as [[|c l]|] eqn:E; rewrite IH.
    + split.
      * intros [H | [r [Hr Hc]]]; [auto | right; exists r; auto].
      * intros [H | [r [[<- | Hr] Hc]]]; [auto | | right; exists r; auto].
        destruct Hc as [Hc Hne]. rewrite E in Hc. injection Hc as <-.
        contradiction.
    + rewrite In_add. split.
      * intros [[H | ->] | [r [Hr Hc]]].
        -- auto.
        -- right. exists row. split; [auto|]. split; [exact E | discriminate].
        -- right. exists r. auto.
      * intros [H | [r [[<- | Hr] Hc]]].
        -- auto.
        -- left. right. destruct Hc as [Hc _]. rewrite E in Hc.
           injection Hc as <-. reflexivity.
        -- right. exists r. auto.
    + split.
      * intros [H | [r [Hr Hc]]]; [auto | right; exists r; auto].
      * intros [H | [r [[<- | Hr] Hc]]]; [auto | | right; exists r; auto].
        destruct Hc as [Hc _]. rewrite E in Hc. discriminate.
Qed.

Lemma In_existingLinksOf (existingRows : list Row) (x : jsstring) :
  In x (existingLinksOf existingRows) <->
  exists row, In row existingRows /\ contributes row x.
Proof.
  unfold existingLinksOf. rewrite In_collectLinks. simpl.
  split; [intros [[] | H]; exact H | auto].
Qed.

Lemma get_toRow_link (d : jsstring) (job : JobRecord) :
  get (toRow d job) (str "Application Link") = Some (link job).
Proof. reflexivity. Qed.

Lemma rowLink_toRow (d : jsstring) (job : JobRecord) :
  link job <> [] -> rowLink (toRow d job) = Some (link job).
Proof.
  intros H. unfold rowLink.
  change (get (toRow d job) (str "Application Link")) with (Some (link job)).
  change (get (toRow d job) (str "Link")) with (@None jsstring).
  change (get (toRow d job) (str "link")) with (@None jsstring).
  change (get (toRow d job) (str "URL")) with (@None jsstring).
  change (get (toRow d job) (str "url")) with (@None jsstring).
  destruct (link job); [contradiction | reflexivity].
Qed.

Lemma In_rowsFrom (clock : nat -> jsstring) (jobs : list JobRecord) :
  forall i job, In job jobs ->
  exists d, In (toRow d job) (rowsFrom clock i jobs).
Proof.
  induction jobs as [|j jobs IH]; intros i job; simpl; [intros []|].
  intros [-> | H].
  - exists (isoDate (clock i)). left; reflexivity.
  - destruct (IH (S i) job H) as [d Hd]. exists d. right; exact Hd.
Qed.

Lemma length_rowsFrom (clock : nat -> jsstring) (jobs : list JobRecord) :
  forall i, length (rowsFrom clock i jobs) = length jobs.
Proof. induction jobs; intros i; simpl; [|rewrite IHjobs]; reflexivity. Qed.

Lemma nth_rowsFrom (clock : nat -> jsstring) (jobs : list JobRecord) :
  forall i n job, nth_error jobs n = Some job ->
  nth_error (rowsFrom clock i jobs) n
  = Some (toRow (isoDate (clock (i + n))) job).
Proof.
  induction jobs as [|j jobs IH]; intros i [|n] job; simpl;
    try discriminate.
  - intros [= ->]. rewrite Nat.add_0_r. reflexivity.
  - intros H. rewrite (IH (S i) n job H).
    replace (S i + n) with (i + S n) by lia. reflexivity.
Qed.

Lemma filter_all (A : Type) (p : A -> bool) (l : list A) :
  (forall x, In x l -> p x = true) -> filter p l = l.
Proof.
  induction l as [|a l IH]; simpl; intros H; [reflexivity|].
  rewrite (H a (or_introl eq_refl)), IH; auto.
Qed.

Lemma filter_none (A : Type) (p : A -> bool) (l : list A) :
  (forall x, In x l -> p x = false) -> filter p l = [].
Proof.
  induction l as [|a l IH]; simpl; intros H; [reflexivity|].
  rewrite (H a (or_introl eq_refl)), IH; auto.
Qed.

Lemma has_false_iff (s : list jsstring) (x : jsstring) :
  has s x = false <-> ~ In x s.
Proof.
  rewrite <- has_In. destruct (has s x); split; congruence.
Qed.

(** The batch rows whose link cell is [x] are as many as the jobs whose
    link is [x]. *)
Lemma count_rowsFrom (clock : nat -> jsstring) (x : jsstring)
      (jobs : list JobRecord) :
  forall i,
  length (filter (fun row => match get row (str "Application Link") with
                             | Some v => eqb v x
                             | None => false
                             end) (rowsFrom clock i jobs))
  = length (filter (fun job => eqb (link job) x) jobs).
Proof.
  induction jobs as [|j jobs IH]; intros i; simpl; [reflexivity|].
  change (get (toRow (isoDate (clock i)) j) (str "Application Link"))
    with (Some (link j)).
  destruct (eqb (link j) x); simpl; rewrite IH; reflexivity.
Qed.

(** What is written under a header is read back under it, when it is
    not empty. *)
Lemma get_rowOf_cellsFor (headers : list jsstring) (row : Row)
      (key v : jsstring) :
  In key headers -> get row key = Some v -> v <> [] ->
  get (rowOf headers (cellsFor headers row)) key = Some v.
Proof.
  intros Hin Hget Hv. unfold rowOf, cellsFor.
  set (g := fun h => match get row h with Some v => v | None => [] end).
  assert (Hg : g key = v) by (unfold g; rewrite Hget; reflexivity).
  induction headers as [|h t IH]; [destruct Hin|].
  cbn [map dropTrailingEmpty].
  destruct (eqb h key) eqn:E.
  - apply eqb_eq in E. subst h. rewrite Hg.
    destruct (dropTrailingEmpty (map g t)).
    + destruct v; [contradiction|]. cbn [truthy combine get].
      rewrite eqb_refl. reflexivity.
    + cbn [combine get]. rewrite eqb_refl. reflexivity.
  - destruct Hin as [-> | Hin]; [rewrite eqb_refl in E; discriminate|].
    specialize (IH Hin).
    destruct (dropTrailingEmpty (map g t)) as [|d D].
    + destruct t; discriminate.
    + cbn [combine get]. rewrite E. exact IH.
Qed.

Lemma rowLink_written (headers : list jsstring) (d : jsstring)
      (job : JobRecord) :
  In (str "Application Link") headers -> link job <> [] ->
  rowLink (rowOf headers (cellsFor headers (toRow d job))) = Some (link job).
Proof.
  intros Hin Hl. unfold rowLink.
  rewrite (@get_rowOf_cellsFor headers (toRow d job)
             (str "Application Link") (link job) Hin eq_refl Hl).
  destruct (link job); [contradiction | reflexivity].
Qed.

Lemma existingLinksOf_app (xs ys : list Row) (x : jsstring) :
  In x (existingLinksOf (xs ++ ys))
  <-> In x (existingLinksOf xs) \/ In x (existingLinksOf ys).
Proof.
  rewrite !In_existingLinksOf. split.
  - intros [row [Hin Hc]]. apply in_app_or in Hin.
    destruct Hin as [Hin | Hin]; [left | right]; exists row; auto.
  - intros [[row [Hin Hc]] | [row [Hin Hc]]]; exists row;
      (split; [apply in_or_app; auto | exact Hc]).
Qed.

(** Reading the sheet after an append. *)
Lemma getRows_appended (sheet : Sheet) (written : list (list jsstring))
      (existingRows : list Row) :
  getRows sheet = Some existingRows ->
  getRows (mkSheet (reachable sheet) (headerRow sheet) (rows sheet ++ written)
                   (readFails sheet) (writeFails sheet))
  = Some (existingRows ++ map (rowOf (headerValues sheet)) written).
Proof.
  unfold getRows, headerValues. cbn [readFails headerRow rows].
  destruct (readFails sheet); [discriminate|].
  destruct (headerRowOk (map trim (headerRow sheet))); [|discriminate].
  intros [= <-]. rewrite map_app. reflexivity.
Qed.

(** The calls of [addToSheet] and their outcomes, case by case. *)
Lemma addToSheet_cases (clock : nat -> jsstring) (jobs : list JobRecord)
      (sheet : Sheet) :
  jobs <> [] ->
  (reachable sheet = false
   /\ addToSheet clock (Some jobs) sheet = (Thrown, sheet, [LoadInfo]))
  \/ (reachable sheet = true /\ getRows sheet = None
      /\ addToSheet clock (Some jobs) sheet
         = (Thrown, sheet, [LoadInfo; GetRows]))
  \/ (exists existingRows,
        reachable sheet = true /\ getRows sheet = Some existingRows
        /\ let fresh :=
             filter (fun job => negb (has (existingLinksOf existingRows)
                                          (link job))) jobs in
           (fresh = []
            /\ addToSheet clock (Some jobs) sheet
               = (Returned 0 (length jobs), sheet, [LoadInfo; GetRows]))
           \/ (fresh <> []
               /\ addToSheet clock (Some jobs) sheet
                  = (match writeFails sheet with
                     | None => Returned (length fresh)
                                        (length jobs - length fresh)
                     | Some _ => Thrown
                     end,
                     snd (addRows (rowsFrom clock 0 fresh) sheet),
                     [LoadInfo; GetRows; AddRows (rowsFrom clock 0 fresh)]))).
Proof.
  intros Hne. destruct jobs as [|j0 jobs0]; [contradiction|].
  set (jobs := j0 :: jobs0). unfold addToSheet. fold jobs.
  destruct (reachable sheet); cbn [negb]; [|left; split; reflexivity].
  right. destruct (getRows sheet) as [existingRows|];
    [|left; repeat split; reflexivity].
  right. exists existingRows. split; [reflexivity|]. split; [reflexivity|].
  cbv zeta.
  destruct (filter (fun job => negb (has (existingLinksOf existingRows)
                                         (link job))) jobs) as [|f fs] eqn:F.
  - left. split; [reflexivity|]. cbn [length Nat.eqb].
    rewrite Nat.sub_0_r. reflexivity.
  - right. split; [discriminate|]. cbn [length Nat.eqb].
    unfold addRows. destruct (writeFails sheet); reflexivity.
Qed.

End SheetFacts.

Section SheetClaims.
Import Sheets Spec More.

Lemma rowLink_firstAliasNonEmpty (row : Row) :
  match firstAliasNonEmpty row with
  | Some v => rowLink row = Some v /\ v <> []
  | None => rowLink row = None \/ rowLink row = Some []
  end.
Proof.
  unfold firstAliasNonEmpty, rowLink, ALIASES. cbn [firstNonEmpty].
  destruct (get row (str "Application Link")) as [[|? ?]|];
  destruct (get row (str "Link")) as [[|? ?]|];
  destruct (get row (str "link")) as [[|? ?]|];
  destruct (get row (str "URL")) as [[|? ?]|];
  destruct (get row (str "url")) as [[|? ?]|]; simpl;
    try (split; [reflexivity | discriminate]); auto.
Qed.

Lemma contributes_firstAliasNonEmpty (row : Row) (x : jsstring) :
  contributes row x <-> firstAliasNonEmpty row = Some x.
Proof.
  unfold contributes. pose proof (rowLink_firstAliasNonEmpty row) as H.
  destruct (firstAliasNonEmpty row) as [v|].
  - destruct H as [H Hne]. rewrite H. split.
    + intros [E _]. exact E.
    + intros [= <-]. auto.
  - split; [|discriminate].
    intros [E Hne]. destruct H as [H | H]; rewrite H in E;
      [discriminate | injection E as <-; contradiction].
Qed.

(** C9: with no jobs (an empty array, or no array at all) the writer
    returns [{added: 0, duplicates: 0}] at once: it makes no call to the
    spreadsheet service, neither a read nor a write, and the sheet is
    left as it was, whether or not the service could be reached. *)
Theorem C9_empty_input_touches_nothing :
  forall (clock : nat -> jsstring) (sheet : Sheet),
    addToSheet clock (Some []) sheet = (Returned 0 0, sheet, [])
    /\ addToSheet clock None sheet = (Returned 0 0, sheet, []).
Proof. intros clock sheet. split; reflexivity. Qed.

(** C10: the writer does not deduplicate inside a batch.  When the
    service is reached, the existing rows are read and the append is
    accepted, the jobs appended are exactly the input jobs whose link is
    not among the existing links, in order and with repetitions, one row
    each: they are the rows passed to [addRows] in the one call made,
    and the sheet receives one row of cells for each; [added] is their
    number; and for a link absent from the existing links the batch
    holds as many rows with that link as the input holds jobs with
    it. *)
Theorem C10_no_dedup_within_batch :
  forall (clock : nat -> jsstring) (jobs : list JobRecord) (sheet : Sheet)
         (existingRows : list Row),
    reachable sheet = true ->
    getRows sheet = Some existingRows ->
    writeFails sheet = None ->
    let existing := existingLinksOf existingRows in
    let fresh := filter (fun job => negb (has existing (link job))) jobs in
    let '(out, sheet', calls) := addToSheet clock (Some jobs) sheet in
    out = Returned (length fresh) (length jobs - length fresh)
    /\ (fresh <> [] ->
        calls = [LoadInfo; GetRows; AddRows (rowsFrom clock 0 fresh)])
    /\ rows sheet'
       = rows sheet
         ++ map (cellsFor (headerValues sheet)) (rowsFrom clock 0 fresh)
    /\ length (rowsFrom clock 0 fresh) = length fresh
    /\ (forall n job, nth_error fresh n = Some job ->
        exists row, nth_error (rowsFrom clock 0 fresh) n = Some row
                    /\ get row (str "Application Link") = Some (link job)
                    /\ get row (str "Company") = Some (company job)
                    /\ get row (str "Role") = Some (role job))
    /\ (forall x, has existing x = false ->
        length (filter (fun row =>
                          match get row (str "Application Link") with
                          | Some v => eqb v x
                          | None => false
                          end) (rowsFrom clock 0 fresh))
        = length (filter (fun job => eqb (link job) x) jobs)).
Proof.
  intros clock jobs sheet existingRows Hr Hg Hw existing fresh.
  assert (Hcount : forall x, has existing x = false ->
            length (filter (fun job => eqb (link job) x) fresh)
            = length (filter (fun job => eqb (link job) x) jobs)).
  { intros x Hx. unfold fresh. clear Hr Hg Hw.
    induction jobs as [|j jobs IH]; [reflexivity|]. simpl.
    destruct (eqb (link j) x) eqn:E.
    - apply eqb_eq in E. rewrite E, Hx. simpl.
      rewrite E, eqb_refl. simpl. f_equal. exact IH.
    - destruct (has existing (link j)); simpl; [exact IH|].
      rewrite E. exact IH. }
  assert (Hrows : forall n job, nth_error fresh n = Some job ->
            exists row, nth_error (rowsFrom clock 0 fresh) n = Some row
                    /\ get row (str "Application Link") = Some (link job)
                    /\ get row (str "Company") = Some (company job)
                    /\ get row (str "Role") = Some (role job)).
  { intros n job H. eexists. split; [apply nth_rowsFrom; exact H|].
    repeat split. }
  assert (Htail : length (rowsFrom clock 0 fresh) = length fresh
                  /\ (forall n job, nth_error fresh n = Some job ->
                      exists row,
                        nth_error (rowsFrom clock 0 fresh) n = Some row
                        /\ get row (str "Application Link") = Some (link job)
                        /\ get row (str "Company") = Some (company job)
                        /\ get row (str "Role") = Some (role job))
                  /\ (forall x, has existing x = false ->
                      length (filter (fun row =>
                                match get row (str "Application Link") with
                                | Some v => eqb v x
                                | None => false
                                end) (rowsFrom clock 0 fresh))
                      = length (filter (fun job => eqb (link job) x) jobs))).
  { split; [apply length_rowsFrom|]. split; [exact Hrows|].
    intros x Hx. rewrite count_rowsFrom. apply Hcount. exact Hx. }
  destruct jobs as [|j0 jobs0].
  - cbn [addToSheet]. split; [reflexivity|]. split; [intros H; contradiction H; reflexivity|].
    split; [|exact Htail]. cbn [fresh filter rowsFrom map].
    rewrite app_nil_r. reflexivity.
  - set (jobs := j0 :: jobs0) in *.
    destruct (@addToSheet_cases clock jobs sheet ltac:(discriminate))
      as [[C _] | [[_ [C _]] | [rows0 [_ [G C]]]]];
      [congruence | congruence |].
    rewrite Hg in G. injection G as <-. cbv zeta in C.
    fold existing in C. fold fresh in C.
    destruct C as [[F E] | [F E]]; rewrite E.
    + split; [rewrite F; cbn [length]; rewrite Nat.sub_0_r; reflexivity|].
      split; [intros H; contradiction|].
      split; [|exact Htail]. rewrite F. cbn [rowsFrom map].
      rewrite app_nil_r. reflexivity.
    + rewrite Hw. split; [reflexivity|]. split; [reflexivity|].
      split; [|exact Htail]. unfold addRows. rewrite Hw. reflexivity.
Qed.

Lemma C10_witness :
  let a := mkJob (str "Acme") (str "Intern") (str "Remote")
                 (str "https://acme.co/a") [] (str "GitHub") in
  let '(out, sheet', calls) :=
    addToSheet noon (Some [a; a]) (sheetWith COLUMNS []) in
  out = Returned 2 0
  /\ calls = [LoadInfo; GetRows; AddRows (rowsFrom noon 0 [a; a])]
  /\ length (rows sheet') = 2.
Proof.
  intros a.
  pose proof (@C10_no_dedup_within_batch noon [a; a] (sheetWith COLUMNS [])
                [] eq_refl eq_refl eq_refl) as H.
  cbv zeta in H.
  destruct (addToSheet noon (Some [a; a]) (sheetWith COLUMNS []))
    as [[out s] c].
  destruct H as [H1 [H2 [H3 _]]]. split; [|split].
  - rewrite H1. reflexivity.
  - apply H2. discriminate.
  - rewrite H3. reflexivity.
Defined.

(** C7, as the specification states it, fails: a row whose
    ["Application Link"] cell is empty and whose ["Link"] cell is not
    yields the ["Link"] value, not the empty value of the first alias
    present, and that value enters the set of existing links. *)
Lemma C7_counterexample :
  let row := [(str "Application Link", []);
              (str "Link", str "https://acme.co/a")] in
  firstAliasPresent row = Some []
  /\ rowLink row = Some (str "https://acme.co/a")
  /\ rowLink row <> firstAliasPresent row
  /\ existingLinksOf [row] = [str "https://acme.co/a"].
Proof.
  cbv zeta. repeat split; try reflexivity.
  vm_compute. discriminate.
Qed.

(** C7, amended: the link of an existing row used for deduplication is
    the value under the first of the aliases ["Application Link"],
    ["Link"], ["link"], ["URL"], ["url"], in that order, whose cell is a
    non-empty string; a link is in the set of existing links exactly
    when some existing row yields it so, and a row with no such cell
    adds nothing to the set. *)
Theorem C7_existing_link_aliases :
  forall (existingRows : list Row) (x : jsstring),
    (In x (existingLinksOf existingRows) <->
     exists row, In row existingRows /\ firstAliasNonEmpty row = Some x)
    /\ (forall row,
          firstAliasNonEmpty row = Some x ->
          rowLink row = Some x /\ x <> [])
    /\ (forall row,
          firstAliasNonEmpty row = None ->
          (rowLink row = None \/ rowLink row = Some [])
          /\ existingLinksOf (existingRows ++ [row])
             = existingLinksOf existingRows).
Proof.
  intros existingRows x. split; [|split].
  - rewrite In_existingLinksOf. split; intros [row [Hin H]]; exists row;
      (split; [exact Hin | apply contributes_firstAliasNonEmpty; exact H]).
  - intros row H. pose proof (rowLink_firstAliasNonEmpty row) as R.
    rewrite H in R. exact R.
  - intros row H. pose proof (rowLink_firstAliasNonEmpty row) as R.
    rewrite H in R. split; [exact R|].
    unfold existingLinksOf. generalize (@nil jsstring).
    induction existingRows as [|r rest IH]; intros acc; simpl.
    + destruct R as [-> | ->]; reflexivity.
    + destruct (rowLink r) as [[|c l]|]; apply IH.
Qed.

Lemma C7_witness :
  let row := [(str "Application Link", []);
              (str "Link", str "https://acme.co/a")] in
  rowLink row = Some (str "https://acme.co/a")
  /\ str "https://acme.co/a" <> [].
Proof.
  intros row.
  exact (proj1 (proj2 (@C7_existing_link_aliases [row]
                         (str "https://acme.co/a"))) row eq_refl).
Defined.

(** C6, as the specification states it, fails on a sheet whose link
    column is one of the other names that the writer reads, here
    ["Link"]: the writer fills the column ["Application Link"] only, so
    the link of the appended row is not kept, and the second call
    appends the job again. *)
Lemma C6_counterexample :
  let jobs := [mkJob (str "Acme") (str "Intern") (str "Remote")
                     (str "https://acme.co/a") (str "Jun 1")
                     (str "GitHub")] in
  let sheet := sheetWith [str "Company"; str "Link"] [] in
  let '(out1, sheet1, _) := addToSheet noon (Some jobs) sheet in
  let '(out2, _, _) := addToSheet noon (Some jobs) sheet1 in
  getRows sheet = Some []
  /\ (forall job, In job jobs ->
        has (existingLinksOf []) (link job) = false)
  /\ out1 = Returned 1 0
  /\ rows sheet1 = [[str "Acme"; []]]
  /\ out2 = Returned 1 0
  /\ out2 <> Returned 0 1.
Proof.
  cbv zeta. vm_compute. repeat split; try discriminate.
Qed.

(** C6, amended: the writer is idempotent on [link] on a sheet that has
    the column it fills.  When the header row of the sheet has an
    ["Application Link"] column, the service is reached, the rows are
    read and the append is accepted, then for a non-empty list of jobs
    whose links are not empty and not among the existing links, the
    first call returns [added = N] (and no duplicates), and a second
    call with the same list on the sheet so extended returns
    [added = 0], [duplicates = N], makes no [addRows] call and leaves
    the sheet as it is. *)
Theorem C6_idempotent_on_link :
  forall (clock1 clock2 : nat -> jsstring) (jobs : list JobRecord)
         (sheet : Sheet) (existingRows : list Row),
    jobs <> [] ->
    reachable sheet = true ->
    getRows sheet = Some existingRows ->
    writeFails sheet = None ->
    In (str "Application Link") (headerValues sheet) ->
    (forall job, In job jobs -> link job <> []) ->
    (forall job, In job jobs ->
       has (existingLinksOf existingRows) (link job) = false) ->
    let '(out1, sheet1, _) := addToSheet clock1 (Some jobs) sheet in
    let '(out2, sheet2, calls2) := addToSheet clock2 (Some jobs) sheet1 in
    out1 = Returned (length jobs) 0
    /\ out2 = Returned 0 (length jobs)
    /\ sheet2 = sheet1
    /\ calls2 = [LoadInfo; GetRows].
Proof.
  intros clock1 clock2 jobs sheet existingRows Hne Hr Hg Hw Hcol Hlinks
         Habsent.
  assert (F1 : filter (fun job => negb (has (existingLinksOf existingRows)
                                            (link job))) jobs = jobs).
  { apply filter_all. intros job Hj. rewrite (Habsent job Hj). reflexivity. }
  set (written := map (cellsFor (headerValues sheet))
                      (rowsFrom clock1 0 jobs)).
  set (sheet1 := mkSheet (reachable sheet) (headerRow sheet)
                         (rows sheet ++ written) (readFails sheet)
                         (writeFails sheet)).
  assert (G1 : getRows sheet1
               = Some (existingRows
                       ++ map (rowOf (headerValues sheet)) written)).
  { apply getRows_appended. exact Hg. }
  assert (F2 : filter (fun job =>
                 negb (has (existingLinksOf
                              (existingRows
                               ++ map (rowOf (headerValues sheet)) written))
                           (link job))) jobs = []).
  { apply filter_none. intros job Hj.
    assert (H : has (existingLinksOf
                       (existingRows
                        ++ map (rowOf (headerValues sheet)) written))
                    (link job) = true).
    { apply has_In. apply existingLinksOf_app. right.
      apply In_existingLinksOf.
      destruct (In_rowsFrom clock1 jobs 0 job Hj) as [d Hd].
      exists (rowOf (headerValues sheet)
                    (cellsFor (headerValues sheet) (toRow d job))).
      split.
      - unfold written. rewrite map_map.
        apply (in_map (fun r => rowOf (headerValues sheet)
                                  (cellsFor (headerValues sheet) r))).
        exact Hd.
      - split; [apply rowLink_written; [exact Hcol|]|]; apply Hlinks;
          exact Hj. }
    rewrite H. reflexivity. }
  assert (E1 : addToSheet clock1 (Some jobs) sheet
               = (Returned (length jobs) 0, sheet1,
                  [LoadInfo; GetRows; AddRows (rowsFrom clock1 0 jobs)])).
  { destruct (@addToSheet_cases clock1 jobs sheet Hne)
      as [[C _] | [[_ [C _]] | [rows0 [_ [G C]]]]];
      [congruence | congruence |].
    rewrite Hg in G. injection G as <-. cbv zeta in C. rewrite F1 in C.
    destruct C as [[F _] | [_ E]]; [contradiction|].
    rewrite E. unfold addRows, sheet1. rewrite Hw, Nat.sub_diag.
    reflexivity. }
  assert (E2 : addToSheet clock2 (Some jobs) sheet1
               = (Returned 0 (length jobs), sheet1, [LoadInfo; GetRows])).
  { destruct (@addToSheet_cases clock2 jobs sheet1 Hne)
      as [[C _] | [[_ [C _]] | [rows0 [_ [G C]]]]].
    - cbn [sheet1 reachable] in C. congruence.
    - congruence.
    - rewrite G1 in G. injection G as <-. cbv zeta in C. rewrite F2 in C.
      destruct C as [[_ E] | [F _]]; [exact E | contradiction F; reflexivity]. }
  rewrite E1, E2. repeat split.
Qed.

Lemma C6_witness :
  let jobs := [mkJob (str "Acme") (str "Intern") (str "Remote")
                     (str "https://acme.co/a") (str "Jun 1")
                     (str "GitHub")] in
  let '(out1, sheet1, _) :=
    addToSheet noon (Some jobs) (sheetWith COLUMNS []) in
  let '(out2, sheet2, calls2) := addToSheet noon (Some jobs) sheet1 in
  out1 = Returned 1 0 /\ out2 = Returned 0 1 /\ sheet2 = sheet1
  /\ calls2 = [LoadInfo; GetRows].
Proof.
  intros jobs.
  apply (@C6_idempotent_on_link noon noon jobs (sheetWith COLUMNS []) []).
  - discriminate.
  - reflexivity.
  - reflexivity.
  - reflexivity.
  - vm_compute. tauto.
  - intros job [<- | []]. discriminate.
  - intros job [<- | []]. reflexivity.
Defined.

End SheetClaims.

(** ** The filter *)

Lemma filter_subsequence (A : Type) (p : A -> bool) (l : list A) :
  Spec.subsequence (filter p l) l.
Proof.
  induction l as [|x l IH]; simpl; [constructor|].
  destruct (p x); constructor; exact IH.
Qed.

Lemma filter_split (A : Type) (p : A -> bool) (a b : list A) (x : A) :
  filter p (a ++ x :: b)
  = filter p a ++ (if p x then [x] else []) ++ filter p b.
Proof.
  rewrite filter_app. simpl. destruct (p x); reflexivity.
Qed.

Section FilterClaims.
Import Filter Spec.

Variable toLowerCase : jsstring -> jsstring.
Hypothesis toLowerCase_ascii :
  forall s, forallb isAscii s = true -> toLowerCase s = map lowerAscii s.

Lemma existsb_matchesAny (keys : list jsstring) (text : jsstring) :
  existsb (fun key => includes (toLowerCase text) (toLowerCase key)) keys
  = true
  <-> matchesAny toLowerCase keys text.
Proof.
  unfold matchesAny. rewrite existsb_exists.
  split; intros [key [Hin H]]; exists key; (split; [exact Hin|]);
    apply includes_spec; exact H.
Qed.

Lemma passes_iff (r : JobRecord) :
  roleMatches toLowerCase r && locationMatches toLowerCase r = true
  <-> passes toLowerCase r.
Proof.
  unfold passes, roleMatches, locationMatches.
  rewrite andb_true_iff, !existsb_matchesAny. reflexivity.
Qed.

(** C5: the filter returns the records that pass, in their order: the
    result is a subsequence of the input; a record at any place of the
    input is kept when, letter case set aside, its role contains one of
    the keywords and its location one of the allowed locations, and is
    dropped otherwise, the records before and after being filtered the
    same way; and a record with role "SOFTWARE ENGINEER" and location
    "remote" passes. *)
Theorem C5_filter_by_role_and_location :
  forall internships : list JobRecord,
    subsequence (filterInternships toLowerCase internships) internships
    /\ (forall before r after,
          internships = before ++ r :: after ->
          (passes toLowerCase r ->
           filterInternships toLowerCase internships
           = filterInternships toLowerCase before
             ++ r :: filterInternships toLowerCase after)
          /\ (~ passes toLowerCase r ->
              filterInternships toLowerCase internships
              = filterInternships toLowerCase before
                ++ filterInternships toLowerCase after))
    /\ (forall r,
          In r (filterInternships toLowerCase internships)
          <-> In r internships /\ passes toLowerCase r)
    /\ (forall r,
          role r = str "SOFTWARE ENGINEER" ->
          location r = str "remote" ->
          passes toLowerCase r /\ filterInternships toLowerCase [r] = [r]).
Proof.
  intros internships. split; [|split; [|split]].
  - apply filter_subsequence.
  - intros before r after ->. unfold filterInternships.
    rewrite filter_split. split; intros H.
    + apply passes_iff in H. rewrite H. reflexivity.
    + destruct (roleMatches toLowerCase r && locationMatches toLowerCase r)
        eqn:E; [apply passes_iff in E; contradiction | reflexivity].
  - intros r. unfold filterInternships. rewrite filter_In, passes_iff.
    reflexivity.
  - intros r Hrole Hloc.
    assert (P : roleMatches toLowerCase r && locationMatches toLowerCase r
                = true).
    { unfold roleMatches, locationMatches, ROLE_KEYWORDS, ALLOWED_LOCATIONS.
      rewrite Hrole, Hloc. cbn [existsb].
      rewrite !toLowerCase_ascii by reflexivity. vm_compute. reflexivity. }
    split; [apply passes_iff; exact P|].
    unfold filterInternships. cbn [filter]. rewrite P. reflexivity.
Qed.

End FilterClaims.

Lemma C5_witness :
  let r := mkJob (str "Acme") (str "SOFTWARE ENGINEER") (str "remote")
                 (str "https://acme.co/a") (str "Jun 1") (str "GitHub") in
  Filter.filterInternships (map Filter.lowerAscii) [r] = [r].
Proof.
  intros r.
  exact (proj2 (proj2 (proj2 (proj2
           (@C5_filter_by_role_and_location (map Filter.lowerAscii)
              (fun s _ => eq_refl) [r])))
           r eq_refl eq_refl)).
Defined.

(** ** The row loop of the HTML revision *)

Section HtmlLoop.
Import Html Spec.

Lemma ltb_leb_4 (n : nat) : (n <? 4) = negb (4 <=? n).
Proof.
  destruct (Nat.ltb_spec n 4), (Nat.leb_spec 4 n); try reflexivity; lia.
Qed.

Lemma processRow_snd (row lastCompany : jsstring) :
  snd (processRow row lastCompany)
  = if htmlIsDataRow row
    then if isContinuation (htmlCompanyOf row)
         then lastCompany else htmlCompanyOf row
    else lastCompany.
Proof.
  unfold processRow, htmlIsDataRow, htmlCompanyOf, isContinuation.
  destruct (includes row (str "<th>")); [reflexivity|].
  rewrite ltb_leb_4. cbn [negb andb].
  destruct (4 <=? length (cellsOf row)); [|reflexivity].
  cbn [negb]. cbv zeta.
  match goal with |- snd (if ?g then _ else _) = _ => destruct g end;
    reflexivity.
Qed.

Lemma processRow_skipped (row lastCompany : jsstring) :
  htmlIsDataRow row = false -> processRow row lastCompany = (None, lastCompany).
Proof.
  unfold processRow, htmlIsDataRow.
  destruct (includes row (str "<th>")); [reflexivity|].
  rewrite ltb_leb_4. cbn [negb andb]. intros ->. reflexivity.
Qed.

Lemma processRow_pushed (row lastCompany : jsstring) (r : JobRecord) :
  fst (processRow row lastCompany) = Some r ->
  htmlIsDataRow row = true
  /\ company r = (if isContinuation (htmlCompanyOf row)
                  then lastCompany else htmlCompanyOf row)
  /\ role r = cleanText (nth 1 (cellsOf row) [])
  /\ link r = extractApplicationLink (nth 3 (cellsOf row) [])
  /\ truthy (company r) = true /\ truthy (role r) = true
  /\ truthy (link r) = true /\ eqb (link r) LOCK = false.
Proof.
  unfold processRow, htmlIsDataRow, htmlCompanyOf, isContinuation.
  destruct (includes row (str "<th>")); [discriminate|].
  rewrite ltb_leb_4. cbn [negb andb].
  destruct (4 <=? length (cellsOf row)); [|discriminate].
  cbn [negb]. cbv zeta.
  match goal with |- fst (if ?g then _ else _) = _ -> _ =>
    destruct g eqn:G end; [discriminate|].
  cbn [fst]. intros [= <-]. cbn [company role link].
  apply orb_false_elim in G. destruct G as [G G4].
  apply orb_false_elim in G. destruct G as [G G3].
  apply orb_false_elim in G. destruct G as [G1 G2].
  apply negb_false_iff in G1, G2, G3.
  repeat split; assumption.
Qed.


Lemma rowsLoop_app (pre post : list jsstring) :
  forall lastCompany,
    rowsLoop (pre ++ post) lastCompany
    = rowsLoop pre lastCompany
      ++ rowsLoop post (htmlLastCompany pre lastCompany).
Proof.
  induction pre as [|row pre IH]; intros lastCompany; [reflexivity|].
  cbn [app rowsLoop htmlLastCompany].
  destruct (processRow row lastCompany) as [pushed lastCompany'].
  cbn [snd]. rewrite IH, app_assoc. reflexivity.
Qed.

Lemma rowsLoop_In (rows : list jsstring) (r : JobRecord) :
  forall lastCompany,
    In r (rowsLoop rows lastCompany) ->
    exists row lastCompany',
      In row rows /\ fst (processRow row lastCompany') = Some r.
Proof.
  induction rows as [|row rows IH]; intros lastCompany; [intros []|].
  cbn [rowsLoop].
  destruct (processRow row lastCompany) as [pushed lastCompany'] eqn:E.
  rewrite in_app_iff. intros [H | H].
  - destruct pushed as [j|]; [|destruct H].
    destruct H as [<- | []]. exists row, lastCompany.
    rewrite E. split; [left|]; reflexivity.
  - destruct (IH _ H) as [row' [l' [Hin Hp]]].
    exists row', l'. split; [right|]; assumption.
Qed.



End HtmlLoop.

(** ** The line loop of the Markdown revision *)

Section MdLoop.
Import Md Spec.

Lemma processLine_classify (inTable : bool) (lastCompany line : jsstring) :
  match mdClassify inTable line with
  | Header => processLine inTable lastCompany line
              = Continue true lastCompany None
  | Skipped => processLine inTable lastCompany line
               = Continue inTable lastCompany None
  | TableEnd => processLine inTable lastCompany line = Break
  | Posting cells =>
      cells = cellsOf line /\ 4 <= length cells /\
      exists pushed,
        processLine inTable lastCompany line
        = Continue inTable
            (if isContinuation (mdCompanyOf cells)
             then lastCompany else mdCompanyOf cells) pushed
        /\ forall r, pushed = Some r ->
             company r = (if isContinuation (mdCompanyOf cells)
                          then lastCompany else mdCompanyOf cells)
             /\ role r = cleanText (nth 1 cells [])
             /\ link r = extractApplicationLink (nth 3 cells [])
             /\ truthy (company r) = true /\ truthy (role r) = true
             /\ truthy (link r) = true /\ eqb (link r) LOCK = false
             /\ includes (nth 3 cells []) LOCK = false
  end.
Proof.
  unfold mdClassify, processLine, mdIsHeader, mdCompanyOf, isContinuation.
  destruct (includes line (str "| Company") && includes line (str "| Role"));
    [reflexivity|].
  destruct (isSome (exec separatorRegex line)); [reflexivity|].
  destruct (inTable && negb (startsWith line (str "|"))); [reflexivity|].
  destruct (negb inTable || negb (startsWith line (str "|")));
    [reflexivity|].
  destruct (length (cellsOf line) <? 4) eqn:L; [reflexivity|].
  apply Nat.ltb_ge in L. split; [reflexivity|]. split; [exact L|].
  cbv zeta.
  match goal with |- exists p, (if ?g then _ else _) = _ /\ _ =>
    destruct g eqn:G end.
  - exists None. split; [reflexivity|]. discriminate.
  - eexists. split; [reflexivity|]. intros r [= <-].
    cbn [company role link].
    apply orb_false_elim in G. destruct G as [G G5].
    apply orb_false_elim in G. destruct G as [G G4].
    apply orb_false_elim in G. destruct G as [G G3].
    apply orb_false_elim in G. destruct G as [G1 G2].
    apply negb_false_iff in G1, G2, G3.
    repeat split; assumption.
Qed.


Lemma linesLoop_app (pre post : list jsstring) :
  forall inTable lastCompany,
    linesLoop (pre ++ post) inTable lastCompany
    = linesLoop pre inTable lastCompany
      ++ match mdStateAfter pre inTable lastCompany with
         | Some (inTable', lastCompany') =>
             linesLoop post inTable' lastCompany'
         | None => []
         end.
Proof.
  induction pre as [|line pre IH]; intros inTable lastCompany;
    [reflexivity|].
  cbn [app linesLoop mdStateAfter].
  destruct (processLine inTable lastCompany line) as [it' l' pushed|];
    [|reflexivity].
  rewrite IH, app_assoc. reflexivity.
Qed.

Lemma linesLoop_In (lines : list jsstring) (r : JobRecord) :
  forall inTable lastCompany,
    In r (linesLoop lines inTable lastCompany) ->
    exists line inTable' lastCompany',
      In line lines
      /\ pushedOf (processLine inTable' lastCompany' line) = Some r.
Proof.
  induction lines as [|line lines IH]; intros inTable lastCompany;
    [intros []|].
  cbn [linesLoop].
  destruct (processLine inTable lastCompany line) as [it' l' pushed|] eqn:E;
    [|intros []].
  rewrite in_app_iff. intros [H | H].
  - destruct pushed as [j|]; [|destruct H].
    destruct H as [<- | []]. exists line, inTable, lastCompany.
    rewrite E. split; [left|]; reflexivity.
  - destruct (IH _ _ H) as [line' [it'' [l'' [Hin Hp]]]].
    exists line', it'', l''. split; [right|]; assumption.
Qed.


End MdLoop.

(** ** Claims about the table parser *)

Section ParserClaims.
Import Spec.

(** C8: a table row with fewer than four cells is skipped and the rows
    after it are parsed as if it were not there.  HTML revision: the
    turn of the loop pushes nothing and leaves [lastCompany] as it was,
    and the records of the whole list of rows are those of the list
    without the short row.  Markdown revision, for a line that begins
    with a bar: the turn pushes nothing, does not leave the loop and
    keeps [lastCompany] ([inTable] is only set when the line is the
    header line); when it is not the header line, the records of the
    whole list of lines are those of the list without it.  In
    particular the result of [parseMarkdownTable] on a document is the
    result for its rows (lines) without the short one. *)
Theorem C8_short_rows_skipped :
  (forall row lastCompany pre post,
      length (Html.cellsOf row) < 4 ->
      Html.processRow row lastCompany = (None, lastCompany)
      /\ Html.rowsLoop (pre ++ row :: post) lastCompany
         = Html.rowsLoop (pre ++ post) lastCompany)
  /\ (forall line inTable lastCompany pre post,
        startsWith line (str "|") = true ->
        length (Md.cellsOf line) < 4 ->
        Md.processLine inTable lastCompany line
        = Md.Continue (inTable || mdIsHeader line) lastCompany None
        /\ (mdIsHeader line = false ->
            Md.linesLoop (pre ++ line :: post) inTable lastCompany
            = Md.linesLoop (pre ++ post) inTable lastCompany))
  /\ (forall markdown pre row post,
        Html.rowsOf markdown = pre ++ row :: post ->
        length (Html.cellsOf row) < 4 ->
        Html.parseMarkdownTable markdown = Html.rowsLoop (pre ++ post) [])
  /\ (forall markdown pre line post,
        split markdown [NL] = pre ++ line :: post ->
        startsWith line (str "|") = true ->
        length (Md.cellsOf line) < 4 ->
        mdIsHeader line = false ->
        Md.parseMarkdownTable markdown = Md.linesLoop (pre ++ post) false []).
Proof.
  assert (H : forall row lastCompany pre post,
      length (Html.cellsOf row) < 4 ->
      Html.processRow row lastCompany = (None, lastCompany)
      /\ Html.rowsLoop (pre ++ row :: post) lastCompany
         = Html.rowsLoop (pre ++ post) lastCompany);
  [|assert (M : forall line inTable lastCompany pre post,
        startsWith line (str "|") = true ->
        length (Md.cellsOf line) < 4 ->
        Md.processLine inTable lastCompany line
        = Md.Continue (inTable || mdIsHeader line) lastCompany None
        /\ (mdIsHeader line = false ->
            Md.linesLoop (pre ++ line :: post) inTable lastCompany
            = Md.linesLoop (pre ++ post) inTable lastCompany));
   [|split; [exact H|split; [exact M|split]]]].
  - intros row lastCompany pre post L.
    assert (D : htmlIsDataRow row = false).
    { unfold htmlIsDataRow. apply andb_false_iff. right.
      apply Nat.leb_gt. exact L. }
    assert (E : forall l, Html.processRow row l = (None, l))
      by (intros l; apply processRow_skipped; exact D).
    split; [apply E|].
    rewrite !rowsLoop_app. f_equal. cbn [Html.rowsLoop].
    rewrite E. reflexivity.
  - intros line inTable lastCompany pre post S L.
    assert (E : forall it l,
               Md.processLine it l line
               = Md.Continue (it || mdIsHeader line) l None).
    { intros it l. pose proof (processLine_classify it l line) as C.
      unfold mdClassify in C. destruct (mdIsHeader line).
      - rewrite C, orb_true_r. reflexivity.
      - rewrite orb_false_r.
        destruct (isSome (exec Md.separatorRegex line)); [exact C|].
        rewrite S in C. cbn [negb] in C. rewrite andb_false_r in C.
        rewrite orb_false_r in C. destruct (negb it); [exact C|].
        apply Nat.ltb_lt in L. rewrite L in C. exact C. }
    split; [apply E|].
    intros H0. rewrite !linesLoop_app. f_equal.
    destruct (mdStateAfter pre inTable lastCompany) as [[it l]|];
      [|reflexivity].
    cbn [Md.linesLoop]. rewrite E, H0, orb_false_r. reflexivity.
  - intros markdown pre row post R L. unfold Html.parseMarkdownTable.
    rewrite R. apply H. exact L.
  - intros markdown pre line post R S L N. unfold Md.parseMarkdownTable.
    rewrite R. apply M; assumption.
Qed.

Lemma C8_witness :
  Html.parseMarkdownTable Sample.htmlTable
  = Html.rowsLoop ([Sample.acmeRow] ++ [Sample.continuationRow]) []
  /\ Md.parseMarkdownTable Sample.mdTable
     = Md.linesLoop ([Sample.headerLine; Sample.acmeLine]
                       ++ [Sample.continuationLine]) false [].
Proof.
  split.
  - refine (proj1 (proj2 (proj2 C8_short_rows_skipped)) Sample.htmlTable
              [Sample.acmeRow] Sample.shortRow [Sample.continuationRow] _ _).
    + vm_compute. reflexivity.
    + vm_compute. lia.
  - refine (proj2 (proj2 (proj2 C8_short_rows_skipped)) Sample.mdTable
              [Sample.headerLine; Sample.acmeLine] Sample.shortLine
              [Sample.continuationLine] _ _ _ _).
    + vm_compute. reflexivity.
    + vm_compute. reflexivity.
    + vm_compute. lia.
    + vm_compute. reflexivity.
Defined.

Lemma html_link_of_lock : Html.extractApplicationLink LOCK = [].
Proof. vm_compute. reflexivity. Qed.

(** The row of the specification's example, in a table: the parser
    emits the record given there, and the filter keeps it. *)
Example markdown_row_end_to_end :
  let acme := mkJob (str "Acme") (str "Software Engineer Intern")
                    (str "Remote") (str "https://acme.co/apply")
                    (str "Jun 1") (str "GitHub") in
  Md.parseMarkdownTable (Sample.headerLine ++ [NL] ++ Sample.acmeLine)
  = [acme]
  /\ Html.parseMarkdownTable (str "<table>" ++ Sample.acmeRow ++ str "</table>")
     = [acme]
  /\ Filter.filterInternships (map Filter.lowerAscii) [acme] = [acme].
Proof. cbv zeta. repeat split; vm_compute; reflexivity. Qed.

(** C1: a record is emitted for a row only if company, role and link
    are non-empty after cleaning and the link is not the lock.  In both
    revisions every record of the parser's result is pushed by the turn
    of the loop for one of the rows (lines) of the document; a record
    pushed for a row has as role the cleaned role cell and as link the
    link extracted from the application cell, and its company, role and
    link are non-empty and its link is not the lock.  A row whose
    application cell is the lock pushes no record (in the Markdown
    revision the same holds whenever the cell contains the lock). *)
Theorem C1_row_acceptance :
  (forall markdown r,
      In r (Html.parseMarkdownTable markdown) ->
      exists row lastCompany,
        In row (Html.rowsOf markdown)
        /\ fst (Html.processRow row lastCompany) = Some r)
  /\ (forall row lastCompany r,
        fst (Html.processRow row lastCompany) = Some r ->
        role r = Html.cleanText (nth 1 (Html.cellsOf row) [])
        /\ link r = Html.extractApplicationLink (nth 3 (Html.cellsOf row) [])
        /\ company r <> [] /\ role r <> [] /\ link r <> []
        /\ link r <> LOCK)
  /\ (forall row lastCompany,
        nth 3 (Html.cellsOf row) [] = LOCK ->
        fst (Html.processRow row lastCompany) = None)
  /\ (forall markdown r,
        In r (Md.parseMarkdownTable markdown) ->
        exists line inTable lastCompany,
          In line (split markdown [NL])
          /\ pushedOf (Md.processLine inTable lastCompany line) = Some r)
  /\ (forall line inTable lastCompany r,
        pushedOf (Md.processLine inTable lastCompany line) = Some r ->
        role r = Md.cleanText (nth 1 (Md.cellsOf line) [])
        /\ link r = Md.extractApplicationLink (nth 3 (Md.cellsOf line) [])
        /\ company r <> [] /\ role r <> [] /\ link r <> []
        /\ link r <> LOCK)
  /\ (forall line inTable lastCompany,
        includes (nth 3 (Md.cellsOf line) []) LOCK = true ->
        pushedOf (Md.processLine inTable lastCompany line) = None).
Proof.
  assert (MdPushed : forall line inTable lastCompany r,
    pushedOf (Md.processLine inTable lastCompany line) = Some r ->
    role r = Md.cleanText (nth 1 (Md.cellsOf line) [])
    /\ link r = Md.extractApplicationLink (nth 3 (Md.cellsOf line) [])
    /\ truthy (company r) = true /\ truthy (role r) = true
    /\ truthy (link r) = true /\ eqb (link r) LOCK = false
    /\ includes (nth 3 (Md.cellsOf line) []) LOCK = false).
  { intros line inTable lastCompany r.
    pose proof (processLine_classify inTable lastCompany line) as C.
    destruct (mdClassify inTable line) as [| |cells|];
      try (rewrite C; discriminate).
    destruct C as [-> [_ [pushed [-> F]]]]. cbn [pushedOf]. intros ->.
    destruct (F r eq_refl) as [_ H]. exact H. }
  repeat split.
  - intros markdown r. apply rowsLoop_In.
  - apply processRow_pushed in H. tauto.
  - apply processRow_pushed in H. tauto.
  - apply processRow_pushed in H. apply truthy_nonempty. tauto.
  - apply processRow_pushed in H. apply truthy_nonempty. tauto.
  - apply processRow_pushed in H. apply truthy_nonempty. tauto.
  - apply processRow_pushed in H. apply eqb_neq. tauto.
  - intros row lastCompany H.
    destruct (fst (Html.processRow row lastCompany)) as [r|] eqn:E;
      [|reflexivity].
    apply processRow_pushed in E.
    destruct E as [_ [_ [_ [L [_ [_ [T _]]]]]]].
    rewrite H, html_link_of_lock in L. rewrite L in T. discriminate.
  - intros markdown r. apply linesLoop_In.
  - apply MdPushed in H. tauto.
  - apply MdPushed in H. tauto.
  - apply MdPushed in H. apply truthy_nonempty. tauto.
  - apply MdPushed in H. apply truthy_nonempty. tauto.
  - apply MdPushed in H. apply truthy_nonempty. tauto.
  - apply MdPushed in H. apply eqb_neq. tauto.
  - intros line inTable lastCompany H.
    destruct (pushedOf (Md.processLine inTable lastCompany line))
      as [r|] eqn:E; [|reflexivity].
    apply MdPushed in E. destruct E as [_ [_ [_ [_ [_ [_ E]]]]]].
    congruence.
Qed.

Lemma C1_witness :
  fst (Html.processRow Sample.closedRow (str "Acme")) = None
  /\ pushedOf (Md.processLine true (str "Acme") Sample.closedLine) = None.
Proof.
  split.
  - refine (proj1 (proj2 (proj2 C1_row_acceptance))
              Sample.closedRow (str "Acme") _).
    vm_compute. reflexivity.
  - refine (proj2 (proj2 (proj2 (proj2 (proj2 C1_row_acceptance))))
              Sample.closedLine true (str "Acme") _).
    vm_compute. reflexivity.
Defined.



End ParserClaims.

(** ** Splitting and searching *)

Lemma splitGo_nonempty (sep : jsstring) (s : jsstring) :
  forall skip, splitGo sep skip s <> [].
Proof.
  induction s as [|c t IH]; intros skip; cbn [splitGo]; [discriminate|].
  destruct skip as [|k]; [|apply IH].
  destruct (startsWith (c :: t) sep); [discriminate|].
  destruct (splitGo sep 0 t); discriminate.
Qed.

Lemma hd_splitGo (sep s : jsstring) :
  hd [] (splitGo sep 0 s) = Spec.beforeFirst sep s.
Proof.
  induction s as [|c t IH]; cbn [splitGo Spec.beforeFirst].
  - destruct (startsWith [] sep); reflexivity.
  - destruct (startsWith (c :: t) sep); [reflexivity|].
    pose proof (splitGo_nonempty sep t 0) as N.
    destruct (splitGo sep 0 t) as [|p ps]; [contradiction|].
    cbn [hd] in *. rewrite IH. reflexivity.
Qed.

Lemma hd_split (s sep : jsstring) :
  sep <> [] -> hd [] (split s sep) = Spec.beforeFirst sep s.
Proof.
  intros H. unfold split. destruct sep; [contradiction|]. apply hd_splitGo.
Qed.

Lemma beforeFirst_prefix (sep s : jsstring) :
  exists rest, s = Spec.beforeFirst sep s ++ rest.
Proof.
  induction s as [|c t [rest IH]]; cbn [Spec.beforeFirst].
  - exists []. destruct (startsWith [] sep); reflexivity.
  - destruct (startsWith (c :: t) sep).
    + exists (c :: t). reflexivity.
    + exists rest. cbn [app]. rewrite <- IH. reflexivity.
Qed.

Lemma beforeFirst_absent (sep s : jsstring) :
  includes s sep = false -> Spec.beforeFirst sep s = s.
Proof.
  induction s as [|c t IH]; cbn [includes Spec.beforeFirst]; intros H;
    apply orb_false_elim in H; destruct H as [H1 H2]; rewrite H1;
    [reflexivity|]. rewrite (IH H2). reflexivity.
Qed.

Lemma beforeFirst_present (sep s : jsstring) :
  includes s sep = true ->
  exists rest, s = Spec.beforeFirst sep s ++ sep ++ rest.
Proof.
  induction s as [|c t IH]; cbn [includes Spec.beforeFirst]; intros H.
  - rewrite orb_false_r in H. rewrite H. apply startsWith_spec in H.
    exact H.
  - destruct (startsWith (c :: t) sep) eqn:E.
    + apply startsWith_spec in E. exact E.
    + cbn [orb] in H. destruct (IH H) as [rest R].
      exists rest. cbn [app]. rewrite <- R. reflexivity.
Qed.

Lemma beforeFirst_clean (sep s : jsstring) :
  sep <> [] -> includes (Spec.beforeFirst sep s) sep = false.
Proof.
  intros N.
  assert (E0 : includes [] sep = false).
  { destruct sep; [contradiction | reflexivity]. }
  induction s as [|c t IH]; cbn [Spec.beforeFirst].
  - destruct (startsWith [] sep); exact E0.
  - destruct (startsWith (c :: t) sep) eqn:E; [exact E0|].
    cbn [includes]. rewrite IH, orb_false_r.
    destruct (startsWith (c :: Spec.beforeFirst sep t) sep) eqn:F;
      [|reflexivity].
    apply startsWith_spec in F. destruct F as [x F].
    destruct (beforeFirst_prefix sep t) as [y Y].
    assert (S : startsWith (c :: t) sep = true).
    { apply startsWith_spec. exists (x ++ y).
      rewrite Y at 1. rewrite app_comm_cons, F, app_assoc. reflexivity. }
    congruence.
Qed.

Lemma search_scanGo (r : regex) (rest : jsstring) :
  forall pos, search r pos rest = hd_error (scanGo r pos 0 rest).
Proof.
  induction rest as [|c t IH]; intros pos; cbn [search scanGo].
  - destruct (execAt r pos []); reflexivity.
  - destruct (execAt r pos (c :: t)); [reflexivity | apply IH].
Qed.

Lemma exec_matchAll (r : regex) (s : jsstring) :
  exec r s = hd_error (matchAll r s).
Proof. apply search_scanGo. Qed.

(** ** Link extraction *)

Section LinkClaims.
Import Spec.

Lemma firstDirect_firstWhere (ms : list result) :
  Html.firstDirect ms
  = option_map (fun h => hd [] (split h TRACKING))
               (firstWhere isDirect (map (group 1) ms)).
Proof.
  induction ms as [|m ms IH]; [reflexivity|].
  cbn [Html.firstDirect map firstWhere]. unfold isDirect at 1.
  fold AGGREGATOR.
  destruct (negb (includes (group 1 m) AGGREGATOR)); [reflexivity|exact IH].
Qed.

Lemma tracking_nonempty : TRACKING <> [].
Proof. discriminate. Qed.

(** C2, as the specification states it, fails in the Markdown revision:
    a cell with an aggregator link followed by a direct link yields the
    aggregator link. *)
Lemma C2_counterexample :
  let cell := str "[Simplify](https://simplify.jobs/p/1) [Apply](https://acme.co/apply)" in
  includes cell LOCK = false
  /\ mdAnchorHrefs cell = []
  /\ mdLinkUrls cell
     = [str "https://simplify.jobs/p/1"; str "https://acme.co/apply"]
  /\ preferDirect (mdLinkUrls cell) = str "https://acme.co/apply"
  /\ Md.extractApplicationLink cell = str "https://simplify.jobs/p/1"
  /\ Md.extractApplicationLink cell <> preferDirect (mdLinkUrls cell).
Proof.
  cbv zeta. repeat split; try (vm_compute; reflexivity).
  vm_compute. discriminate.
Qed.

(** C2, amended.  HTML revision: the link extracted from a cell is the
    first anchor [href] that does not contain [simplify.jobs], cut at
    its first [?utm_source]; when every anchor points at the aggregator
    it is the first anchor's [href] as it is written, and the empty
    string when the cell has no anchor.  Markdown revision: for a
    cell that contains the lock the result is the lock; otherwise it is
    the [href] of the first anchor if the cell has one, else the target
    of the first Markdown link, in both cases cut at the first
    [?utm_source], and the empty string if there is neither; the
    aggregator plays no part.  Cutting keeps the text before the first
    [?utm_source] and leaves a link without it unchanged. *)
Theorem C2_link_extraction :
  (forall cell,
      match firstWhere isDirect (htmlHrefs cell) with
      | Some href =>
          Html.extractApplicationLink cell = beforeFirst TRACKING href
      | None =>
          Html.extractApplicationLink cell = hd [] (htmlHrefs cell)
      end
      /\ (htmlHrefs cell = [] -> Html.extractApplicationLink cell = []))
  /\ (forall cell,
        includes cell LOCK = true -> Md.extractApplicationLink cell = LOCK)
  /\ (forall cell,
        includes cell LOCK = false ->
        Md.extractApplicationLink cell
        = match mdAnchorHrefs cell with
          | href :: _ => beforeFirst TRACKING href
          | [] =>
              match mdLinkUrls cell with
              | url :: _ => beforeFirst TRACKING url
              | [] => []
              end
          end)
  /\ (forall href,
        includes (beforeFirst TRACKING href) TRACKING = false
        /\ (includes href TRACKING = false ->
            beforeFirst TRACKING href = href)
        /\ (includes href TRACKING = true ->
            exists rest, href = beforeFirst TRACKING href ++ TRACKING ++ rest)).
Proof.
  split; [|split; [|split]].
  - intros cell. unfold Html.extractApplicationLink, htmlHrefs.
    rewrite firstDirect_firstWhere, exec_matchAll.
    destruct (firstWhere isDirect (map (group 1) (matchAll Html.hrefRegex cell)))
      as [href|] eqn:F; cbn [option_map].
    + split; [apply hd_split, tracking_nonempty|].
      intros E. rewrite E in F. discriminate.
    + destruct (matchAll Html.hrefRegex cell) as [|m ms]; cbn [hd_error map hd].
      * split; reflexivity.
      * split; [reflexivity | discriminate].
  - intros cell H. unfold Md.extractApplicationLink. rewrite H. reflexivity.
  - intros cell H. unfold Md.extractApplicationLink, mdAnchorHrefs, mdLinkUrls.
    rewrite H, !exec_matchAll.
    destruct (matchAll Md.hrefRegex cell) as [|m ms]; cbn [hd_error map].
    + destruct (matchAll Md.mdLinkUrlRegex cell) as [|m ms];
        cbn [hd_error map]; [reflexivity|].
      apply hd_split, tracking_nonempty.
    + apply hd_split, tracking_nonempty.
  - intros href. split; [|split].
    + apply beforeFirst_clean, tracking_nonempty.
    + apply beforeFirst_absent.
    + apply beforeFirst_present.
Qed.

Lemma C2_witness :
  Html.extractApplicationLink (str "by referral") = []
  /\ Md.extractApplicationLink
    (str "[Apply](https://acme.co/apply?utm_source=x)")
  = match mdAnchorHrefs (str "[Apply](https://acme.co/apply?utm_source=x)")
    with
    | href :: _ => beforeFirst TRACKING href
    | [] =>
        match mdLinkUrls (str "[Apply](https://acme.co/apply?utm_source=x)")
        with
        | url :: _ => beforeFirst TRACKING url
        | [] => []
        end
    end
  /\ Md.extractApplicationLink LOCK = LOCK.
Proof.
  split; [|split].
  - refine (proj2 (proj1 C2_link_extraction (str "by referral")) _).
    vm_compute. reflexivity.
  - refine (proj1 (proj2 (proj2 C2_link_extraction)) _ _).
    vm_compute. reflexivity.
  - refine (proj1 (proj2 C2_link_extraction) LOCK _).
    vm_compute. reflexivity.
Defined.

End LinkClaims.

(** ** The matcher on the patterns of [cleanText] *)

Section MatcherFacts.
Import Spec.
Variable A : Type.
Implicit Types k : cont A.

Lemma run_seqs_cons (r : regex) (rs : list regex) pos rest caps k :
  run (seqs (r :: rs)) pos rest caps k
  = run r pos rest caps
        (fun pos' rest' caps' => run (seqs rs) pos' rest' caps' k).
Proof. destruct rs; reflexivity. Qed.

Lemma run_lit (s : jsstring) :
  forall pos rest caps k,
    run (lit s) pos rest caps k
    = if startsWith rest s
      then k (pos + length s) (skipn (length s) rest) caps
      else None.
Proof.
  unfold lit. induction s as [|x s IH]; intros pos rest caps k.
  - cbn. rewrite Nat.add_0_r. reflexivity.
  - cbn [map]. rewrite run_seqs_cons. cbn [run startsWith length skipn].
    destruct rest as [|c t]; [reflexivity|].
    unfold isChar. rewrite (Z.eqb_sym x c).
    destruct (c =? x)%Z; [|reflexivity].
    cbn [andb]. rewrite IH. rewrite Nat.add_succ_r. reflexivity.
Qed.

(** A greedy star whose continuation cannot fail takes the whole run. *)
Lemma star_greedy_total (p : Z -> bool) k :
  (forall pos rest caps, k pos rest caps <> None) ->
  forall rest pos caps,
    star p greedy pos rest caps k
    = k (pos + runLength p rest) (skipn (runLength p rest) rest) caps.
Proof.
  intros T. induction rest as [|c t IH]; intros pos caps;
    cbn [star runLength].
  - rewrite Nat.add_0_r. reflexivity.
  - destruct (p c); cbn [greedy].
    + rewrite IH, Nat.add_succ_r. cbn [skipn Nat.add].
      destruct (k (S (pos + runLength p t)) (skipn (runLength p t) t) caps)
        eqn:E; [reflexivity|]. apply T in E. destruct E.
    + rewrite Nat.add_0_r. reflexivity.
Qed.

(** A greedy star over [[^x]] followed by [x] stops at the first [x]. *)
Lemma star_until (x : Z) k :
  forall rest pos caps,
    star (isNot x) greedy pos rest caps
         (fun pos' rest' caps' =>
            match rest' with
            | c :: t => if isChar x c then k (S pos') t caps' else None
            | [] => None
            end)
    = if existsb (Z.eqb x) rest
      then k (S (pos + runLength (isNot x) rest))
             (skipn (S (runLength (isNot x) rest)) rest) caps
      else None.
Proof.
  induction rest as [|c t IH]; intros pos caps;
    cbn [star runLength existsb]; [reflexivity|].
  assert (N : isNot x c = negb (isChar x c)) by reflexivity.
  assert (E : Z.eqb x c = isChar x c) by (unfold isChar; apply Z.eqb_sym).
  rewrite !N, E.
  destruct (isChar x c); cbn [negb orb greedy].
  - rewrite Nat.add_0_r. reflexivity.
  - rewrite IH, Nat.add_succ_r. cbn [skipn Nat.add].
    destruct (existsb (Z.eqb x) t); [|reflexivity].
    match goal with |- match ?e with Some _ => _ | None => _ end = _ =>
      destruct e; reflexivity end.
Qed.

End MatcherFacts.

Section ReplaceFacts.
Import Spec.

Lemma add_sub_left (pos n : nat) : pos + n - pos = n.
Proof. lia. Qed.

Lemma execAt_lit (s : jsstring) (pos : nat) (rest : jsstring) :
  execAt (lit s) pos rest
  = if startsWith rest s
    then Some (mkResult (pos + length s) (firstn (length s) rest) [])
    else None.
Proof.
  unfold execAt. rewrite run_lit.
  destruct (startsWith rest s); [|reflexivity].
  rewrite add_sub_left. reflexivity.
Qed.

Lemma startsWith_nil (s : jsstring) : s <> [] -> startsWith [] s = false.
Proof. destruct s; [contradiction | reflexivity]. Qed.

Lemma eqb_add_pos (pos n : nat) : n <> 0 -> Nat.eqb (pos + n) pos = false.
Proof. intros H. apply Nat.eqb_neq. lia. Qed.

(** Replacing a literal with the [g] flag is replacing every
    occurrence of the string. *)
Lemma replaceAll_lit (from to : jsstring) :
  from <> [] ->
  forall s, replaceAll (lit from) (fun _ => to) s = replaceStr from to s.
Proof.
  intros N. unfold replaceAll, replaceStr. generalize 0 at 1 as pos.
  generalize 0 as skip. intros skip pos s. revert skip pos.
  assert (L : length from <> 0) by (destruct from; [contradiction|discriminate]).
  induction s as [|c t IH]; intros skip pos; cbn [replaceGo replaceStrGo].
  - destruct skip; [|reflexivity].
    rewrite execAt_lit, (startsWith_nil N). reflexivity.
  - destruct skip as [|k]; [|apply IH].
    rewrite execAt_lit. destruct (startsWith (c :: t) from).
    + cbn [m_end]. rewrite (eqb_add_pos pos L), IH. do 2 f_equal. lia.
    + rewrite IH. reflexivity.
Qed.

Lemma execAt_glyph (pos : nat) (rest : jsstring) :
  execAt Md.glyphRegex pos rest
  = if startsWith rest PASSPORT
    then Some (mkResult (pos + length PASSPORT)
                        (firstn (length PASSPORT) rest) [])
    else if startsWith rest FLAG_US
    then Some (mkResult (pos + length FLAG_US)
                        (firstn (length FLAG_US) rest) [])
    else None.
Proof.
  unfold execAt, Md.glyphRegex. cbn [run]. rewrite !run_lit.
  destruct (startsWith rest PASSPORT).
  - rewrite add_sub_left. reflexivity.
  - destruct (startsWith rest FLAG_US); [|reflexivity].
    rewrite add_sub_left. reflexivity.
Qed.

Lemma replaceAll_glyph (s : jsstring) :
  replaceAll Md.glyphRegex (fun _ => []) s = dropGlyphs s.
Proof.
  unfold replaceAll, dropGlyphs. generalize 0 at 1 as pos.
  generalize 0 as skip. intros skip pos. revert skip pos.
  induction s as [|c t IH]; intros skip pos; cbn [replaceGo dropGlyphsGo].
  - destruct skip; [|reflexivity]. rewrite execAt_glyph. reflexivity.
  - destruct skip as [|k]; [|apply IH].
    rewrite execAt_glyph. destruct (startsWith (c :: t) PASSPORT).
    + cbn [m_end app]. rewrite eqb_add_pos by discriminate.
      rewrite IH. f_equal. cbn [length]. lia.
    + destruct (startsWith (c :: t) FLAG_US).
      * cbn [m_end app]. rewrite eqb_add_pos by discriminate.
        rewrite IH. f_equal. cbn [length]. lia.
      * rewrite IH. reflexivity.
Qed.

Lemma execAt_spaces (pos : nat) (rest : jsstring) :
  execAt (Plus space greedy) pos rest
  = match rest with
    | c :: t =>
        if isSpace c
        then Some (mkResult (S (pos + runLength space t))
                            (firstn (S (runLength space t)) rest) [])
        else None
    | [] => None
    end.
Proof.
  unfold execAt, Plus. cbn [run]. destruct rest as [|c t]; [reflexivity|].
  unfold space at 1. destruct (isSpace c); [|reflexivity].
  rewrite star_greedy_total by discriminate.
  cbn [Nat.add]. do 2 f_equal. f_equal. lia.
Qed.

(** Replacing [\s+] by a space is collapsing the runs of white space. *)
Lemma replaceAll_spaces (s : jsstring) :
  replaceAll (Plus space greedy) (fun _ => str " ") s = collapse false s.
Proof.
  unfold replaceAll.
  assert (H : forall pos,
            replaceGo (Plus space greedy) (fun _ => str " ") pos 0 s
            = collapse false s
            /\ replaceGo (Plus space greedy) (fun _ => str " ") pos
                         (runLength space s) s
               = collapse true s); [|apply (proj1 (H 0))].
  induction s as [|c t IH]; intros pos.
  - cbn. split; reflexivity.
  - assert (H1 : replaceGo (Plus space greedy) (fun _ => str " ") pos 0
                           (c :: t) = collapse false (c :: t)).
    { cbn [replaceGo collapse]. rewrite execAt_spaces.
      destruct (isSpace c).
      - cbn [m_end]. replace (S (pos + runLength space t) =? pos) with false
          by (symmetry; apply Nat.eqb_neq; lia).
        replace (S (pos + runLength space t) - pos - 1)
          with (runLength space t) by lia.
        rewrite (proj2 (IH (S pos))). reflexivity.
      - rewrite (proj1 (IH (S pos))). reflexivity. }
    split; [exact H1|].
    cbn [runLength]. unfold space at 2.
    destruct (isSpace c) eqn:E.
    + cbn [replaceGo collapse]. rewrite E. apply IH.
    + rewrite H1. cbn [collapse]. rewrite E. reflexivity.
Qed.

Lemma execAt_tag (pos : nat) (rest : jsstring) :
  execAt Html.tagRegex pos rest
  = match rest with
    | c :: t =>
        if (c =? LT)%Z && existsb (Z.eqb GT) t
        then Some (mkResult (S (S (pos + runLength (isNot GT) t)))
                            (firstn (S (S (runLength (isNot GT) t))) rest) [])
        else None
    | [] => None
    end.
Proof.
  unfold execAt, Html.tagRegex.
  rewrite run_seqs_cons, run_lit. destruct rest as [|c t]; [reflexivity|].
  change (startsWith (c :: t) (str "<")) with ((LT =? c)%Z && true).
  rewrite andb_true_r, (Z.eqb_sym LT c).
  destruct (c =? LT)%Z; [|reflexivity]. cbn [andb].
  change (length (str "<")) with 1. cbn [skipn].
  rewrite run_seqs_cons. cbn [run].
  change (seqs [lit (str ">")]) with (Chr (isChar GT)). cbn [run].
  change (isNot (ch ">")) with (isNot GT).
  rewrite (star_until GT
             (fun pos' _ caps =>
                Some (mkResult pos' (firstn (pos' - pos) (c :: t)) caps))).
  destruct (existsb (Z.eqb GT) t); [|reflexivity].
  do 2 f_equal; [lia | f_equal; lia].
Qed.

(** Replacing [<[^>]*>] by nothing is removing the tags. *)
Lemma replaceAll_tag (s : jsstring) :
  replaceAll Html.tagRegex (fun _ => []) s = stripTags s.
Proof.
  unfold replaceAll, stripTags.
  assert (H : forall pos,
            replaceGo Html.tagRegex (fun _ => []) pos 0 s = stripGo false s
            /\ (existsb (Z.eqb GT) s = true ->
                replaceGo Html.tagRegex (fun _ => []) pos
                          (S (runLength (isNot GT) s)) s
                = stripGo true s)); [|apply (proj1 (H 0))].
  induction s as [|c t IH]; intros pos.
  - cbn. split; [reflexivity | discriminate].
  - split.
    + cbn [replaceGo stripGo]. rewrite execAt_tag.
      destruct ((c =? LT)%Z && existsb (Z.eqb GT) t) eqn:E.
      * apply andb_true_iff in E. destruct E as [_ E].
        cbn [m_end app].
        replace (S (S (pos + runLength (isNot GT) t)) =? pos) with false
          by (symmetry; apply Nat.eqb_neq; lia).
        replace (S (S (pos + runLength (isNot GT) t)) - pos - 1)
          with (S (runLength (isNot GT) t)) by lia.
        apply (proj2 (IH (S pos))). exact E.
      * rewrite (proj1 (IH (S pos))). reflexivity.
    + cbn [existsb runLength replaceGo stripGo].
      assert (N : isNot GT c = negb (c =? GT)%Z) by reflexivity.
      rewrite N, (Z.eqb_sym GT c).
      destruct (c =? GT)%Z; cbn [negb orb].
      * intros _. apply IH.
      * intros E. apply (proj2 (IH (S pos))). exact E.
Qed.

End ReplaceFacts.

(** ** White-space normal form and tag removal *)

Section CleanFacts.
Import Spec.

Lemma collapse_singleSpaced (s : jsstring) :
  forall inRun,
    singleSpaced (collapse inRun s)
    /\ (inRun = true ->
        match collapse inRun s with
        | c :: _ => isSpace c = false
        | [] => True
        end).
Proof.
  induction s as [|c t IH]; intros inRun; cbn [collapse].
  - split; [exact I | intros _; exact I].
  - destruct (isSpace c) eqn:E.
    + destruct inRun.
      * apply IH.
      * split; [|discriminate]. cbn [singleSpaced].
        destruct (IH true) as [S H]. split; [|exact S].
        intros _. split; [reflexivity | apply H; reflexivity].
    + split.
      * cbn [singleSpaced]. split; [|apply IH]. congruence.
      * intros _. exact E.
Qed.

Lemma singleSpaced_suffix (a u : jsstring) :
  singleSpaced (a ++ u) -> singleSpaced u.
Proof.
  induction a as [|c a IH]; [auto|]. cbn [app singleSpaced].
  intros [_ H]. apply IH. exact H.
Qed.

Lemma singleSpaced_prefix (u b : jsstring) :
  singleSpaced (u ++ b) -> singleSpaced u.
Proof.
  induction u as [|c u IH]; [intros _; exact I|].
  cbn [app singleSpaced]. intros [H S]. split; [|apply IH; exact S].
  intros E. destruct (H E) as [H1 H2]. split; [exact H1|].
  destruct u; [exact I | exact H2].
Qed.

Lemma singleSpaced_pairs (s : jsstring) :
  singleSpaced s ->
  (forall c, In c s -> isSpace c = true -> c = 32%Z)
  /\ (forall a c d b,
        s = a ++ c :: d :: b -> isSpace c = true -> isSpace d = false).
Proof.
  intros S. split.
  - induction s as [|x s IH]; [intros c []|].
    destruct S as [H S]. intros c [<- | Hin] E.
    + apply H. exact E.
    + apply IH; assumption.
  - intros a. revert s S.
    induction a as [|x a IH]; intros s S c d b -> E.
    + destruct S as [H _]. apply H. exact E.
    + destruct S as [_ S]. apply (IH _ S c d b eq_refl E).
Qed.

Lemma trimStart_suffix (s : jsstring) : exists a, s = a ++ trimStart s.
Proof.
  induction s as [|c t [a IH]]; [exists []; reflexivity|].
  cbn [trimStart]. destruct (isSpace c).
  - exists (c :: a). cbn [app]. rewrite <- IH. reflexivity.
  - exists []. reflexivity.
Qed.

Lemma trimStart_head (s : jsstring) :
  match trimStart s with
  | c :: _ => isSpace c = false
  | [] => True
  end.
Proof.
  induction s as [|c t IH]; [exact I|]. cbn [trimStart].
  destruct (isSpace c) eqn:E; [exact IH | exact E].
Qed.

Lemma trimEnd_prefix (s : jsstring) : exists b, s = trimEnd s ++ b.
Proof.
  unfold trimEnd. destruct (trimStart_suffix (rev s)) as [a H].
  exists (rev a). rewrite <- rev_app_distr, <- H, rev_involutive.
  reflexivity.
Qed.

Lemma trimEnd_last (s t : jsstring) (c : Z) :
  trimEnd s = t ++ [c] -> isSpace c = false.
Proof.
  unfold trimEnd. intros H. pose proof (trimStart_head (rev s)) as T.
  apply (f_equal (@rev Z)) in H.
  rewrite rev_involutive, rev_app_distr in H. cbn in H.
  rewrite H in T. exact T.
Qed.

Lemma trim_normalised (w : jsstring) :
  singleSpaced w -> normalised (trim w).
Proof.
  intros S. unfold trim.
  destruct (trimStart_suffix w) as [a A].
  destruct (trimEnd_prefix (trimStart w)) as [b B].
  assert (S' : singleSpaced (trimEnd (trimStart w))).
  { apply singleSpaced_prefix with (b := b). rewrite <- B.
    apply singleSpaced_suffix with (a := a). rewrite <- A. exact S. }
  destruct (singleSpaced_pairs _ S') as [P1 P2].
  split; [exact P1|]. split; [exact P2|]. split.
  - intros c t E. pose proof (trimStart_head w) as H.
    rewrite B, E in H. exact H.
  - intros t c E. eapply trimEnd_last. exact E.
Qed.

Lemma stripGo_In (x : Z) (s : jsstring) :
  forall inTag, In x (stripGo inTag s) -> In x s.
Proof.
  induction s as [|c t IH]; intros inTag; cbn [stripGo]; [auto|].
  destruct inTag.
  - destruct (c =? GT)%Z; intros H; right; apply (IH _ H).
  - destruct ((c =? LT)%Z && existsb (Z.eqb GT) t).
    + intros H; right; apply (IH _ H).
    + intros [-> | H]; [left; reflexivity | right; apply (IH _ H)].
Qed.

(** After tag removal no [<] has a [>] anywhere after it. *)
Lemma stripGo_no_tag (s : jsstring) :
  forall inTag a b, stripGo inTag s = a ++ LT :: b -> ~ In GT b.
Proof.
  induction s as [|c t IH]; intros inTag a b; cbn [stripGo].
  - destruct a; discriminate.
  - destruct inTag.
    + destruct (c =? GT)%Z; apply IH.
    + destruct ((c =? LT)%Z && existsb (Z.eqb GT) t) eqn:E; [apply IH|].
      destruct a as [|x a]; cbn [app].
      * intros [= -> <-]. cbn [andb] in E.
        change ((LT =? LT)%Z) with true in E. cbn [andb] in E.
        intros H. apply stripGo_In in H.
        assert (X : existsb (Z.eqb GT) t = true).
        { apply existsb_exists. exists GT. split; [exact H|].
          apply Z.eqb_refl. }
        congruence.
      * intros [= _ H]. apply (IH _ _ _ H).
Qed.

End CleanFacts.

(** ** Text cleaning *)

Section CleanClaims.
Import Spec.

(** C4, as the specification states it, fails in the HTML revision,
    which neither decodes [&apos;] nor removes the decorative glyphs. *)
Lemma C4_counterexample :
  Html.cleanText (str "it&apos;s") = str "it&apos;s"
  /\ Html.cleanText (str "it&apos;s") <> str "it's"
  /\ Md.cleanText (str "it&apos;s") = str "it's"
  /\ Html.cleanText (str "Intern " ++ PASSPORT) = str "Intern " ++ PASSPORT
  /\ Md.cleanText (str "Intern " ++ PASSPORT) = str "Intern".
Proof.
  repeat split; try (vm_compute; reflexivity).
  vm_compute. discriminate.
Qed.

(** C4, amended.  In both revisions [cleanText] removes the tags (each
    [<] with the text up to the next [>]; afterwards no [<] has a [>]
    after it), then replaces [&amp;], [&lt;], [&gt;] and [&nbsp;], in
    this order, by their characters, then replaces each run of white
    space by one space and trims the ends, so that its result has no
    white space but single spaces between other code units.  The
    Markdown revision alone also replaces Markdown links and bold text
    by their text (after the tags), decodes [&apos;] (after [&nbsp;])
    and then removes the two decorative glyphs.  Both revisions map
    "A&amp;B" to "A&B" and "a   b\n c" to "a b c". *)
Theorem C4_cleanText :
  (forall text,
      Html.cleanText text
      = trim (collapse false
          (replaceStr (str "&nbsp;") (str " ")
          (replaceStr (str "&gt;") (str ">")
          (replaceStr (str "&lt;") (str "<")
          (replaceStr (str "&amp;") (str "&")
          (stripTags text)))))))
  /\ (forall text,
        Md.cleanText text
        = trim (collapse false
            (dropGlyphs
            (replaceStr (str "&apos;") (str "'")
            (replaceStr (str "&nbsp;") (str " ")
            (replaceStr (str "&gt;") (str ">")
            (replaceStr (str "&lt;") (str "<")
            (replaceStr (str "&amp;") (str "&")
            (replaceAll Md.boldRegex (group 1)
            (replaceAll Md.mdLinkRegex (group 1)
            (stripTags text)))))))))))
  /\ (forall text,
        normalised (Html.cleanText text) /\ normalised (Md.cleanText text))
  /\ (forall text a b, stripTags text = a ++ LT :: b -> ~ In GT b)
  /\ Html.cleanText (str "A&amp;B") = str "A&B"
  /\ Md.cleanText (str "A&amp;B") = str "A&B"
  /\ Html.cleanText (str "a   b" ++ [NL] ++ str " c") = str "a b c"
  /\ Md.cleanText (str "a   b" ++ [NL] ++ str " c") = str "a b c".
Proof.
  assert (H : forall text,
    Html.cleanText text
    = trim (collapse false
        (replaceStr (str "&nbsp;") (str " ")
        (replaceStr (str "&gt;") (str ">")
        (replaceStr (str "&lt;") (str "<")
        (replaceStr (str "&amp;") (str "&")
        (stripTags text))))))).
  { intros text. unfold Html.cleanText.
    rewrite replaceAll_spaces, !replaceAll_lit by discriminate.
    rewrite replaceAll_tag. reflexivity. }
  assert (M : forall text,
    Md.cleanText text
    = trim (collapse false
        (dropGlyphs
        (replaceStr (str "&apos;") (str "'")
        (replaceStr (str "&nbsp;") (str " ")
        (replaceStr (str "&gt;") (str ">")
        (replaceStr (str "&lt;") (str "<")
        (replaceStr (str "&amp;") (str "&")
        (replaceAll Md.boldRegex (group 1)
        (replaceAll Md.mdLinkRegex (group 1)
        (stripTags text))))))))))).
  { intros text. unfold Md.cleanText.
    rewrite replaceAll_spaces, replaceAll_glyph.
    rewrite !replaceAll_lit by discriminate.
    change Md.tagRegex with Html.tagRegex.
    rewrite replaceAll_tag. reflexivity. }
  split; [exact H|]. split; [exact M|]. split; [|split].
  - intros text. rewrite H, M.
    split; apply trim_normalised; apply collapse_singleSpaced.
  - intros text a b. apply stripGo_no_tag.
  - repeat split; vm_compute; reflexivity.
Qed.

Lemma C4_witness : ~ In GT (str "d").
Proof.
  refine (proj1 (proj2 (proj2 (proj2 C4_cleanText)))
            (str "a<b>c<d") (str "ac") (str "d") _).
  vm_compute. reflexivity.
Defined.

End CleanClaims.

(** * Further properties of the code *)

(** ** The sheet writer, and the scraped jobs written to the sheet *)

Section SheetMore.
Import Sheets Spec More.

Lemma length_filter_le (A : Type) (p : A -> bool) (l : list A) :
  length (filter p l) <= length l.
Proof.
  induction l as [|x l IH]; simpl; [lia|]. destruct (p x); simpl; lia.
Qed.


Lemma firstn_length_bound (A : Type) (n : nat) (l : list A) :
  length (firstn n l) <= length l.
Proof. rewrite length_firstn. lia. Qed.



(** X1: the writer only appends, and accounts for every job.  Whatever
    the jobs and the sheet, the header row is left as it is and the rows
    of the sheet afterwards are the rows before followed by appended
    ones, at most one for each job given.  When the call returns,
    [added] is the number of appended rows and [added + duplicates] is
    the number of jobs given; when it throws, rows were appended only
    if [addRows] was called.  [addRows] is called at most once, after
    [loadInfo] and [getRows], and what is appended are the cells, under
    the headers of the sheet, of the first rows of that one batch. *)
Theorem addToSheet_appends_and_accounts :
  forall (clock : nat -> jsstring) (jobsArray : option (list JobRecord))
         (sheet : Sheet),
    let '(out, sheet', calls) := addToSheet clock jobsArray sheet in
    headerRow sheet' = headerRow sheet
    /\ exists appended,
         rows sheet' = rows sheet ++ appended
         /\ length appended <= length (jobsOf jobsArray)
         /\ match out with
            | Returned added duplicates =>
                added = length appended
                /\ added + duplicates = length (jobsOf jobsArray)
            | Thrown =>
                (forall rowsToAdd, ~ In (AddRows rowsToAdd) calls) ->
                appended = []
            end
         /\ forall rowsToAdd,
              In (AddRows rowsToAdd) calls ->
              calls = [LoadInfo; GetRows; AddRows rowsToAdd]
              /\ exists n,
                   appended
                   = firstn n (map (cellsFor (headerValues sheet)) rowsToAdd).
Proof.
  intros clock jobsArray sheet.
  assert (Nothing : forall (jobs : list JobRecord) d calls,
             d = length jobs ->
             (forall rowsToAdd, ~ In (AddRows rowsToAdd) calls) ->
             headerRow sheet = headerRow sheet
             /\ exists appended,
                  rows sheet = rows sheet ++ appended
                  /\ length appended <= length jobs
                  /\ (0 = length appended /\ 0 + d = length jobs)
                  /\ forall rowsToAdd,
                       In (AddRows rowsToAdd) calls ->
                       calls = [LoadInfo; GetRows; AddRows rowsToAdd]
                       /\ exists n,
                            appended
                            = firstn n (map (cellsFor (headerValues sheet))
                                            rowsToAdd)).
  { intros jobs d calls -> N. split; [reflexivity|]. exists [].
    rewrite app_nil_r. cbn [length]. split; [reflexivity|].
    split; [lia|]. split; [split; reflexivity|].
    intros r H. destruct (N r H). }
  assert (Failed : forall (jobs : list JobRecord) calls,
             (forall rowsToAdd, ~ In (AddRows rowsToAdd) calls) ->
             headerRow sheet = headerRow sheet
             /\ exists appended,
                  rows sheet = rows sheet ++ appended
                  /\ length appended <= length jobs
                  /\ ((forall rowsToAdd, ~ In (AddRows rowsToAdd) calls) ->
                      appended = [])
                  /\ forall rowsToAdd,
                       In (AddRows rowsToAdd) calls ->
                       calls = [LoadInfo; GetRows; AddRows rowsToAdd]
                       /\ exists n,
                            appended
                            = firstn n (map (cellsFor (headerValues sheet))
                                            rowsToAdd)).
  { intros jobs calls N. split; [reflexivity|]. exists [].
    rewrite app_nil_r. cbn [length]. split; [reflexivity|].
    split; [lia|]. split; [reflexivity|].
    intros r H. destruct (N r H). }
  assert (N0 : forall rowsToAdd, ~ In (AddRows rowsToAdd) []) by
    (intros r []).
  assert (N1 : forall rowsToAdd, ~ In (AddRows rowsToAdd) [LoadInfo]) by
    (intros r [H | []]; discriminate).
  assert (N2 : forall rowsToAdd,
             ~ In (AddRows rowsToAdd) [LoadInfo; GetRows]) by
    (intros r [H | [H | []]]; discriminate).
  destruct jobsArray as [[|j0 jobs0]|];
    [exact (Nothing [] 0 [] eq_refl N0) | | exact (Nothing [] 0 [] eq_refl N0)].
  set (jobs := j0 :: jobs0). cbn [jobsOf].
  destruct (@addToSheet_cases clock jobs sheet ltac:(discriminate))
    as [[_ C] | [[_ [_ C]] | [existingRows [_ [_ C]]]]].
  - rewrite C. exact (Failed jobs [LoadInfo] N1).
  - rewrite C. exact (Failed jobs [LoadInfo; GetRows] N2).
  - cbv zeta in C.
    pose proof (length_filter_le
                  (fun job => negb (has (existingLinksOf existingRows)
                                        (link job))) jobs) as Hle.
    set (fresh := filter (fun job => negb (has (existingLinksOf existingRows)
                                               (link job))) jobs) in *.
    assert (One : forall appended n,
               appended = firstn n (map (cellsFor (headerValues sheet))
                                        (rowsFrom clock 0 fresh)) ->
               forall rowsToAdd,
                 In (AddRows rowsToAdd)
                    [LoadInfo; GetRows; AddRows (rowsFrom clock 0 fresh)] ->
                 [LoadInfo; GetRows; AddRows (rowsFrom clock 0 fresh)]
                 = [LoadInfo; GetRows; AddRows rowsToAdd]
                 /\ exists n0,
                      appended
                      = firstn n0 (map (cellsFor (headerValues sheet))
                                       rowsToAdd)).
    { intros appended n -> r [H | [H | [H | []]]]; try discriminate.
      injection H as <-. split; [reflexivity|]. exists n. reflexivity. }
    destruct C as [[_ C] | [_ C]]; rewrite C.
    + exact (Nothing jobs (length jobs) [LoadInfo; GetRows] eq_refl N2).
    + unfold addRows.
      destruct (writeFails sheet) as [n|]; cbn [snd headerRow rows].
      * split; [reflexivity|]. eexists. split; [reflexivity|]. split.
        -- pose proof (firstn_length_bound n
                         (map (cellsFor (headerValues sheet))
                              (rowsFrom clock 0 fresh))) as B.
           rewrite length_map, length_rowsFrom in B. lia.
        -- split.
           ++ intros H. exfalso. eapply H. right. right. left. reflexivity.
           ++ apply (One _ n). reflexivity.
      * split; [reflexivity|]. eexists. split; [reflexivity|].
        rewrite length_map, length_rowsFrom. split; [lia|]. split.
        -- split; lia.
        -- apply (One _ (length (map (cellsFor (headerValues sheet))
                                     (rowsFrom clock 0 fresh)))).
           symmetry. apply firstn_all.
Qed.

Lemma addToSheet_appends_and_accounts_witness :
  let job := mkJob (str "Acme") (str "Intern") (str "Remote")
                   (str "https://acme.co/a") [] (str "GitHub") in
  let sheet := mkSheet false COLUMNS [] false None in
  rows (snd (fst (addToSheet noon (Some [job]) sheet))) = rows sheet.
Proof.
  intros job sheet.
  pose proof (addToSheet_appends_and_accounts noon (Some [job]) sheet) as H.
  change (addToSheet noon (Some [job]) sheet)
    with (Thrown, sheet, [LoadInfo]) in *.
  cbv beta iota in H. destruct H as [_ [appended [H [_ [N _]]]]].
  cbn [fst snd]. rewrite H, N; [apply app_nil_r|].
  intros rowsToAdd [F | []]. discriminate.
Defined.





End SheetMore.

Section PipelineMore.
Import Sheets Spec More.


Lemma md_pushed_facts (line : jsstring) (inTable : bool)
      (lastCompany : jsstring) (r : JobRecord) :
  pushedOf (Md.processLine inTable lastCompany line) = Some r ->
  exists cells,
    mdClassify inTable line = Posting cells
    /\ company r = (if isContinuation (mdCompanyOf cells)
                    then lastCompany else mdCompanyOf cells)
    /\ role r = Md.cleanText (nth 1 cells [])
    /\ link r = Md.extractApplicationLink (nth 3 cells [])
    /\ truthy (company r) = true /\ truthy (role r) = true
    /\ truthy (link r) = true /\ eqb (link r) LOCK = false
    /\ includes (nth 3 cells []) LOCK = false.
Proof.
  pose proof (processLine_classify inTable lastCompany line) as C.
  destruct (mdClassify inTable line) as [| |cells|];
    try (rewrite C; discriminate).
  destruct C as [_ [_ [pushed [-> F]]]]. cbn [pushedOf]. intros ->.
  exists cells. split; [reflexivity | exact (F r eq_refl)].
Qed.





End PipelineMore.

(** ** The fields of the parsed records *)

Section RecordFacts.
Import Spec More.

Lemma tidy_normalised (s : jsstring) : tidy s -> normalised s.
Proof.
  intros [S [H L]]. destruct (singleSpaced_pairs _ S) as [P1 P2].
  split; [exact P1|]. split; [exact P2|]. split.
  - intros c t ->. exact H.
  - intros t c ->. rewrite last_last in L. exact L.
Qed.

Lemma trim_tidy (w : jsstring) : singleSpaced w -> tidy (trim w).
Proof.
  intros S. unfold trim.
  destruct (trimStart_suffix w) as [a A].
  destruct (trimEnd_prefix (trimStart w)) as [b B].
  split; [|split].
  - apply singleSpaced_prefix with (b := b). rewrite <- B.
    apply singleSpaced_suffix with (a := a). rewrite <- A. exact S.
  - pose proof (trimStart_head w) as H. rewrite B in H.
    destruct (trimEnd (trimStart w)); [reflexivity | exact H].
  - destruct (trimEnd (trimStart w)) as [|c t] eqn:E using rev_ind;
      [reflexivity|].
    rewrite last_last. eapply trimEnd_last. exact E.
Qed.

Lemma html_cleanText_tidy (text : jsstring) : tidy (Html.cleanText text).
Proof.
  unfold Html.cleanText. rewrite replaceAll_spaces.
  apply trim_tidy, collapse_singleSpaced.
Qed.

Lemma md_cleanText_tidy (text : jsstring) : tidy (Md.cleanText text).
Proof.
  unfold Md.cleanText. rewrite replaceAll_spaces.
  apply trim_tidy, collapse_singleSpaced.
Qed.

Lemma tidy_nil : tidy [].
Proof. repeat split. Qed.

Lemma tidy_arrow : tidy ARROW.
Proof. repeat split. discriminate. Qed.

Lemma html_company_tidy (cell : jsstring) : tidy (Html.extractCompanyName cell).
Proof.
  unfold Html.extractCompanyName.
  destruct (eqb (trim cell) ARROW); [apply tidy_arrow|].
  destruct (exec Html.anchorTextRegex cell); [apply html_cleanText_tidy|].
  destruct (exec Html.strongRegex cell); apply html_cleanText_tidy.
Qed.

Lemma md_company_tidy (cell : jsstring) : tidy (Md.extractCompanyName cell).
Proof.
  unfold Md.extractCompanyName.
  destruct (eqb (trim cell) ARROW); [apply tidy_arrow|].
  destruct (exec Md.anchorTextRegex cell); [apply md_cleanText_tidy|].
  destruct (exec Md.mdLinkRegex cell); apply md_cleanText_tidy.
Qed.

Lemma singleSpaced_app (x y : jsstring) :
  singleSpaced x -> singleSpaced y -> isSpace (last x 0%Z) = false ->
  singleSpaced (x ++ y).
Proof.
  induction x as [|c t IH]; [auto|]. cbn [app singleSpaced].
  intros [H S] Sy L. destruct t as [|d t'].
  - cbn in L. split; [congruence | exact Sy].
  - split.
    + intros E. destruct (H E) as [H1 H2]. split; assumption.
    + apply IH; assumption.
Qed.

Lemma join_nonempty (x : jsstring) (a : list jsstring) (sep : jsstring) :
  x <> [] -> join (x :: a) sep <> [].
Proof.
  intros H. cbn [join]. destruct a; [exact H|].
  destruct x; [contradiction | discriminate].
Qed.

Lemma last_app_nonempty (x y : jsstring) (d : Z) :
  y <> [] -> last (x ++ y) d = last y d.
Proof.
  intros H. destruct y as [|c t] using rev_ind; [contradiction|].
  rewrite app_assoc, !last_last. reflexivity.
Qed.

Lemma join_tidy (pieces : list jsstring) :
  (forall p, In p pieces -> tidy p /\ p <> []) ->
  tidy (join pieces (str ", ")).
Proof.
  induction pieces as [|x a IH]; intros H; [apply tidy_nil|].
  destruct (H x (or_introl eq_refl)) as [[Sx [Hx Lx]] Nx].
  destruct a as [|y a']; [repeat split; assumption|].
  assert (T : tidy (join (y :: a') (str ", "))).
  { apply IH. intros p Hp. apply H. right. exact Hp. }
  assert (N : join (y :: a') (str ", ") <> []).
  { apply join_nonempty. apply (H y). right. left. reflexivity. }
  change (join (x :: y :: a') (str ", "))
    with (x ++ str ", " ++ join (y :: a') (str ", ")).
  destruct T as [S [Hd L]]. split; [|split].
  - apply singleSpaced_app; [exact Sx | | exact Lx].
    change (str ", " ++ join (y :: a') (str ", "))
      with (44%Z :: 32%Z :: join (y :: a') (str ", ")).
    cbn [singleSpaced]. split; [discriminate|]. split; [|exact S].
    intros _. split; [reflexivity|].
    destruct (join (y :: a') (str ", ")); [exact I | exact Hd].
  - destruct x; [contradiction | exact Hx].
  - rewrite last_app_nonempty.
    + rewrite last_app_nonempty; assumption.
    + discriminate.
Qed.

Lemma filter_nonempty_tidy (clean : jsstring -> jsstring)
      (texts : list jsstring) :
  (forall t, tidy (clean t)) ->
  forall p, In p (filter (fun loc => 0 <? length loc) (map clean texts)) ->
            tidy p /\ p <> [].
Proof.
  intros C p H. apply filter_In in H. destruct H as [H L].
  apply in_map_iff in H. destruct H as [t [<- _]]. split; [apply C|].
  destruct (clean t); [discriminate | discriminate].
Qed.

Lemma html_location_tidy (cell : jsstring) : tidy (Html.extractLocation cell).
Proof.
  unfold Html.extractLocation, Html.locationsOf.
  destruct (exec Html.detailsRegex cell); apply join_tidy;
    apply filter_nonempty_tidy; exact html_cleanText_tidy.
Qed.

Lemma md_location_tidy (cell : jsstring) : tidy (Md.extractLocation cell).
Proof.
  unfold Md.extractLocation, Md.locationsOf.
  destruct (exec Md.detailsRegex cell); apply join_tidy;
    apply filter_nonempty_tidy; exact md_cleanText_tidy.
Qed.

Lemma html_pushed_fields (row lastCompany : jsstring) (r : JobRecord) :
  fst (Html.processRow row lastCompany) = Some r ->
  location r = Html.extractLocation (nth 2 (Html.cellsOf row) [])
  /\ datePosted r = htmlDateOf (Html.cellsOf row)
  /\ source r = str "GitHub".
Proof.
  unfold Html.processRow, htmlDateOf.
  destruct (includes row (str "<th>")); [discriminate|].
  destruct (length (Html.cellsOf row) <? 4); [discriminate|].
  cbv zeta.
  match goal with |- fst (if ?g then _ else _) = _ -> _ =>
    destruct g end; [discriminate|].
  cbn [fst]. intros [= <-]. repeat split.
Qed.

Lemma md_pushed_fields (line : jsstring) (inTable : bool)
      (lastCompany : jsstring) (r : JobRecord) :
  pushedOf (Md.processLine inTable lastCompany line) = Some r ->
  location r = Md.extractLocation (nth 2 (Md.cellsOf line) [])
  /\ datePosted r = mdDateOf (Md.cellsOf line)
  /\ source r = str "GitHub".
Proof.
  unfold Md.processLine, mdDateOf.
  destruct (includes line (str "| Company") && includes line (str "| Role"));
    [discriminate|].
  destruct (isSome (exec Md.separatorRegex line)); [discriminate|].
  destruct (inTable && negb (startsWith line (str "|"))); [discriminate|].
  destruct (negb inTable || negb (startsWith line (str "|")));
    [discriminate|].
  destruct (length (Md.cellsOf line) <? 4); [discriminate|].
  cbv zeta.
  match goal with |- pushedOf (if ?g then _ else _) = _ -> _ =>
    destruct g end; [discriminate|].
  cbn [pushedOf]. intros [= <-]. repeat split.
Qed.

Lemma html_date_tidy (cells : list jsstring) : tidy (htmlDateOf cells).
Proof.
  unfold htmlDateOf. destruct (nth_error cells 4) as [d|]; [|apply tidy_nil].
  destruct (truthy d); [apply html_cleanText_tidy | apply tidy_nil].
Qed.

Lemma md_date_tidy (cells : list jsstring) : tidy (mdDateOf cells).
Proof.
  unfold mdDateOf. destruct (nth_error cells 4) as [d|]; [|apply tidy_nil].
  destruct (truthy d); [apply md_cleanText_tidy | apply tidy_nil].
Qed.

(** The company of every record of the row loop is the remembered one or
    one extracted on the way. *)
Lemma rowsLoop_company (P : jsstring -> Prop) (rows : list jsstring) :
  (forall cell, P (Html.extractCompanyName cell)) ->
  forall lastCompany r,
    P lastCompany -> In r (Html.rowsLoop rows lastCompany) -> P (company r).
Proof.
  intros E. induction rows as [|row rows IH]; intros lastCompany r L;
    [intros []|].
  cbn [Html.rowsLoop].
  pose proof (processRow_snd row lastCompany) as Sn.
  pose proof (@processRow_pushed row lastCompany) as Pu.
  destruct (Html.processRow row lastCompany) as [pushed lastCompany'].
  cbn [fst snd] in *. rewrite in_app_iff. intros [H | H].
  - destruct pushed as [j|]; [|destruct H]. destruct H as [<- | []].
    destruct (Pu j eq_refl) as [_ [C _]]. rewrite C.
    destruct (isContinuation (htmlCompanyOf row)); [exact L | apply E].
  - apply (IH lastCompany'); [|exact H]. rewrite Sn.
    destruct (htmlIsDataRow row); [|exact L].
    destruct (isContinuation (htmlCompanyOf row)); [exact L | apply E].
Qed.

Lemma linesLoop_company (P : jsstring -> Prop) (lines : list jsstring) :
  (forall cell, P (Md.extractCompanyName cell)) ->
  forall inTable lastCompany r,
    P lastCompany -> In r (Md.linesLoop lines inTable lastCompany) ->
    P (company r).
Proof.
  intros E. induction lines as [|line lines IH];
    intros inTable lastCompany r L; [intros []|].
  cbn [Md.linesLoop].
  pose proof (processLine_classify inTable lastCompany line) as C.
  destruct (mdClassify inTable line) as [| |cells|].
  - rewrite C. cbn [optList app]. apply IH. exact L.
  - rewrite C. cbn [optList app]. apply IH. exact L.
  - destruct C as [_ [_ [pushed [-> F]]]]. rewrite in_app_iff.
    intros [H | H].
    + destruct pushed as [j|]; [|destruct H]. destruct H as [<- | []].
      destruct (F j eq_refl) as [C _]. rewrite C.
      destruct (isContinuation (mdCompanyOf cells)); [exact L | apply E].
    + apply IH in H; [exact H|].
      destruct (isContinuation (mdCompanyOf cells)); [exact L | apply E].
  - rewrite C. intros [].
Qed.

(** X5: the text fields of every parsed record are clean.  In both
    revisions every record returned by [parseMarkdownTable] has the
    source "GitHub", and its company, role, location and posting date
    are white-space normalised: their only white space is single spaces
    between other code units. *)
Theorem parsed_fields_normalised :
  forall (markdown : jsstring) (r : JobRecord),
    In r (Html.parseMarkdownTable markdown)
    \/ In r (Md.parseMarkdownTable markdown) ->
    source r = str "GitHub"
    /\ normalised (company r) /\ normalised (role r)
    /\ normalised (location r) /\ normalised (datePosted r).
Proof.
  intros markdown r [H | H].
  - assert (C : tidy (company r)).
    { apply (@rowsLoop_company tidy (Html.rowsOf markdown) html_company_tidy
               [] r tidy_nil H). }
    apply rowsLoop_In in H. destruct H as [row [l [_ H]]].
    destruct (html_pushed_fields _ _ H) as [Lo [Da So]].
    apply processRow_pushed in H. destruct H as [_ [_ [Ro _]]].
    split; [exact So|]. rewrite Ro, Lo, Da.
    split; [|split; [|split]]; apply tidy_normalised;
      [exact C | apply html_cleanText_tidy | apply html_location_tidy
       | apply html_date_tidy].
  - assert (C : tidy (company r)).
    { apply (@linesLoop_company tidy (split markdown [NL]) md_company_tidy
               false [] r tidy_nil H). }
    apply linesLoop_In in H. destruct H as [line [it [l [_ H]]]].
    destruct (md_pushed_fields _ _ _ H) as [Lo [Da So]].
    apply md_pushed_facts in H. destruct H as [cells [Cl [_ [Ro _]]]].
    split; [exact So|]. rewrite Ro, Lo, Da.
    split; [|split; [|split]]; apply tidy_normalised;
      [exact C | apply md_cleanText_tidy | apply md_location_tidy
       | apply md_date_tidy].
Qed.

Lemma parsed_fields_normalised_witness :
  normalised (str "Software Engineer Intern").
Proof.
  refine (proj1 (proj2 (proj2
            (@parsed_fields_normalised Sample.mdTable
               (mkJob (str "Acme") (str "Software Engineer Intern")
                      (str "Remote") (str "https://acme.co/apply")
                      (str "Jun 1") (str "GitHub")) _)))).
  right. vm_compute. left. reflexivity.
Defined.

End RecordFacts.

(** ** Links without the tracking parameter *)

Section LinkMore.
Import Spec More.

Lemma md_link_no_tracking (cell : jsstring) :
  includes cell LOCK = false ->
  includes (Md.extractApplicationLink cell) TRACKING = false.
Proof.
  intros H. unfold Md.extractApplicationLink. rewrite H.
  destruct (exec Md.hrefRegex cell).
  - rewrite hd_split by discriminate. apply beforeFirst_clean. discriminate.
  - destruct (exec Md.mdLinkUrlRegex cell); [|reflexivity].
    rewrite hd_split by discriminate. apply beforeFirst_clean. discriminate.
Qed.

Lemma firstWhere_none (A : Type) (p : A -> bool) (l : list A) (x : A) :
  firstWhere p l = None -> In x l -> p x = false.
Proof.
  induction l as [|y l IH]; [intros _ []|]. cbn [firstWhere].
  destruct (p y) eqn:E; [discriminate|].
  intros H [<- | Hin]; [exact E | apply IH; assumption].
Qed.

Lemma html_link_tracking (cell : jsstring) :
  includes (Html.extractApplicationLink cell) TRACKING = true ->
  includes (Html.extractApplicationLink cell) AGGREGATOR = true.
Proof.
  unfold Html.extractApplicationLink.
  rewrite firstDirect_firstWhere, exec_matchAll.
  destruct (firstWhere isDirect (map (group 1) (matchAll Html.hrefRegex cell)))
    as [href|] eqn:F; cbn [option_map].
  - rewrite hd_split by discriminate.
    rewrite beforeFirst_clean by discriminate. discriminate.
  - destruct (matchAll Html.hrefRegex cell) as [|m ms]; cbn [hd_error];
      [discriminate|].
    intros _. assert (D : isDirect (group 1 m) = false).
    { eapply firstWhere_none; [exact F | left; reflexivity]. }
    unfold isDirect in D. apply negb_false_iff in D. exact D.
Qed.

(** X6: stored links do not carry the tracking parameter.  The link of
    every record parsed by the Markdown revision is free of
    [?utm_source]; in the HTML revision a link that still contains
    [?utm_source] is an aggregator ([simplify.jobs]) link, kept because
    the cell had no other. *)
Theorem parsed_links_without_tracking :
  forall (markdown : jsstring) (r : JobRecord),
    (In r (Md.parseMarkdownTable markdown) ->
     includes (link r) TRACKING = false)
    /\ (In r (Html.parseMarkdownTable markdown) ->
        includes (link r) TRACKING = true ->
        includes (link r) AGGREGATOR = true).
Proof.
  intros markdown r. split.
  - intros H. apply linesLoop_In in H. destruct H as [line [it [l [_ H]]]].
    apply md_pushed_facts in H.
    destruct H as [cells [_ [_ [_ [L [_ [_ [_ [_ K]]]]]]]]].
    rewrite L. apply md_link_no_tracking. exact K.
  - intros H. apply rowsLoop_In in H. destruct H as [row [l [_ H]]].
    apply processRow_pushed in H. destruct H as [_ [_ [_ [L _]]]].
    rewrite L. apply html_link_tracking.
Qed.

Lemma parsed_links_without_tracking_witness :
  includes (str "https://acme.co/apply") TRACKING = false.
Proof.
  refine (proj1 (@parsed_links_without_tracking Sample.mdTable
            (mkJob (str "Acme") (str "Software Engineer Intern")
                   (str "Remote") (str "https://acme.co/apply")
                   (str "Jun 1") (str "GitHub"))) _).
  vm_compute. left. reflexivity.
Defined.

End LinkMore.

(** ** Where the Markdown table begins and ends *)

Section BoundaryMore.
Import Spec More.

Lemma run_bol_later (A : Type) (rs : list regex) (pos : nat)
      (rest : jsstring) (caps : captures) (k : cont A) :
  run (seqs (Bol :: rs)) (S pos) rest caps k = None.
Proof. rewrite run_seqs_cons. reflexivity. Qed.

Lemma search_bol_later (rs : list regex) (rest : jsstring) :
  forall pos, search (seqs (Bol :: rs)) (S pos) rest = None.
Proof.
  induction rest as [|c t IH]; intros pos; cbn [search]; unfold execAt;
    rewrite run_bol_later; [reflexivity | apply IH].
Qed.

(** Only a line that begins with a bar is a separator line. *)
Lemma separator_startsWith (line : jsstring) :
  isSome (exec Md.separatorRegex line) = true ->
  startsWith line (str "|") = true.
Proof.
  unfold exec, Md.separatorRegex.
  destruct (startsWith line (str "|")) eqn:S; [reflexivity|].
  assert (E : forall rs, execAt (seqs (Bol :: lit (str "|") :: rs)) 0 line
                         = None).
  { intros rs. unfold execAt. rewrite run_seqs_cons. cbn [run].
    rewrite run_seqs_cons, run_lit, S. reflexivity. }
  destruct line as [|c t]; cbn [search]; rewrite E; [discriminate|].
  rewrite search_bol_later. discriminate.
Qed.

Lemma linesLoop_before_header (lines : list jsstring) :
  (forall line, In line lines -> mdIsHeader line = false) ->
  forall lastCompany,
    Md.linesLoop lines false lastCompany = []
    /\ mdStateAfter lines false lastCompany = Some (false, lastCompany).
Proof.
  induction lines as [|line lines IH]; intros H lastCompany;
    [split; reflexivity|].
  cbn [Md.linesLoop mdStateAfter].
  pose proof (processLine_classify false lastCompany line) as C.
  unfold mdClassify in C. rewrite (H line (or_introl eq_refl)) in C.
  cbn [andb negb orb] in C.
  assert (E : Md.processLine false lastCompany line
              = Md.Continue false lastCompany None).
  { destruct (isSome (exec Md.separatorRegex line)); exact C. }
  rewrite E. cbn [optList app]. apply IH.
  intros l Hl. apply H. right. exact Hl.
Qed.

Lemma state_in_table (body : list jsstring) :
  (forall line, In line body -> startsWith line (str "|") = true) ->
  forall lastCompany,
    exists lastCompany', mdStateAfter body true lastCompany
                         = Some (true, lastCompany').
Proof.
  induction body as [|line body IH]; intros H lastCompany;
    [exists lastCompany; reflexivity|].
  cbn [mdStateAfter].
  pose proof (processLine_classify true lastCompany line) as C.
  unfold mdClassify in C. rewrite (H line (or_introl eq_refl)) in C.
  cbn [andb negb orb] in C.
  assert (E : exists l pushed, Md.processLine true lastCompany line
                               = Md.Continue true l pushed).
  { destruct (mdIsHeader line); [eauto|].
    destruct (isSome (exec Md.separatorRegex line)); [eauto|].
    destruct (length (Md.cellsOf line) <? 4); [eauto|].
    destruct C as [_ [_ [pushed [E _]]]]. eauto. }
  destruct E as [l [pushed ->]]. apply IH.
  intros l0 Hl. apply H. right. exact Hl.
Qed.

(** X7: where the Markdown parser stops.  A document without a header
    line (a line containing both "| Company" and "| Role") gives no
    record.  Otherwise parsing starts at the first header line and ends
    at the first later line that neither begins with a bar nor is itself
    a header line (the header test comes before the test that ends the
    table): when the lines after the header all begin with a bar up to
    such a line, the result is that of the document cut before it,
    whatever follows (a second table included). *)
Theorem markdown_table_boundaries :
  forall markdown : jsstring,
    ((forall line, In line (split markdown [NL]) -> mdIsHeader line = false) ->
     Md.parseMarkdownTable markdown = [])
    /\ (forall pre header body stop post,
          split markdown [NL] = pre ++ header :: body ++ stop :: post ->
          (forall line, In line pre -> mdIsHeader line = false) ->
          mdIsHeader header = true ->
          (forall line, In line body -> startsWith line (str "|") = true) ->
          startsWith stop (str "|") = false ->
          mdIsHeader stop = false ->
          Md.parseMarkdownTable markdown
          = Md.linesLoop (header :: body) false []).
Proof.
  intros markdown. split.
  - intros H. apply (linesLoop_before_header _ H).
  - intros pre header body stop post R Hpre Hh Hbody Hs Hn.
    unfold Md.parseMarkdownTable. rewrite R.
    destruct (linesLoop_before_header _ Hpre []) as [L0 S0].
    rewrite linesLoop_app, L0, S0. cbn [app].
    change (header :: body ++ stop :: post)
      with ((header :: body) ++ stop :: post).
    rewrite linesLoop_app.
    assert (St : exists l, mdStateAfter (header :: body) false []
                           = Some (true, l)).
    { cbn [mdStateAfter].
      pose proof (processLine_classify false [] header) as C.
      unfold mdClassify in C. rewrite Hh in C. rewrite C.
      apply state_in_table. exact Hbody. }
    destruct St as [l ->]. cbn [Md.linesLoop].
    pose proof (processLine_classify true l stop) as C.
    unfold mdClassify in C. rewrite Hn, Hs in C.
    destruct (isSome (exec Md.separatorRegex stop)) eqn:Sep.
    + apply separator_startsWith in Sep. congruence.
    + cbn [andb negb] in C. rewrite C, app_nil_r. reflexivity.
Qed.

Lemma markdown_table_boundaries_witness :
  Md.parseMarkdownTable
    (join [str "# Listing"; Sample.headerLine; Sample.acmeLine; [];
           Sample.headerLine; Sample.continuationLine] [NL])
  = Md.linesLoop [Sample.headerLine; Sample.acmeLine] false []
  /\ Md.parseMarkdownTable (join [str "# Listing"; Sample.acmeLine] [NL]) = [].
Proof.
  split.
  - refine (proj2 (markdown_table_boundaries _) [str "# Listing"]
              Sample.headerLine [Sample.acmeLine] []
              [Sample.headerLine; Sample.continuationLine] _ _ _ _ _ _).
    + vm_compute. reflexivity.
    + intros line [<- | []]. vm_compute. reflexivity.
    + vm_compute. reflexivity.
    + intros line [<- | []]. vm_compute. reflexivity.
    + vm_compute. reflexivity.
    + vm_compute. reflexivity.
  - refine (proj1 (markdown_table_boundaries _) _).
    intros line H. vm_compute in H.
    destruct H as [<- | [<- | []]]; vm_compute; reflexivity.
Defined.

End BoundaryMore.

(** ** Text without markup *)

Section PlainMore.
Import Spec More.

Lemma lacks_cons (xs : list Z) (c : Z) (t : jsstring) :
  lacks xs (c :: t) = true ->
  (forall x, In x xs -> c <> x) /\ lacks xs t = true.
Proof.
  unfold lacks. cbn [forallb]. intros H. apply andb_true_iff in H.
  destruct H as [H T]. split; [|exact T].
  intros x Hx E. apply negb_true_iff in H.
  assert (X : existsb (Z.eqb c) xs = true).
  { apply existsb_exists. exists x. split; [exact Hx|]. apply Z.eqb_eq.
    exact E. }
  congruence.
Qed.

Lemma lacks_incl (xs ys : list Z) (s : jsstring) :
  incl xs ys -> lacks ys s = true -> lacks xs s = true.
Proof.
  intros I. induction s as [|c t IH]; [reflexivity|]. intros H.
  apply lacks_cons in H. destruct H as [H T]. unfold lacks. cbn [forallb].
  apply andb_true_iff. split; [|apply IH; exact T].
  apply negb_true_iff. destruct (existsb (Z.eqb c) xs) eqn:E; [|reflexivity].
  apply existsb_exists in E. destruct E as [x [Hx E]]. apply Z.eqb_eq in E.
  destruct (H x (I x Hx) E).
Qed.

Lemma startsWith_other (c f : Z) (t p : jsstring) :
  c <> f -> startsWith (c :: t) (f :: p) = false.
Proof.
  intros H. cbn [startsWith]. destruct (Z.eqb_spec f c); [congruence|].
  reflexivity.
Qed.

Lemma stripTags_plain (s : jsstring) :
  lacks [LT] s = true -> stripTags s = s.
Proof.
  unfold stripTags. induction s as [|c t IH]; [reflexivity|]. intros H.
  apply lacks_cons in H. destruct H as [H T]. cbn [stripGo].
  destruct (Z.eqb_spec c LT) as [E|_].
  - destruct (H LT (or_introl eq_refl) E).
  - cbn [andb]. rewrite (IH T). reflexivity.
Qed.

Lemma replaceStr_plain (f : Z) (from to s : jsstring) :
  lacks [f] s = true -> replaceStr (f :: from) to s = s.
Proof.
  unfold replaceStr. induction s as [|c t IH]; [reflexivity|]. intros H.
  apply lacks_cons in H. destruct H as [H T]. cbn [replaceStrGo].
  rewrite startsWith_other by (apply H; left; reflexivity).
  rewrite (IH T). reflexivity.
Qed.

Lemma dropGlyphs_plain (s : jsstring) :
  lacks [0xD83D%Z; 0xD83C%Z] s = true -> dropGlyphs s = s.
Proof.
  unfold dropGlyphs. induction s as [|c t IH]; [reflexivity|]. intros H.
  apply lacks_cons in H. destruct H as [H T]. cbn [dropGlyphsGo].
  unfold PASSPORT, FLAG_US.
  rewrite !startsWith_other by (apply H; cbn; auto).
  rewrite (IH T). reflexivity.
Qed.

(** A pattern that must begin with a code unit the text lacks matches
    nowhere, and replacing it changes nothing. *)
Lemma replaceAll_no_match (r : regex) (f : result -> jsstring)
      (xs : list Z) (s : jsstring) :
  (forall pos, execAt r pos [] = None) ->
  (forall pos c t, (forall x, In x xs -> c <> x) ->
                   execAt r pos (c :: t) = None) ->
  lacks xs s = true -> replaceAll r f s = s.
Proof.
  intros E0 E1. unfold replaceAll. generalize 0 at 1 as pos.
  induction s as [|c t IH]; intros pos H; cbn [replaceGo].
  - rewrite E0. reflexivity.
  - apply lacks_cons in H. destruct H as [H T].
    rewrite (E1 pos c t H), (IH _ T). reflexivity.
Qed.

Lemma execAt_lit_first (f : Z) (p : jsstring) (rs : list regex) :
  (forall pos, execAt (seqs (lit (f :: p) :: rs)) pos [] = None)
  /\ (forall pos c t, (forall x, In x [f] -> c <> x) ->
                      execAt (seqs (lit (f :: p) :: rs)) pos (c :: t) = None).
Proof.
  split.
  - intros pos. unfold execAt. rewrite run_seqs_cons, run_lit. reflexivity.
  - intros pos c t H. unfold execAt. rewrite run_seqs_cons, run_lit.
    rewrite startsWith_other by (apply H; left; reflexivity). reflexivity.
Qed.

Lemma collapse_fixed (s : jsstring) :
  singleSpaced s ->
  forall inRun, (inRun = true -> isSpace (hd 0%Z s) = false) ->
                collapse inRun s = s.
Proof.
  induction s as [|c t IH]; [reflexivity|]. intros [H S] inRun R.
  cbn [collapse]. destruct (isSpace c) eqn:E.
  - destruct inRun; [pose proof (R eq_refl) as R'; cbn in R'; congruence|].
    destruct (H eq_refl) as [-> H2]. f_equal. apply (IH S).
    intros _. destruct t; [reflexivity | exact H2].
  - f_equal. apply (IH S). discriminate.
Qed.

Lemma trimStart_fixed (s : jsstring) :
  isSpace (hd 0%Z s) = false -> trimStart s = s.
Proof.
  destruct s as [|c t]; [reflexivity|]. cbn. intros ->. reflexivity.
Qed.

Lemma hd_rev (s : jsstring) (d : Z) : hd d (rev s) = last s d.
Proof.
  destruct s as [|c t] using rev_ind; [reflexivity|].
  rewrite rev_app_distr, last_last. reflexivity.
Qed.

Lemma trim_fixed (s : jsstring) :
  isSpace (hd 0%Z s) = false -> isSpace (last s 0%Z) = false -> trim s = s.
Proof.
  intros H L. unfold trim, trimEnd. rewrite (trimStart_fixed _ H).
  rewrite trimStart_fixed by (rewrite hd_rev; exact L).
  apply rev_involutive.
Qed.

Lemma normalised_tidy (s : jsstring) : normalised s -> tidy s.
Proof.
  intros [P1 [P2 [P3 P4]]]. split; [|split].
  - clear P3 P4. induction s as [|c t IH]; [exact I|]. split.
    + intros E. split; [apply P1; [left; reflexivity | exact E]|].
      destruct t as [|d b]; [exact I|]. apply (P2 [] c d b eq_refl E).
    + apply IH.
      * intros x Hx. apply P1. right. exact Hx.
      * intros a x d b ->. apply (P2 (c :: a) x d b eq_refl).
  - destruct s as [|c t]; [reflexivity | apply (P3 c t eq_refl)].
  - destruct s as [|c t] using rev_ind; [reflexivity|].
    rewrite last_last. apply (P4 t c eq_refl).
Qed.

Lemma html_cleanText_plain (text : jsstring) :
  lacks htmlMarkup text = true ->
  Html.cleanText text = trim (collapse false text).
Proof.
  intros H. unfold Html.cleanText.
  assert (L : lacks [LT] text = true)
    by (apply lacks_incl with (ys := htmlMarkup);
        [intros x [<- | []]; cbn; auto | exact H]).
  assert (A : lacks [AMP] text = true)
    by (apply lacks_incl with (ys := htmlMarkup);
        [intros x [<- | []]; cbn; auto | exact H]).
  rewrite replaceAll_spaces, !replaceAll_lit by discriminate.
  rewrite replaceAll_tag, (@stripTags_plain _ L).
  change (str "&amp;") with (AMP :: str "amp;").
  change (str "&lt;") with (AMP :: str "lt;").
  change (str "&gt;") with (AMP :: str "gt;").
  change (str "&nbsp;") with (AMP :: str "nbsp;").
  rewrite !(@replaceStr_plain _ _ _ _ A). reflexivity.
Qed.

Lemma md_cleanText_plain (text : jsstring) :
  lacks mdMarkup text = true ->
  Md.cleanText text = trim (collapse false text).
Proof.
  intros H. unfold Md.cleanText.
  assert (I : forall x, In x mdMarkup -> lacks [x] text = true).
  { intros x Hx. apply lacks_incl with (ys := mdMarkup); [|exact H].
    intros y [<- | []]. exact Hx. }
  assert (G : lacks [0xD83D%Z; 0xD83C%Z] text = true).
  { apply lacks_incl with (ys := mdMarkup); [|exact H].
    intros y [<- | [<- | []]]; cbn; auto 10. }
  rewrite replaceAll_spaces, replaceAll_glyph.
  rewrite !replaceAll_lit by discriminate.
  change Md.tagRegex with Html.tagRegex.
  rewrite replaceAll_tag, (@stripTags_plain _ (I LT ltac:(cbn; auto))).
  rewrite (@replaceAll_no_match Md.mdLinkRegex (group 1) [ch "["] text
             (proj1 (execAt_lit_first _ _ _))
             (proj2 (execAt_lit_first _ _ _))
             (I (ch "[") ltac:(cbn; auto))).
  rewrite (@replaceAll_no_match Md.boldRegex (group 1) [ch "*"] text
             (proj1 (execAt_lit_first _ _ _))
             (proj2 (execAt_lit_first _ _ _))
             (I (ch "*") ltac:(cbn; auto 10))).
  change (str "&amp;") with (AMP :: str "amp;").
  change (str "&lt;") with (AMP :: str "lt;").
  change (str "&gt;") with (AMP :: str "gt;").
  change (str "&nbsp;") with (AMP :: str "nbsp;").
  change (str "&apos;") with (AMP :: str "apos;").
  rewrite !(@replaceStr_plain _ _ _ _ (I AMP ltac:(cbn; auto))).
  rewrite (@dropGlyphs_plain _ G). reflexivity.
Qed.

(** X8: text without markup only has its white space normalised.  On a
    text with no [<] and no [&] (Markdown revision: also no bracket, no
    asterisk and no glyph code unit) [cleanText] only collapses the runs
    of white space and trims; such a text that is already white-space
    normalised is returned unchanged. *)
Theorem cleanText_without_markup :
  forall text : jsstring,
    (lacks htmlMarkup text = true ->
     Html.cleanText text = trim (collapse false text)
     /\ (normalised text -> Html.cleanText text = text))
    /\ (lacks mdMarkup text = true ->
        Md.cleanText text = trim (collapse false text)
        /\ (normalised text -> Md.cleanText text = text)).
Proof.
  intros text.
  assert (F : normalised text -> trim (collapse false text) = text).
  { intros N. apply normalised_tidy in N. destruct N as [S [H L]].
    rewrite (@collapse_fixed _ S) by discriminate. apply trim_fixed; assumption. }
  split; intros H.
  - rewrite (@html_cleanText_plain _ H). split; [reflexivity | exact F].
  - rewrite (@md_cleanText_plain _ H). split; [reflexivity | exact F].
Qed.

Lemma cleanText_without_markup_witness :
  Md.cleanText (str "Software Engineer Intern")
  = str "Software Engineer Intern".
Proof.
  refine (proj2 (proj2 (cleanText_without_markup _) _) _).
  - vm_compute. reflexivity.
  - apply tidy_normalised. split; [|split; reflexivity].
    vm_compute.
    repeat match goal with
           | |- _ /\ _ => split
           | |- _ -> _ => let E := fresh in intros E; try discriminate E
           | |- True => exact I
           | |- _ = _ => reflexivity
           end.
Defined.

End PlainMore.

(** ** Locations *)

Section LocationMore.
Import Spec More.

Lemma isCI_neq (x c : Z) :
  upper x = x -> (x < 65 \/ 90 < x)%Z -> c <> x -> isCI x c = false.
Proof.
  intros U R N. unfold isCI. rewrite U. unfold upper.
  destruct ((97 <=? c)%Z && (c <=? 122)%Z) eqn:E.
  - apply andb_true_iff in E. destruct E as [E1 E2].
    apply Z.leb_le in E1, E2. apply Z.eqb_neq. lia.
  - apply Z.eqb_neq. exact N.
Qed.

Lemma run_litI_cons (A : Type) (x : Z) (s : jsstring) (pos : nat) (c : Z)
      (t : jsstring) (caps : captures) (k : cont A) :
  run (litI (x :: s)) pos (c :: t) caps k
  = if isCI x c then run (litI s) (S pos) t caps k else None.
Proof.
  unfold litI. cbn [map]. rewrite run_seqs_cons. reflexivity.
Qed.

Lemma run_litI_nil (A : Type) (x : Z) (s : jsstring) (pos : nat)
      (caps : captures) (k : cont A) :
  run (litI (x :: s)) pos [] caps k = None.
Proof.
  unfold litI. cbn [map]. rewrite run_seqs_cons. reflexivity.
Qed.

(** The break pattern matches neither at the end nor at a code unit that
    is not [<] or a line feed. *)
Lemma execAt_break_none (pos : nat) (c : Z) (t : jsstring) :
  (forall x, In x [LT; NL] -> c <> x) ->
  execAt Html.breakRegex pos (c :: t) = None.
Proof.
  intros H.
  assert (L : isCI LT c = false)
    by (apply isCI_neq; [reflexivity | left; reflexivity | apply H; cbn; auto]).
  assert (N : isCI NL c = false)
    by (apply isCI_neq; [reflexivity | left; reflexivity | apply H; cbn; auto]).
  unfold execAt, Html.breakRegex. cbn [run].
  change (str "</br>") with (LT :: str "/br>").
  rewrite run_litI_cons, L, run_seqs_cons.
  change (str "<br") with (LT :: str "br").
  rewrite run_litI_cons, L. change (isCI NL c) with (isCI NL c).
  rewrite N. reflexivity.
Qed.

Lemma execAt_break_br (pos : nat) (t : jsstring) :
  exists m, execAt Html.breakRegex pos (BR ++ t) = Some m
            /\ m_end m = 5 + pos.
Proof. eexists. split; reflexivity. Qed.

Lemma splitRe_plain (p : jsstring) :
  lacks [LT; NL] p = true ->
  forall pos, splitReGo Html.breakRegex pos 0 p = [p].
Proof.
  induction p as [|c t IH]; intros H pos; [reflexivity|].
  apply lacks_cons in H. destruct H as [H T]. cbn [splitReGo].
  rewrite (execAt_break_none pos t H), (IH T). reflexivity.
Qed.

Lemma splitRe_piece (p : jsstring) :
  lacks [LT; NL] p = true ->
  forall pos rest,
    splitReGo Html.breakRegex pos 0 (p ++ BR ++ rest)
    = p :: splitReGo Html.breakRegex (length p + 5 + pos) 0 rest.
Proof.
  induction p as [|c t IH]; intros H pos rest.
  - destruct (execAt_break_br pos rest) as [m [E M]].
    change ([] ++ BR ++ rest) with (LT :: str "/br>" ++ rest) in *.
    cbn [splitReGo]. change (LT :: str "/br>" ++ rest) with (BR ++ rest).
    rewrite E, M.
    replace (5 + pos =? pos) with false by (symmetry; apply Nat.eqb_neq; lia).
    replace (5 + pos - pos - 1) with 4 by lia.
    change (str "/br>" ++ rest)
      with (47%Z :: 98%Z :: 114%Z :: 62%Z :: rest).
    cbn [splitReGo length Nat.add]. reflexivity.
  - apply lacks_cons in H. destruct H as [H T]. cbn [app splitReGo].
    rewrite (execAt_break_none pos _ H), (IH T).
    cbn [length]. do 2 f_equal. lia.
Qed.

Lemma splitRe_join (pieces : list jsstring) :
  pieces <> [] ->
  (forall p, In p pieces -> lacks [LT; NL] p = true) ->
  forall pos, splitReGo Html.breakRegex pos 0 (join pieces BR) = pieces.
Proof.
  induction pieces as [|x a IH]; [contradiction|]. intros _ H pos.
  destruct a as [|y a'].
  - apply splitRe_plain. apply H. left. reflexivity.
  - change (join (x :: y :: a') BR) with (x ++ BR ++ join (y :: a') BR).
    rewrite splitRe_piece by (apply H; left; reflexivity).
    f_equal. apply IH; [discriminate|].
    intros p Hp. apply H. right. exact Hp.
Qed.

(** A pattern that begins with [<details>] matches nowhere in pieces
    without [<] joined by [</br>]. *)
Lemma execAt_details_none (rs : list regex) (pos : nat) (rest : jsstring) :
  (match rest with
   | c :: d :: _ => c <> LT \/ d = ch "/"
   | [c] => True
   | [] => True
   end) ->
  execAt (seqs (litI (str "<details>") :: rs)) pos rest = None.
Proof.
  unfold execAt. rewrite run_seqs_cons.
  change (str "<details>") with (LT :: ch "d" :: str "etails>").
  destruct rest as [|c [|d t]]; intros H.
  - apply run_litI_nil.
  - rewrite run_litI_cons. destruct (isCI LT c); [apply run_litI_nil|reflexivity].
  - rewrite run_litI_cons. destruct (Z.eq_dec c LT) as [->|N].
    + destruct H as [H | ->]; [contradiction|].
      rewrite run_litI_cons. reflexivity.
    + rewrite isCI_neq; [reflexivity | reflexivity | left; reflexivity | exact N].
Qed.

Lemma search_step (r : regex) (pos : nat) (c : Z) (t : jsstring) :
  execAt r pos (c :: t) = None ->
  search r pos (c :: t) = search r (S pos) t.
Proof. intros E. cbn [search]. rewrite E. reflexivity. Qed.

Lemma search_details_plain (rs : list regex) (p rest : jsstring) :
  lacks [LT; NL] p = true ->
  forall pos,
    search (seqs (litI (str "<details>") :: rs)) pos (p ++ rest)
    = search (seqs (litI (str "<details>") :: rs)) (length p + pos) rest.
Proof.
  induction p as [|c t IH]; intros H pos; [reflexivity|].
  apply lacks_cons in H. destruct H as [H T]. cbn [app search].
  rewrite execAt_details_none.
  - rewrite (IH T). cbn [length]. f_equal. lia.
  - destruct (t ++ rest); [exact I|]. left. apply H. cbn. auto.
Qed.

Lemma search_details_join (rs : list regex) (pieces : list jsstring) :
  (forall p, In p pieces -> lacks [LT; NL] p = true) ->
  forall pos,
    search (seqs (litI (str "<details>") :: rs)) pos (join pieces BR) = None.
Proof.
  assert (E : forall pos, search (seqs (litI (str "<details>") :: rs)) pos []
                          = None).
  { intros pos. cbn [search]. rewrite execAt_details_none; [reflexivity|exact I]. }
  induction pieces as [|x a IH]; intros H pos; [apply E|].
  destruct a as [|y a'].
  - cbn [join]. rewrite <- (app_nil_r x).
    rewrite search_details_plain by (apply H; left; reflexivity). apply E.
  - change (join (x :: y :: a') BR) with (x ++ BR ++ join (y :: a') BR).
    rewrite search_details_plain by (apply H; left; reflexivity).
    change (BR ++ join (y :: a') BR)
      with (LT :: str "/br>" ++ join (y :: a') BR).
    rewrite search_step.
    + rewrite search_details_plain by reflexivity.
      apply IH. intros p Hp. apply H. right. exact Hp.
    + apply execAt_details_none. right. reflexivity.
Qed.

(** X9: locations separated by [</br>] are joined by a comma and a
    space.  In both revisions, for a location cell made of pieces that
    contain neither [<] nor a line feed, separated by [</br>], the
    location of the record is the cleaned pieces that are not empty, in
    their order, joined by ", "; a cell that is one such piece gives
    its cleaned text. *)
Theorem location_pieces_joined :
  forall pieces : list jsstring,
    (forall p, In p pieces -> lacks [LT; NL] p = true) ->
    Html.extractLocation (join pieces BR)
    = join (filter (fun loc => 0 <? length loc) (map Html.cleanText pieces))
           (str ", ")
    /\ Md.extractLocation (join pieces BR)
       = join (filter (fun loc => 0 <? length loc) (map Md.cleanText pieces))
              (str ", ")
    /\ (forall p, pieces = [p] ->
          Html.extractLocation p = Html.cleanText p
          /\ Md.extractLocation p = Md.cleanText p).
Proof.
  intros pieces H.
  assert (Eh : Html.extractLocation (join pieces BR)
               = join (filter (fun loc => 0 <? length loc)
                              (map Html.cleanText pieces)) (str ", ")).
  { unfold Html.extractLocation, exec, Html.detailsRegex.
    rewrite search_details_join by exact H.
    destruct pieces as [|x a]; [reflexivity|].
    unfold Html.locationsOf, splitRe.
    rewrite splitRe_join; [reflexivity | discriminate | exact H]. }
  assert (Em : Md.extractLocation (join pieces BR)
               = join (filter (fun loc => 0 <? length loc)
                              (map Md.cleanText pieces)) (str ", ")).
  { unfold Md.extractLocation, exec, Md.detailsRegex.
    rewrite search_details_join by exact H.
    destruct pieces as [|x a]; [reflexivity|].
    unfold Md.locationsOf, splitRe. change Md.breakRegex with Html.breakRegex.
    rewrite splitRe_join; [reflexivity | discriminate | exact H]. }
  split; [exact Eh|]. split; [exact Em|].
  intros p ->. cbn [join map filter] in Eh, Em. rewrite Eh, Em.
  split.
  - destruct (Html.cleanText p); reflexivity.
  - destruct (Md.cleanText p); reflexivity.
Qed.

Lemma location_pieces_joined_witness :
  Html.extractLocation (join [str "New York, NY"; str " Remote "; []] BR)
  = join (filter (fun loc => 0 <? length loc)
                 (map Html.cleanText [str "New York, NY"; str " Remote "; []]))
         (str ", ").
Proof.
  refine (proj1 (@location_pieces_joined
                   [str "New York, NY"; str " Remote "; []] _)).
  intros p [<- | [<- | [<- | []]]]; vm_compute; reflexivity.
Defined.

End LocationMore.

(** ** The filter on ASCII text *)

Section FilterMore.
Import Filter Spec More.

Variable toLowerCase : jsstring -> jsstring.
Hypothesis toLowerCase_ascii :
  forall s, forallb isAscii s = true -> toLowerCase s = map lowerAscii s.

Lemma existsb_containsAny (keys : list jsstring) (text : jsstring) :
  existsb (fun key => includes (map lowerAscii text) key) keys = true
  <-> containsAny keys text.
Proof.
  unfold containsAny. rewrite existsb_exists.
  split; intros [key [Hin H]]; exists key; (split; [exact Hin|]);
    apply includes_spec; exact H.
Qed.

Lemma roleMatches_ascii (r : JobRecord) :
  forallb isAscii (role r) = true ->
  roleMatches toLowerCase r
  = existsb (fun key => includes (map lowerAscii (role r)) key) keywordsLower.
Proof.
  intros A. unfold roleMatches, ROLE_KEYWORDS, keywordsLower. cbn [existsb].
  rewrite (toLowerCase_ascii _ A).
  rewrite !toLowerCase_ascii by reflexivity. reflexivity.
Qed.

Lemma locationMatches_ascii (r : JobRecord) :
  forallb isAscii (location r) = true ->
  locationMatches toLowerCase r
  = existsb (fun key => includes (map lowerAscii (location r)) key)
            locationsLower.
Proof.
  intros A. unfold locationMatches, ALLOWED_LOCATIONS, locationsLower.
  cbn [existsb]. rewrite (toLowerCase_ascii _ A).
  rewrite !toLowerCase_ascii by reflexivity. reflexivity.
Qed.

(** X10: what the filter decides on ASCII text.  For a record whose role
    and location are ASCII, the record is kept exactly when its role,
    in lower case, contains "software" or "engineer" and its location,
    in lower case, contains one of "new york", "san francisco",
    "boston", "houston", "remote"; in particular a record with an empty
    role or an empty location is always dropped. *)
Theorem filter_on_ascii_records :
  forall (internships : list JobRecord) (r : JobRecord),
    forallb isAscii (role r) = true ->
    forallb isAscii (location r) = true ->
    (In r (filterInternships toLowerCase internships)
     <-> In r internships
         /\ containsAny keywordsLower (role r)
         /\ containsAny locationsLower (location r))
    /\ (role r = [] \/ location r = [] ->
        ~ In r (filterInternships toLowerCase internships)).
Proof.
  intros internships r Ar Al.
  assert (E : In r (filterInternships toLowerCase internships)
              <-> In r internships
                  /\ containsAny keywordsLower (role r)
                  /\ containsAny locationsLower (location r)).
  { unfold filterInternships. rewrite filter_In, andb_true_iff.
    rewrite (roleMatches_ascii _ Ar), (locationMatches_ascii _ Al).
    rewrite !existsb_containsAny. reflexivity. }
  split; [exact E|].
  intros H Hin. apply E in Hin. destruct Hin as [_ [Hr Hl]].
  apply existsb_containsAny in Hr, Hl.
  destruct H as [H | H]; rewrite H in *; discriminate.
Qed.

End FilterMore.

Lemma filter_on_ascii_records_witness :
  let r := mkJob (str "Acme") (str "Data Engineering Intern")
                 (str "Remote in USA") (str "https://acme.co/a") []
                 (str "GitHub") in
  In r (Filter.filterInternships (map Filter.lowerAscii) [r])
  <-> In r [r]
      /\ More.containsAny More.keywordsLower (role r)
      /\ More.containsAny More.locationsLower (location r).
Proof.
  intros r.
  exact (proj1 (@filter_on_ascii_records (map Filter.lowerAscii)
                  (fun s _ => eq_refl) [r] r eq_refl eq_refl)).
Defined.

(** ** Success of the matcher, and the company cell *)

Section MatcherMore.
Variables A B : Type.

(** Success only depends on where the continuation succeeds. *)
Lemma star_succeeds_mono (p : Z -> bool) (g : bool)
      (k : cont A) (k' : cont B) :
  (forall pos rest caps caps',
      k pos rest caps <> None -> k' pos rest caps' <> None) ->
  forall rest pos caps caps',
    star p g pos rest caps k <> None -> star p g pos rest caps' k' <> None.
Proof.
  intros M. induction rest as [|c t IH]; intros pos caps caps';
    cbn [star]; [apply M|].
  destruct (p c); [|apply M].
  destruct g; cbv iota.
  - destruct (star p true (S pos) t caps k) eqn:E.
    + intros _.
      assert (N : star p true (S pos) t caps' k' <> None)
        by (apply (IH (S pos) caps caps'); rewrite E; discriminate).
      destruct (star p true (S pos) t caps' k'); [discriminate|contradiction].
    + intros H. destruct (star p true (S pos) t caps' k'); [discriminate|].
      apply (M _ _ _ caps' H).
  - destruct (k pos (c :: t) caps) eqn:E.
    + intros _.
      assert (N : k' pos (c :: t) caps' <> None)
        by (apply (M pos (c :: t) caps caps'); rewrite E; discriminate).
      destruct (k' pos (c :: t) caps'); [discriminate|contradiction].
    + intros H. destruct (k' pos (c :: t) caps'); [discriminate|].
      apply (IH _ _ caps' H).
Qed.

Lemma run_succeeds_mono (r : regex) :
  forall (k : cont A) (k' : cont B),
    (forall pos rest caps caps',
        k pos rest caps <> None -> k' pos rest caps' <> None) ->
    forall pos rest caps caps',
      run r pos rest caps k <> None -> run r pos rest caps' k' <> None.
Proof.
  induction r as [| |p|p g|a IHa b IHb|a IHa b IHb|n a IHa];
    intros k k' M pos rest caps caps'; cbn [run].
  - apply M.
  - destruct pos; [apply M | auto].
  - destruct rest as [|c t]; [auto|]. destruct (p c); [apply M | auto].
  - apply star_succeeds_mono. exact M.
  - apply IHa. intros pos' rest' c1 c2. apply IHb. exact M.
  - destruct (run a pos rest caps k) eqn:E.
    + intros _.
      assert (N : run a pos rest caps' k' <> None)
        by (apply (IHa k k' M pos rest caps caps'); rewrite E; discriminate).
      destruct (run a pos rest caps' k'); [discriminate|contradiction].
    + intros H. destruct (run a pos rest caps' k'); [discriminate|].
      apply (IHb k k' M pos rest caps caps' H).
  - apply IHa. intros pos' rest' c1 c2. apply M.
Qed.

End MatcherMore.

Section ReachMore.
Variable A : Type.

(** A successful run ends in a call of the continuation further on in
    the input. *)
Lemma star_reaches (p : Z -> bool) (g : bool) (k : cont A) :
  forall rest pos caps,
    star p g pos rest caps k <> None ->
    exists n caps', n <= length rest
                    /\ k (n + pos) (skipn n rest) caps' <> None.
Proof.
  induction rest as [|c t IH]; intros pos caps; cbn [star].
  - intros H. exists 0, caps. split; [lia | exact H].
  - assert (Here : k pos (c :: t) caps <> None ->
                   exists n caps', n <= length (c :: t)
                     /\ k (n + pos) (skipn n (c :: t)) caps' <> None).
    { intros H. exists 0, caps. split; [cbn; lia | exact H]. }
    assert (There : star p g (S pos) t caps k <> None ->
                    exists n caps', n <= length (c :: t)
                      /\ k (n + pos) (skipn n (c :: t)) caps' <> None).
    { intros H. destruct (IH _ _ H) as [n [caps' [L K]]].
      exists (S n), caps'. split; [cbn; lia|].
      cbn [skipn]. replace (S n + pos) with (n + S pos) by lia. exact K. }
    destruct (p c); [|exact Here]. destruct g; cbv iota.
    + intros H.
      destruct (star p true (S pos) t caps k);
        [apply There; discriminate | apply Here; exact H].
    + intros H.
      destruct (k pos (c :: t) caps);
        [apply Here; discriminate | apply There; exact H].
Qed.

Lemma run_reaches (r : regex) :
  forall (k : cont A) pos rest caps,
    run r pos rest caps k <> None ->
    exists n caps', n <= length rest
                    /\ k (n + pos) (skipn n rest) caps' <> None.
Proof.
  induction r as [| |p|p g|a IHa b IHb|a IHa b IHb|m a IHa];
    intros k pos rest caps; cbn [run].
  - intros H. exists 0, caps. split; [lia | exact H].
  - destruct pos; [|intros H; contradiction].
    intros H. exists 0, caps. split; [lia | exact H].
  - destruct rest as [|c t]; [intros H; contradiction|].
    destruct (p c); [|intros H; contradiction].
    intros H. exists 1, caps. split; [cbn; lia | exact H].
  - apply star_reaches.
  - intros H. apply IHa in H. destruct H as [n [c1 [L H]]].
    apply IHb in H. destruct H as [n' [c2 [L' H]]].
    rewrite length_skipn in L'.
    exists (n' + n), c2. split; [lia|].
    rewrite <- skipn_skipn. replace (n' + n + pos) with (n' + (n + pos)) by lia.
    exact H.
  - destruct (run a pos rest caps k) eqn:E.
    + intros _. apply IHa with (caps := caps). rewrite E. discriminate.
    + apply IHb.
  - intros H. apply IHa in H. destruct H as [n [c1 [L H]]].
    exists n. eexists. split; [exact L | exact H].
Qed.

(** A sequence that succeeds has a first part that succeeds on its
    own. *)
Lemma run_seqs_prefix (xs ys : list regex) (k : cont A) :
  forall pos rest caps caps' (k0 : cont A),
    (forall pos rest caps, k0 pos rest caps <> None) ->
    run (seqs (xs ++ ys)) pos rest caps k <> None ->
    run (seqs xs) pos rest caps' k0 <> None.
Proof.
  induction xs as [|x xs IH]; intros pos rest caps caps' k0 T.
  - intros _. apply T.
  - cbn [app]. rewrite !run_seqs_cons. apply run_succeeds_mono.
    intros pos' rest' c1 c2. apply IH. exact T.
Qed.

End ReachMore.

Section CompanyMore.
Import Spec More.

Lemma search_finds (r : regex) (rest : jsstring) :
  forall pos n,
    n <= length rest ->
    execAt r (n + pos) (skipn n rest) <> None ->
    search r pos rest <> None.
Proof.
  induction rest as [|c t IH]; intros pos n L H.
  - cbn in L. assert (n = 0) by lia. subst n. cbn [search].
    cbn in H. destruct (execAt r pos []); [discriminate | contradiction].
  - cbn [search]. destruct (execAt r pos (c :: t)) eqn:E; [discriminate|].
    destruct n as [|n].
    + cbn in H. rewrite E in H. contradiction.
    + apply (IH (S pos) n); [cbn in L; lia|].
      cbn [skipn] in H. replace (n + S pos) with (S n + pos) by lia. exact H.
Qed.

Lemma search_found (r : regex) (rest : jsstring) :
  forall pos,
    search r pos rest <> None ->
    exists n, n <= length rest
              /\ execAt r (n + pos) (skipn n rest) <> None.
Proof.
  induction rest as [|c t IH]; intros pos; cbn [search].
  - intros H. exists 0. split; [lia|]. cbn.
    destruct (execAt r pos []); [discriminate | contradiction].
  - destruct (execAt r pos (c :: t)) eqn:E.
    + intros _. exists 0. split; [lia|]. cbn. rewrite E. discriminate.
    + intros H. destruct (IH _ H) as [n [L K]].
      exists (S n). split; [cbn; lia|]. cbn [skipn].
      replace (S n + pos) with (n + S pos) by lia. exact K.
Qed.

(** Where the [<strong>] pattern matches, the anchor pattern, which is a
    part of it, matches too. *)
Lemma strong_needs_anchor (cell : jsstring) :
  exec Html.anchorTextRegex cell = None -> exec Html.strongRegex cell = None.
Proof.
  intros N. destruct (exec Html.strongRegex cell) as [m|] eqn:E;
    [|reflexivity].
  exfalso.
  assert (S : search Html.strongRegex 0 cell <> None)
    by (unfold exec in E; rewrite E; discriminate).
  apply search_found in S. destruct S as [n [L S]].
  unfold execAt, Html.strongRegex in S.
  rewrite run_seqs_cons in S. apply run_reaches in S.
  destruct S as [n1 [c1 [L1 S]]].
  rewrite run_seqs_cons in S. apply run_reaches in S.
  destruct S as [n2 [c2 [L2 S]]].
  rewrite run_seqs_cons in S. apply run_reaches in S.
  destruct S as [n3 [c3 [L3 S]]].
  rewrite run_seqs_cons in S. apply run_reaches in S.
  destruct S as [n4 [c4 [L4 S]]].
  rewrite !length_skipn in *. rewrite !skipn_skipn in S.
  change (seqs
            [litI (str "<a"); Star (isNot (ch ">")) greedy; litI (str ">");
             Grp 1 (Plus (isNot (ch "<")) greedy); litI (str "</a>");
             Star anyChar lazy; litI (str "</strong>")])
    with (seqs ([litI (str "<a"); Star (isNot (ch ">")) greedy;
                 litI (str ">"); Grp 1 (Plus (isNot (ch "<")) greedy);
                 litI (str "</a>")]
                ++ [Star anyChar lazy; litI (str "</strong>")])) in S.
  set (q := n4 + (n3 + (n2 + (n1 + (n + 0))))) in S.
  set (i := n4 + n3 + n2 + n1 + n) in S.
  apply (@run_seqs_prefix _ _ _ _ q (skipn i cell) c4 []
           (fun pos' _ caps =>
              Some (mkResult pos' (firstn (pos' - q) (skipn i cell)) caps)))
    in S; [|discriminate].
  assert (F : search Html.anchorTextRegex 0 cell <> None).
  { apply (@search_finds Html.anchorTextRegex cell 0 i).
    - unfold i. lia.
    - unfold execAt, Html.anchorTextRegex.
      replace (i + 0) with q by (unfold i, q; lia). exact S. }
  unfold exec in N. contradiction.
Qed.

(** X11: the [<strong>] case of the HTML [extractCompanyName] is never
    taken.  The company is the marker when the trimmed cell is the
    marker, else the cleaned text of the first anchor with a non-empty
    text, else the cleaned cell: whenever the anchor pattern finds
    nothing, the [<strong>] pattern finds nothing either. *)
Theorem html_company_without_strong_case :
  forall cell : jsstring,
    Html.extractCompanyName cell
    = if eqb (trim cell) ARROW then ARROW
      else match exec Html.anchorTextRegex cell with
           | Some linkMatch => Html.cleanText (group 1 linkMatch)
           | None => Html.cleanText cell
           end.
Proof.
  intros cell. unfold Html.extractCompanyName.
  destruct (eqb (trim cell) ARROW); [reflexivity|].
  destruct (exec Html.anchorTextRegex cell) eqn:E; [reflexivity|].
  rewrite (strong_needs_anchor _ E). reflexivity.
Qed.

End CompanyMore.

(** ** The cells of a Markdown row *)

Section CellsMore.
Import Spec More.

Lemma splitGo_piece (p rest : jsstring) :
  lacks [BAR] p = true ->
  splitGo [BAR] 0 (p ++ BAR :: rest) = p :: splitGo [BAR] 0 rest.
Proof.
  induction p as [|c t IH]; intros H.
  - cbn [app splitGo startsWith]. rewrite Z.eqb_refl. reflexivity.
  - apply lacks_cons in H. destruct H as [H T]. cbn [app splitGo].
    rewrite startsWith_other by (apply H; left; reflexivity).
    rewrite (IH T). reflexivity.
Qed.

Lemma lacks_app (xs : list Z) (a b : jsstring) :
  lacks xs a = true -> lacks xs b = true -> lacks xs (a ++ b) = true.
Proof.
  unfold lacks. rewrite forallb_app. intros -> ->. reflexivity.
Qed.

Lemma split_bar (cells : list jsstring) :
  (forall c, In c cells -> lacks [BAR] c = true) ->
  splitGo [BAR] 0
          (concat (map (fun c => str " " ++ c ++ str " |") cells))
  = map (fun c => 32%Z :: c ++ [32%Z]) cells ++ [[]].
Proof.
  induction cells as [|c cells IH]; intros H; [reflexivity|].
  cbn [map concat].
  change (str " " ++ c ++ str " |") with (32%Z :: c ++ [32%Z; BAR]).
  replace ((32%Z :: c ++ [32%Z; BAR])
           ++ concat (map (fun c0 => str " " ++ c0 ++ str " |") cells))
    with ((32%Z :: c ++ [32%Z])
          ++ BAR :: concat (map (fun c0 => str " " ++ c0 ++ str " |") cells)).
  - rewrite splitGo_piece.
    + rewrite IH by (intros x Hx; apply H; right; exact Hx). reflexivity.
    + change (32%Z :: c ++ [32%Z]) with ([32%Z] ++ c ++ [32%Z]).
      apply lacks_app; [reflexivity|].
      apply lacks_app; [apply H; left; reflexivity | reflexivity].
  - cbn [app]. f_equal. rewrite <- !app_assoc. reflexivity.
Qed.

Lemma trimEnd_space (s : jsstring) (w : Z) :
  isSpace w = true -> trimEnd (trimStart (s ++ [w])) = trimEnd (trimStart s).
Proof.
  intros W. induction s as [|c t IH].
  - cbn [app trimStart]. rewrite W. reflexivity.
  - cbn [app trimStart]. destruct (isSpace c); [exact IH|].
    unfold trimEnd. change (c :: t ++ [w]) with ((c :: t) ++ [w]).
    rewrite rev_app_distr. cbn [rev app trimStart]. rewrite W. reflexivity.
Qed.

Lemma trim_wrapped (c : jsstring) : trim (32%Z :: c ++ [32%Z]) = trim c.
Proof.
  unfold trim. change (trimStart (32%Z :: c ++ [32%Z]))
    with (trimStart (c ++ [32%Z])).
  apply trimEnd_space. reflexivity.
Qed.

(** X12: the cells of a Markdown row, and what an empty cell does.  For
    cells that contain no bar, the row written [| c1 | c2 | ... |] is
    read back as the trimmed cells without the empty ones: a cell that
    is blank is dropped, so that the cells after it move one column to
    the left. *)
Theorem markdown_cells_of_row :
  forall cells : list jsstring,
    (forall c, In c cells -> lacks [BAR] c = true) ->
    Md.cellsOf (Sample.bar cells)
    = filter (fun cell => 0 <? length cell) (map trim cells).
Proof.
  intros cells H. unfold Md.cellsOf.
  change (split (Sample.bar cells) (str "|"))
    with (splitGo [BAR] 0
            ([] ++ BAR :: concat (map (fun c => str " " ++ c ++ str " |")
                                      cells))).
  rewrite splitGo_piece by reflexivity.
  rewrite (split_bar _ H). cbn [map filter length Nat.ltb Nat.leb].
  rewrite map_app, filter_app. cbn [map filter trim trimStart trimEnd rev
                                     length Nat.ltb Nat.leb app].
  rewrite app_nil_r, map_map. f_equal.
  apply map_ext. intros c. apply trim_wrapped.
Qed.

Lemma markdown_cells_of_row_witness :
  Md.cellsOf (Sample.bar [str "Acme"; str " "; str "Remote"; str "x"; str "y"])
  = filter (fun cell => 0 <? length cell)
           (map trim [str "Acme"; str " "; str "Remote"; str "x"; str "y"]).
Proof.
  apply markdown_cells_of_row.
  intros c [<- | [<- | [<- | [<- | [<- | []]]]]]; vm_compute; reflexivity.
Defined.

End CellsMore.

(** ** Cells that hold one link *)

Section GreedyMore.
Import Spec More.
Variable A : Type.

(** A greedy star over [[^x]] takes everything before the first [x] when
    what follows in the pattern matches there. *)
Lemma star_greedy_stop (x : Z) (body rest : jsstring) (k : cont A) (a : A) :
  lacks [x] body = true ->
  forall pos caps,
    k (length body + pos) (x :: rest) caps = Some a ->
    star (isNot x) greedy pos (body ++ x :: rest) caps k = Some a.
Proof.
  induction body as [|c t IH]; intros H pos caps K; cbn [app star].
  - unfold isNot. rewrite Z.eqb_refl. exact K.
  - apply lacks_cons in H. destruct H as [H T].
    assert (N : isNot x c = true).
    { unfold isNot. apply negb_true_iff, Z.eqb_neq. apply H. left. reflexivity. }
    rewrite N. cbn [greedy]. rewrite (IH T (S pos) caps); [reflexivity|].
    replace (length t + S pos) with (length (c :: t) + pos) by (cbn; lia).
    exact K.
Qed.

Lemma run_plus_until (x : Z) (body rest : jsstring) (k : cont A) (a : A) :
  body <> [] -> lacks [x] body = true ->
  forall pos caps,
    k (length body + pos) (x :: rest) caps = Some a ->
    run (Plus (isNot x) greedy) pos (body ++ x :: rest) caps k = Some a.
Proof.
  intros N H pos caps K. destruct body as [|c t]; [contradiction|].
  apply lacks_cons in H. destruct H as [H T].
  assert (Nc : isNot x c = true).
  { unfold isNot. apply negb_true_iff, Z.eqb_neq. apply H. left. reflexivity. }
  unfold Plus. cbn [run app]. rewrite Nc.
  apply star_greedy_stop; [exact T|].
  replace (length t + S pos) with (length (c :: t) + pos) by (cbn; lia).
  exact K.
Qed.

Lemma firstn_exact (body rest : jsstring) (pos : nat) :
  firstn (length body + pos - pos) (body ++ rest) = body.
Proof.
  replace (length body + pos - pos) with (length body + 0) by lia.
  rewrite firstn_app_2. cbn. apply app_nil_r.
Qed.

Lemma run_group_until (n : nat) (x : Z) (body rest : jsstring) (k : cont A)
      (a : A) :
  body <> [] -> lacks [x] body = true ->
  forall pos caps,
    k (length body + pos) (x :: rest) ((n, body) :: caps) = Some a ->
    run (Grp n (Plus (isNot x) greedy)) pos (body ++ x :: rest) caps k
    = Some a.
Proof.
  intros N H pos caps K. cbn [run].
  apply run_plus_until; [exact N | exact H|]. rewrite firstn_exact. exact K.
Qed.

End GreedyMore.

Section LinkCellMore.
Import Spec More.

Lemma lacks_includes (x : Z) (p s : jsstring) :
  lacks [x] s = true -> includes s (x :: p) = false.
Proof.
  induction s as [|c t IH]; intros H; [reflexivity|].
  apply lacks_cons in H. destruct H as [H T]. cbn [includes].
  rewrite startsWith_other by (apply H; left; reflexivity).
  apply (IH T).
Qed.

(** A pattern that begins with a literal [<] finds nothing in a text
    without [<]. *)
Lemma search_litI_none (p : jsstring) (rs : list regex) (s : jsstring) :
  lacks [LT] s = true ->
  forall pos, search (seqs (litI (LT :: p) :: rs)) pos s = None.
Proof.
  assert (E0 : forall pos, execAt (seqs (litI (LT :: p) :: rs)) pos [] = None).
  { intros pos. unfold execAt. rewrite run_seqs_cons. apply run_litI_nil. }
  induction s as [|c t IH]; intros H pos; cbn [search].
  - rewrite E0. reflexivity.
  - apply lacks_cons in H. destruct H as [H T].
    assert (E : execAt (seqs (litI (LT :: p) :: rs)) pos (c :: t) = None).
    { unfold execAt. rewrite run_seqs_cons, run_litI_cons.
      rewrite isCI_neq; [reflexivity | reflexivity | left; reflexivity|].
      apply H. left. reflexivity. }
    rewrite E. apply (IH T).
Qed.

Lemma lacks_one (x : Z) (xs : list Z) (s : jsstring) :
  In x xs -> lacks xs s = true -> lacks [x] s = true.
Proof.
  intros H. apply lacks_incl. intros y [<- | []]. exact H.
Qed.

Lemma mdLinkCell_lacks (x : Z) (text url : jsstring) :
  lacks [x] text = true -> lacks [x] url = true ->
  lacks [x] (str "[]()") = true ->
  lacks [x] (mdLinkCell text url) = true.
Proof.
  intros T U P. unfold mdLinkCell.
  assert (P1 : lacks [x] (str "[") = true /\ lacks [x] (str "](") = true
               /\ lacks [x] (str ")") = true).
  { unfold lacks in *. cbn [str map String.list_ascii_of_string forallb] in *.
    repeat (apply andb_true_iff in P; destruct P as [? P]).
    repeat split; repeat (apply andb_true_iff; split); auto. }
  destruct P1 as [P1 [P2 P3]].
  repeat (apply lacks_app; try assumption).
Qed.

Lemma md_link_match (text url : jsstring) :
  text <> [] -> url <> [] ->
  lacks [ch "]"] text = true -> lacks [ch ")"] url = true ->
  (exists m, exec Md.mdLinkUrlRegex (mdLinkCell text url) = Some m
             /\ group 2 m = url)
  /\ (exists m, exec Md.mdLinkRegex (mdLinkCell text url) = Some m
                /\ group 1 m = text).
Proof.
  intros Nt Nu Lt Lu.
  assert (S : forall r m, execAt r 0 (mdLinkCell text url) = Some m ->
                          exec r (mdLinkCell text url) = Some m).
  { intros r m E. unfold exec.
    destruct (mdLinkCell text url); cbn [search]; rewrite E; reflexivity. }
  assert (C : mdLinkCell text url
              = ch "[" :: text ++ ch "]" :: ch "(" :: url ++ ch ")" :: [])
    by reflexivity.
  split.
  - eexists. split.
    + apply S. rewrite C. unfold execAt, Md.mdLinkUrlRegex.
      rewrite run_seqs_cons, run_lit.
      change (startsWith (ch "[" :: text ++ ch "]" :: ch "(" :: url ++ [ch ")"])
                         (str "[")) with true. cbv iota.
      change (skipn (length (str "["))
                (ch "[" :: text ++ ch "]" :: ch "(" :: url ++ [ch ")"]))
        with (text ++ ch "]" :: ch "(" :: url ++ [ch ")"]).
      rewrite run_seqs_cons.
      apply run_group_until; [exact Nt | exact Lt |].
      rewrite run_seqs_cons, run_lit.
      change (startsWith (ch "]" :: ch "(" :: url ++ [ch ")"]) (str "]("))
        with true. cbv iota.
      change (skipn (length (str "](")) (ch "]" :: ch "(" :: url ++ [ch ")"]))
        with (url ++ [ch ")"]).
      rewrite run_seqs_cons.
      apply run_group_until; [exact Nu | exact Lu |].
      change (seqs [lit (str ")")]) with (lit (str ")")).
      rewrite run_lit. reflexivity.
    + reflexivity.
  - eexists. split.
    + apply S. rewrite C. unfold execAt, Md.mdLinkRegex.
      rewrite run_seqs_cons, run_lit.
      change (startsWith (ch "[" :: text ++ ch "]" :: ch "(" :: url ++ [ch ")"])
                         (str "[")) with true. cbv iota.
      change (skipn (length (str "["))
                (ch "[" :: text ++ ch "]" :: ch "(" :: url ++ [ch ")"]))
        with (text ++ ch "]" :: ch "(" :: url ++ [ch ")"]).
      rewrite run_seqs_cons.
      apply run_group_until; [exact Nt | exact Lt |].
      rewrite run_seqs_cons, run_lit.
      change (startsWith (ch "]" :: ch "(" :: url ++ [ch ")"]) (str "]("))
        with true. cbv iota.
      change (skipn (length (str "](")) (ch "]" :: ch "(" :: url ++ [ch ")"]))
        with (url ++ [ch ")"]).
      rewrite run_seqs_cons.
      apply run_plus_until; [exact Nu | exact Lu |].
      change (seqs [lit (str ")")]) with (lit (str ")")).
      rewrite run_lit. reflexivity.
    + reflexivity.
Qed.

(** X13: a cell that is one Markdown link is read back.  For a text
    without a closing bracket and a target without a closing
    parenthesis, both non-empty and free of [<] and of the lock, the
    Markdown revision extracts from the cell [[text](target)] the target
    cut at [?utm_source] as link, and the cleaned text as company. *)
Theorem markdown_link_cell_read_back :
  forall text url : jsstring,
    text <> [] -> url <> [] ->
    lacks [ch "]"; LT; 0xD83D%Z] text = true ->
    lacks [ch ")"; LT; 0xD83D%Z] url = true ->
    Md.extractApplicationLink (mdLinkCell text url) = beforeFirst TRACKING url
    /\ Md.extractCompanyName (mdLinkCell text url) = Md.cleanText text.
Proof.
  intros text url Nt Nu Ht Hu.
  assert (L : forall x, In x [LT; 0xD83D%Z] ->
                        lacks [x] (mdLinkCell text url) = true).
  { intros x Hx. apply mdLinkCell_lacks.
    - eapply lacks_one; [|exact Ht]. right. exact Hx.
    - eapply lacks_one; [|exact Hu]. right. exact Hx.
    - destruct Hx as [<- | [<- | []]]; reflexivity. }
  assert (Lt1 : lacks [ch "]"] text = true)
    by (eapply lacks_one; [|exact Ht]; left; reflexivity).
  assert (Lu1 : lacks [ch ")"] url = true)
    by (eapply lacks_one; [|exact Hu]; left; reflexivity).
  destruct (@md_link_match text url Nt Nu Lt1 Lu1)
    as [[m [E G]] [m1 [E1 G1]]].
  split.
  - unfold Md.extractApplicationLink.
    change LOCK with (0xD83D%Z :: [0xDD12%Z]).
    rewrite lacks_includes by (apply L; cbn; auto).
    unfold exec at 1, Md.hrefRegex. change (str "<a") with (LT :: str "a").
    rewrite search_litI_none by (apply L; cbn; auto).
    rewrite E, G. apply hd_split. discriminate.
  - unfold Md.extractCompanyName.
    assert (T : eqb (trim (mdLinkCell text url)) ARROW = false).
    { rewrite trim_fixed.
      - reflexivity.
      - reflexivity.
      - unfold mdLinkCell. change (str ")") with [ch ")"].
        rewrite !app_assoc, last_last. reflexivity. }
    rewrite T. unfold exec at 1, Md.anchorTextRegex.
    change (str "<a") with (LT :: str "a").
    rewrite search_litI_none by (apply L; cbn; auto).
    rewrite E1, G1. reflexivity.
Qed.

Lemma markdown_link_cell_witness :
  Md.extractApplicationLink
    (mdLinkCell (str "Apply") (str "https://acme.co/apply?utm_source=x"))
  = beforeFirst TRACKING (str "https://acme.co/apply?utm_source=x")
  /\ Md.extractCompanyName
       (mdLinkCell (str "Apply") (str "https://acme.co/apply?utm_source=x"))
     = Md.cleanText (str "Apply").
Proof.
  apply markdown_link_cell_read_back;
    [discriminate | discriminate | reflexivity | reflexivity].
Defined.

End LinkCellMore.

Section AnchorCellMore.
Import Spec More.

Lemma isCI_refl (x : Z) : isCI x x = true.
Proof. unfold isCI. apply Z.eqb_refl. Qed.

Lemma run_litI_prefix (A : Type) (s : jsstring) :
  forall pos rest caps (k : cont A),
    run (litI s) pos (s ++ rest) caps k = k (length s + pos) rest caps.
Proof.
  induction s as [|x s IH]; intros pos rest caps k; [reflexivity|].
  cbn [app]. rewrite run_litI_cons, isCI_refl, IH. cbn [length].
  f_equal. lia.
Qed.

Lemma anchor_shape (href text : jsstring) :
  Sample.anchor href text
  = str "<a" ++ (str " href=" ++ [DQUOTE] ++ href ++ [DQUOTE])
    ++ GT :: text ++ LT :: str "/a>"
  /\ Sample.anchor href text
     = str "<a" ++ 32%Z :: (str "href=" ++ [DQUOTE]) ++ href
       ++ DQUOTE :: (str ">" ++ text ++ str "</a>").
Proof.
  unfold Sample.anchor. split.
  - rewrite <- !app_assoc. reflexivity.
  - rewrite <- !app_assoc. reflexivity.
Qed.

Lemma html_anchor_text_match (href text : jsstring) :
  text <> [] -> lacks [GT] href = true -> lacks [LT] text = true ->
  exists m, exec Html.anchorTextRegex (Sample.anchor href text) = Some m
            /\ group 1 m = text.
Proof.
  intros Nt Lh Lt.
  assert (S : forall r m, execAt r 0 (Sample.anchor href text) = Some m ->
                          exec r (Sample.anchor href text) = Some m).
  { intros r m E. unfold exec.
    destruct (Sample.anchor href text); cbn [search]; rewrite E; reflexivity. }
  eexists. split.
  - apply S. rewrite (proj1 (anchor_shape href text)).
    unfold execAt, Html.anchorTextRegex.
    rewrite run_seqs_cons, run_litI_prefix, run_seqs_cons. cbn [run].
    apply star_greedy_stop.
    + change (str " href=" ++ [DQUOTE] ++ href ++ [DQUOTE])
        with ((str " href=" ++ [DQUOTE]) ++ href ++ [DQUOTE]).
      apply lacks_app; [reflexivity|].
      apply lacks_app; [exact Lh | reflexivity].
    + rewrite run_seqs_cons.
      change (GT :: text ++ LT :: str "/a>")
        with (str ">" ++ text ++ LT :: str "/a>").
      rewrite run_litI_prefix, run_seqs_cons.
      apply run_group_until; [exact Nt | exact Lt |].
      change (seqs [litI (str "</a>")]) with (litI (str "</a>")).
      change (LT :: str "/a>") with (str "</a>" ++ []).
      rewrite run_litI_prefix. reflexivity.
  - reflexivity.
Qed.

Lemma star_stops (A : Type) (p : Z -> bool) (g : bool) (pos : nat) (c : Z)
      (t : jsstring) (caps : captures) (k : cont A) :
  p c = false -> star p g pos (c :: t) caps k = k pos (c :: t) caps.
Proof. intros H. cbn [star]. rewrite H. reflexivity. Qed.

Lemma html_href_match (href : jsstring) (rest : jsstring) :
  href <> [] -> lacks [DQUOTE] href = true ->
  exists m,
    execAt Html.hrefRegex 0
           (str "<a" ++ 32%Z :: (str "href=" ++ [DQUOTE]) ++ href
            ++ DQUOTE :: rest) = Some m
    /\ group 1 m = href /\ m_end m = 10 + length href.
Proof.
  intros Nh Lh. eexists. split; [|split].
  - unfold execAt, Html.hrefRegex.
    rewrite run_seqs_cons, run_litI_prefix, run_seqs_cons.
    unfold Plus at 1. cbn [run]. change (space 32%Z) with true. cbv iota.
    change ((str "href=" ++ [DQUOTE]) ++ href ++ DQUOTE :: rest)
      with (104%Z :: (str "ref=" ++ [DQUOTE]) ++ href ++ DQUOTE :: rest).
    rewrite star_stops by reflexivity.
    change (104%Z :: (str "ref=" ++ [DQUOTE]) ++ href ++ DQUOTE :: rest)
      with ((str "href=" ++ [DQUOTE]) ++ href ++ DQUOTE :: rest).
    rewrite run_seqs_cons, run_litI_prefix, run_seqs_cons.
    apply run_group_until; [exact Nh | exact Lh |].
    change (seqs [litI [DQUOTE]]) with (litI [DQUOTE]).
    change (DQUOTE :: rest) with ([DQUOTE] ++ rest).
    rewrite run_litI_prefix. reflexivity.
  - reflexivity.
  - cbn [m_end length str map String.list_ascii_of_string app]. lia.
Qed.

Lemma scanGo_hit (r : regex) (pos : nat) (c : Z) (t : jsstring) (m : result) :
  execAt r pos (c :: t) = Some m ->
  scanGo r pos 0 (c :: t) = m :: scanGo r (S pos) (m_end m - pos - 1) t.
Proof. intros E. cbn [scanGo]. rewrite E. reflexivity. Qed.

Lemma scanGo_miss (r : regex) (pos : nat) (c : Z) (t : jsstring) :
  execAt r pos (c :: t) = None ->
  scanGo r pos 0 (c :: t) = scanGo r (S pos) 0 t.
Proof. intros E. cbn [scanGo]. rewrite E. reflexivity. Qed.

Lemma scanGo_skip (r : regex) (a b : jsstring) :
  forall pos, scanGo r pos (length a) (a ++ b) = scanGo r (length a + pos) 0 b.
Proof.
  induction a as [|c t IH]; intros pos; [reflexivity|].
  cbn [length app scanGo]. rewrite IH. f_equal. lia.
Qed.

Lemma execAt_litI_none (p : jsstring) (rs : list regex) (pos : nat) (c : Z)
      (t : jsstring) :
  c <> LT -> execAt (seqs (litI (LT :: p) :: rs)) pos (c :: t) = None.
Proof.
  intros H. unfold execAt. rewrite run_seqs_cons, run_litI_cons.
  rewrite isCI_neq; [reflexivity | reflexivity | left; reflexivity | exact H].
Qed.

Lemma scanGo_plain (p : jsstring) (rs : list regex) (s rest : jsstring) :
  lacks [LT] s = true ->
  forall pos,
    scanGo (seqs (litI (LT :: p) :: rs)) pos 0 (s ++ rest)
    = scanGo (seqs (litI (LT :: p) :: rs)) (length s + pos) 0 rest.
Proof.
  induction s as [|c t IH]; intros H pos; [reflexivity|].
  apply lacks_cons in H. destruct H as [H T]. cbn [app scanGo].
  rewrite execAt_litI_none by (apply H; left; reflexivity).
  rewrite (IH T). cbn [length]. f_equal. lia.
Qed.

Lemma scanGo_after_anchor (text : jsstring) (pos : nat) :
  lacks [LT] text = true ->
  scanGo Html.hrefRegex pos 0 (str ">" ++ text ++ str "</a>") = [].
Proof.
  intros Lt. unfold Html.hrefRegex. change (str "<a") with (LT :: str "a").
  rewrite app_assoc, scanGo_plain
    by (apply lacks_app; [reflexivity | exact Lt]).
  change (str "</a>") with (LT :: ch "/" :: str "a>" ++ []).
  assert (E : forall q t, execAt (seqs (litI (LT :: str "a")
                :: [Plus space greedy; litI (str "href=" ++ [DQUOTE]);
                    Grp 1 (Plus (isNot DQUOTE) greedy); litI [DQUOTE]]))
                q (LT :: ch "/" :: t) = None).
  { intros q t. unfold execAt. rewrite run_seqs_cons, !run_litI_cons.
    rewrite isCI_refl. reflexivity. }
  rewrite scanGo_miss by apply E.
  change (ch "/" :: str "a>" ++ []) with (str "/a>" ++ []).
  rewrite scanGo_plain by reflexivity. cbn [scanGo].
  unfold execAt. rewrite run_seqs_cons, run_litI_nil. reflexivity.
Qed.

(** X14: a cell that is one anchor is read back.  For an [href] without
    a double quote or [>] and a text without [<], both non-empty, the
    HTML revision extracts from the cell [<a href=Q href Q>text</a>]
    (Q the double quote) the cleaned text as company; as link it
    extracts the [href] cut at [?utm_source] when the [href] does not
    contain [simplify.jobs], and the [href] as it is written when it
    does. *)
Theorem html_anchor_cell_read_back :
  forall href text : jsstring,
    href <> [] -> text <> [] ->
    lacks [DQUOTE; GT] href = true ->
    lacks [LT] text = true ->
    Html.extractCompanyName (Sample.anchor href text) = Html.cleanText text
    /\ Html.extractApplicationLink (Sample.anchor href text)
       = if isDirect href then beforeFirst TRACKING href else href.
Proof.
  intros href text Nh Nt Hh Ht.
  assert (Lq : lacks [DQUOTE] href = true)
    by (eapply lacks_one; [|exact Hh]; left; reflexivity).
  assert (Lg : lacks [GT] href = true)
    by (eapply lacks_one; [|exact Hh]; right; left; reflexivity).
  split.
  - unfold Html.extractCompanyName.
    assert (T : eqb (trim (Sample.anchor href text)) ARROW = false).
    { rewrite trim_fixed.
      - reflexivity.
      - reflexivity.
      - unfold Sample.anchor. change (str "</a>") with (str "</a" ++ [GT]).
        rewrite !app_assoc, last_last. reflexivity. }
    rewrite T.
    destruct (@html_anchor_text_match href text Nt Lg Ht) as [m [E G]].
    rewrite E, G. reflexivity.
  - unfold Html.extractApplicationLink, exec, matchAll.
    rewrite (proj2 (anchor_shape href text)).
    destruct (@html_href_match href (str ">" ++ text ++ str "</a>") Nh Lq)
      as [m [E [G M]]].
    assert (Sc : scanGo Html.hrefRegex 0 0
                   (str "<a" ++ 32%Z :: (str "href=" ++ [DQUOTE]) ++ href
                    ++ DQUOTE :: (str ">" ++ text ++ str "</a>")) = [m]).
    { change (str "<a" ++ 32%Z :: (str "href=" ++ [DQUOTE]) ++ href
              ++ DQUOTE :: (str ">" ++ text ++ str "</a>"))
        with (LT :: (97%Z :: 32%Z :: (str "href=" ++ [DQUOTE]) ++ href
                     ++ DQUOTE :: (str ">" ++ text ++ str "</a>"))) in *.
      rewrite (@scanGo_hit _ _ _ _ _ E), M. f_equal.
      replace (97%Z :: 32%Z :: (str "href=" ++ [DQUOTE]) ++ href
               ++ DQUOTE :: (str ">" ++ text ++ str "</a>"))
        with ((97%Z :: 32%Z :: (str "href=" ++ [DQUOTE]) ++ href ++ [DQUOTE])
              ++ (str ">" ++ text ++ str "</a>"))
        by (cbn [app]; rewrite <- !app_assoc; reflexivity).
      replace (10 + length href - 0 - 1)
        with (length (97%Z :: 32%Z :: (str "href=" ++ [DQUOTE]) ++ href
                      ++ [DQUOTE])).
      - rewrite scanGo_skip. apply scanGo_after_anchor. exact Ht.
      - cbn [length]. rewrite !length_app. cbn [length str map
          String.list_ascii_of_string]. lia. }
    rewrite Sc. cbn [Html.firstDirect]. rewrite G.
    fold AGGREGATOR. fold (isDirect href).
    destruct (isDirect href).
    + f_equal. apply hd_split. discriminate.
    + assert (Se : search Html.hrefRegex 0
                     (str "<a" ++ 32%Z :: (str "href=" ++ [DQUOTE]) ++ href
                      ++ DQUOTE :: (str ">" ++ text ++ str "</a>"))
                   = Some m).
      { rewrite search_scanGo, Sc. reflexivity. }
      rewrite Se. exact G.
Qed.

Lemma html_anchor_cell_witness :
  Html.extractCompanyName
    (Sample.anchor (str "https://simplify.jobs/p/1?utm_source=GH") (str "Acme"))
  = Html.cleanText (str "Acme")
  /\ Html.extractApplicationLink
       (Sample.anchor (str "https://simplify.jobs/p/1?utm_source=GH")
                      (str "Acme"))
     = if isDirect (str "https://simplify.jobs/p/1?utm_source=GH")
       then beforeFirst TRACKING (str "https://simplify.jobs/p/1?utm_source=GH")
       else str "https://simplify.jobs/p/1?utm_source=GH".
Proof.
  apply html_anchor_cell_read_back;
    [discriminate | discriminate | reflexivity | reflexivity].
Defined.

End AnchorCellMore.
